(** * RUMBLE round settlement: the on-chain program and its backend mirror

    A shallow embedding of the Anchor program [rumble] (instruction handlers
    [initialize], [deposit], [evaluate_trading_activity], [select_winners],
    [reset_game]) and of the NestJS [GameService], followed by the properties
    of the round ledger that the specification states about them and by
    further properties of the handlers and of the service: which calls
    succeed and why the others fail, what each call writes and what it
    leaves alone, and the invariants of the roster and of the tables.

    Conventions.
    - [u64], [u32], [i64] and [usize] values are [Z]; every place where the
      source can overflow is written out ([checked_add], [mul_u64],
      [add_u64]).
    - [f64] values are [spec_float] with the binary64 parameters, so
      [((total_players as f64) * 0.10).ceil() as usize] is computed with
      IEEE rounding and not with exact rationals.
    - A handler is a computation over the accounts it was given: it works
      on the deserialised [GameState] and on the lamports of the accounts
      passed to it, and where it returns an error the model returns that
      working copy as the handler left it.  An instruction is the handler
      as the runtime runs it ([process_instruction]): the account data is
      written back after [Ok] only, and nothing a failed instruction wrote
      is kept.  The states of a round are therefore the ones the calls that
      returned [Ok] lead to ([completed]).
    - The backend's amounts are JavaScript numbers, so they are binary64
      values as well ([Number]): [+=], [* 90 / 100] and [Math.floor] round
      as IEEE 754 prescribes, and an amount need not be an integer. *)

From Stdlib Require Import ZArith Lia Bool SpecFloat Sorted Permutation.
From stdpp Require Import base list sorting gmap strings.

Local Open Scope Z_scope.

(** ** Machine integers *)

Definition U64_MAX : Z := 18446744073709551615.
Definition USIZE_MAX : Z := U64_MAX.

(** [u64::checked_add] *)
Definition checked_add (a b : Z) : option Z :=
  if a + b <=? U64_MAX then Some (a + b) else None.

(** [u64::checked_div] *)
Definition checked_div (a b : Z) : option Z :=
  if b =? 0 then None else Some (a / b).

(** ** Binary64 arithmetic used for the winner count *)

Module F64.
Definition prec : Z := 53.
Definition emax : Z := 1024.

Definition t := spec_float.

(** [n as f64] for an unsigned integer: round to nearest, ties to even. *)
Definition of_usize (n : Z) : t := binary_normalize prec emax n 0 false.

(** The literal [0.10]: the double nearest to one tenth,
    [0x1.999999999999Ap-4]. *)
Definition lit_0_10 : t := S754_finite false 7205759403792794 (-56).

Definition mul : t -> t -> t := SFmul prec emax.

(** The integer [f64::ceil] rounds up to. *)
Definition ceil_int (s : bool) (m : positive) (e : Z) : Z :=
  let v := if s then Z.neg m else Z.pos m in
  if 0 <=? e then v * 2 ^ e else - ((- v) / 2 ^ (- e)).

(** [f64::ceil] *)
Definition ceil (x : t) : t :=
  match x with
  | S754_finite s m e =>
      if 0 <=? e then x else binary_normalize prec emax (ceil_int s m e) 0 s
  | _ => x
  end.

(** [x as usize]: truncation toward zero, saturating, NaN to 0. *)
Definition to_usize (x : t) : Z :=
  match x with
  | S754_zero _ => 0
  | S754_nan => 0
  | S754_infinity s => if s then 0 else USIZE_MAX
  | S754_finite s m e =>
      if s then 0
      else Z.min USIZE_MAX (if 0 <=? e then Z.pos m * 2 ^ e else Z.pos m / 2 ^ (- e))
  end.

(** The mantissa the rounding of [P * 2^E] arrives at, before it is
    renormalised: [P] shifted right by [k] places and rounded to nearest,
    ties to even. *)
Definition rounded (P : Z) (k : positive) : Z :=
  let m0 := P / 2 ^ Z.pos k in
  round_nearest_even m0
    (loc_of_shr_record
       (Build_shr_record m0 (Z.odd (P / 2 ^ (Z.pos k - 1)))
          (negb (P mod 2 ^ (Z.pos k - 1) =? 0)))).

(** The mantissa of [lit_0_10]. *)
Definition M10 : Z := 7205759403792794.
End F64.

(** ** Data model of the program *)

Definition Pubkey := Z.

Module Player.
Record t := mk {
  key : Pubkey;
  deposit : Z;        (* u64 *)
  trading_score : Z;  (* u32 *)
  last_active : Z     (* i64 *)
}.
Definition set_deposit (d : Z) (p : t) : t :=
  mk (key p) d (trading_score p) (last_active p).
Definition set_trading_score (s : Z) (p : t) : t :=
  mk (key p) (deposit p) s (last_active p).
Definition set_last_active (a : Z) (p : t) : t :=
  mk (key p) (deposit p) (trading_score p) a.
End Player.

Module GameState.
Record t := mk {
  total_deposits : Z;  (* u64 *)
  prize_pool : Z;      (* u64 *)
  active : bool;
  players : list Player.t;
  winners : list Player.t;
  game_id : Pubkey
}.
Definition set_total_deposits (v : Z) (g : t) : t :=
  mk v (prize_pool g) (active g) (players g) (winners g) (game_id g).
Definition set_prize_pool (v : Z) (g : t) : t :=
  mk (total_deposits g) v (active g) (players g) (winners g) (game_id g).
Definition set_active (v : bool) (g : t) : t :=
  mk (total_deposits g) (prize_pool g) v (players g) (winners g) (game_id g).
Definition set_players (v : list Player.t) (g : t) : t :=
  mk (total_deposits g) (prize_pool g) (active g) v (winners g) (game_id g).
Definition set_winners (v : list Player.t) (g : t) : t :=
  mk (total_deposits g) (prize_pool g) (active g) (players g) v (game_id g).
Definition set_game_id (v : Pubkey) (g : t) : t :=
  mk (total_deposits g) (prize_pool g) (active g) (players g) (winners g) v.
End GameState.

Module AccountInfo.
Record t := mk {
  key : Pubkey;
  lamports : Z   (* u64 *)
}.
Definition set_lamports (v : Z) (a : t) : t := mk (key a) v.
End AccountInfo.

Inductive RumbleError :=
| InvalidDeposit
| NoDeposits
| GameAlreadyActive
| Overflow
| DivisionByZero
| WinnerAccountNotFound
| GameNotActive.

(** How an instruction can end other than with [Ok(())]: one of the
    program's own errors, an error of the runtime returned through [?]
    ([Clock::get()], the burn call), or a panic on arithmetic overflow. *)
Inductive Failure :=
| Rumble (e : RumbleError)
| ProgramError
| Panic.

Inductive Event :=
| DepositEvent (player : Pubkey) (amount : Z) (timestamp : Z)
| TradingEvaluationEvent (game_id : Pubkey) (timestamp : Z)
| WinnersSelectedEvent (game_id : Pubkey) (winners : list Pubkey)
    (prize_per_winner : Z) (buyback_amount : Z) (timestamp : Z)
| GameResetEvent (game_id : Pubkey) (timestamp : Z).

(** What the handlers read from outside the accounts. *)
Record Env := {
  overflow_checks : bool;  (* build profile: does unchecked [*], [+=] panic *)
  clock : option Z;        (* [Clock::get()], [None] when the sysvar read fails *)
  burn_ok : Z -> bool      (* does [rumble_token_burner.burn(amount)] succeed *)
}.

(** The accounts of an instruction together with what it has emitted. *)
Record World := {
  game_state : GameState.t;
  winner_accounts : list AccountInfo.t;
  burned : list Z;
  events : list Event
}.

Definition set_game_state (g : GameState.t) (w : World) : World :=
  Build_World g (winner_accounts w) (burned w) (events w).
Definition set_winner_accounts (a : list AccountInfo.t) (w : World) : World :=
  Build_World (game_state w) a (burned w) (events w).
Definition push_burned (x : Z) (w : World) : World :=
  Build_World (game_state w) (winner_accounts w) (burned w ++ [x]) (events w).
Definition push_event (e : Event) (w : World) : World :=
  Build_World (game_state w) (winner_accounts w) (burned w) (events w ++ [e]).

(** ** The handler monad: state with early exit *)

Inductive Result (A : Type) :=
| Ok (a : A)
| Err (e : Failure).
Arguments Ok {A} a.
Arguments Err {A} e.

Definition M (A : Type) : Type := World -> Result A * World.

Definition ret {A} (a : A) : M A := fun w => (Ok a, w).
Definition fail {A} (e : Failure) : M A := fun w => (Err e, w).
Definition bind {A B} (c : M A) (k : A -> M B) : M B :=
  fun w => match c w with
           | (Ok a, w') => k a w'
           | (Err e, w') => (Err e, w')
           end.

#[global] Instance M_ret : MRet M := @ret.
#[global] Instance M_bind : MBind M := fun A B k c => bind c k.

Definition get_gs : M GameState.t := fun w => (Ok (game_state w), w).
Definition modify_gs (f : GameState.t -> GameState.t) : M unit :=
  fun w => (Ok tt, set_game_state (f (game_state w)) w).
Definition get_accounts : M (list AccountInfo.t) :=
  fun w => (Ok (winner_accounts w), w).
Definition put_accounts (a : list AccountInfo.t) : M unit :=
  fun w => (Ok tt, set_winner_accounts a w).
Definition emit (e : Event) : M unit := fun w => (Ok tt, push_event e w).

(** [require!(cond, err)] *)
Definition require (cond : bool) (e : RumbleError) : M unit :=
  if cond then ret tt else fail (Rumble e).

(** [opt.ok_or(err)?] *)
Definition ok_or {A} (o : option A) (e : RumbleError) : M A :=
  match o with
  | Some a => ret a
  | None => fail (Rumble e)
  end.

(** [for x in xs { body }] with [?] inside the body *)
Fixpoint for_each {A} (body : A -> M unit) (xs : list A) : M unit :=
  match xs with
  | [] => ret tt
  | x :: xs' => body x ;; for_each body xs'
  end.

(** ** Vec helpers *)

(** [v.iter_mut().find(pred)] followed by a write through the reference:
    the first element satisfying [pred] is replaced. *)
Fixpoint update_first {A} (pred : A -> bool) (f : A -> A) (l : list A) : list A :=
  match l with
  | [] => []
  | x :: l' => if pred x then f x :: l' else x :: update_first pred f l'
  end.

(** [slice::sort_by]: a stable sort.  Going through the vector from the
    back, each element [x] is placed in front of the part already sorted and
    moved past exactly the elements that compare strictly before it
    ([cmp x y = Gt]), so elements that compare [Equal] keep their order. *)
Fixpoint insert_by {A} (cmp : A -> A -> comparison) (x : A) (l : list A) : list A :=
  match l with
  | [] => [x]
  | y :: l' =>
      match cmp x y with
      | Gt => y :: insert_by cmp x l'
      | _ => x :: y :: l'
      end
  end.

Definition sort_by {A} (cmp : A -> A -> comparison) (l : list A) : list A :=
  foldr (insert_by cmp) [] l.

Fixpoint sum_deposits (ps : list Player.t) : Z :=
  match ps with
  | [] => 0
  | p :: ps' => Player.deposit p + sum_deposits ps'
  end.

Fixpoint sum_lamports (accs : list AccountInfo.t) : Z :=
  match accs with
  | [] => 0
  | a :: accs' => AccountInfo.lamports a + sum_lamports accs'
  end.

(** ** The program *)

Module rumble.
Section Handlers.
Variable env : Env.

(** [Clock::get()?.unix_timestamp] *)
Definition Clock_get : M Z :=
  match clock env with
  | Some now => ret now
  | None => fail ProgramError
  end.

(** [a * b] on [u64] *)
Definition mul_u64 (a b : Z) : M Z :=
  if a * b <=? U64_MAX then ret (a * b)
  else if overflow_checks env then fail Panic
  else ret ((a * b) mod (U64_MAX + 1)).

(** [a + b] on [u64], as in [+=] *)
Definition add_u64 (a b : Z) : M Z :=
  if a + b <=? U64_MAX then ret (a + b)
  else if overflow_checks env then fail Panic
  else ret ((a + b) mod (U64_MAX + 1)).

(** [rumble_token_burner.burn(amount)?] *)
Definition burn (amount : Z) : M unit :=
  if burn_ok env amount then (fun w => (Ok tt, push_burned amount w))
  else fail ProgramError.

Definition initialize (game_account : Pubkey) : M unit :=
  modify_gs (GameState.set_total_deposits 0) ;;
  modify_gs (GameState.set_active false) ;;
  modify_gs (GameState.set_players []) ;;
  modify_gs (GameState.set_winners []) ;;
  modify_gs (GameState.set_game_id game_account) ;;
  modify_gs (GameState.set_prize_pool 0) ;;
  ret tt.

Definition has_key (k : Pubkey) (p : Player.t) : bool := Player.key p =? k.

Definition deposit (player : Pubkey) (amount : Z) : M unit :=
  require (0 <? amount) InvalidDeposit ;;
  gs ← get_gs;
  match find (has_key player) (GameState.players gs) with
  | Some existing =>
      d ← ok_or (checked_add (Player.deposit existing) amount) Overflow;
      modify_gs (fun g => GameState.set_players
        (update_first (has_key player) (Player.set_deposit d) (GameState.players g)) g)
  | None =>
      now ← Clock_get;
      modify_gs (fun g => GameState.set_players
        (GameState.players g ++ [Player.mk player amount 0 now]) g)
  end ;;
  gs ← get_gs;
  total ← ok_or (checked_add (GameState.total_deposits gs) amount) Overflow;
  modify_gs (GameState.set_total_deposits total) ;;
  modify_gs (fun g => GameState.set_prize_pool (GameState.total_deposits g) g) ;;
  now ← Clock_get;
  emit (DepositEvent player amount now) ;;
  ret tt.

Definition evaluate_one (entry : Pubkey * Z) : M unit :=
  let '(player_key, score) := entry in
  gs ← get_gs;
  match find (has_key player_key) (GameState.players gs) with
  | Some _ =>
      modify_gs (fun g => GameState.set_players
        (update_first (has_key player_key) (Player.set_trading_score score)
           (GameState.players g)) g) ;;
      now ← Clock_get;
      modify_gs (fun g => GameState.set_players
        (update_first (has_key player_key) (Player.set_last_active now)
           (GameState.players g)) g)
  | None => ret tt
  end.

Definition evaluate_trading_activity (scores : list (Pubkey * Z)) : M unit :=
  for_each evaluate_one scores ;;
  gs ← get_gs;
  now ← Clock_get;
  emit (TradingEvaluationEvent (GameState.game_id gs) now) ;;
  ret tt.

(** [((total_players as f64) * 0.10).ceil() as usize] *)
Definition num_winners_of (total_players : Z) : Z :=
  F64.to_usize (F64.ceil (F64.mul (F64.of_usize total_players) F64.lit_0_10)).

(** [|a, b| b.trading_score.cmp(&a.trading_score)] *)
Definition by_score_desc (a b : Player.t) : comparison :=
  Player.trading_score b ?= Player.trading_score a.

(** [sorted_players.into_iter().take(num_winners).collect()] *)
Definition ranked_winners (players : list Player.t) : list Player.t :=
  take (Z.to_nat (num_winners_of (Z.of_nat (length players))))
       (sort_by by_score_desc players).

Definition has_account_key (k : Pubkey) (a : AccountInfo.t) : bool :=
  AccountInfo.key a =? k.

Definition pay_winner (prize_per_winner : Z) (winner : Player.t) : M unit :=
  accs ← get_accounts;
  w ← ok_or (find (has_account_key (Player.key winner)) accs) WinnerAccountNotFound;
  l ← add_u64 (AccountInfo.lamports w) prize_per_winner;
  put_accounts (update_first (has_account_key (Player.key winner))
                  (AccountInfo.set_lamports l) accs).

Definition select_winners : M unit :=
  gs ← get_gs;
  require (0 <? GameState.total_deposits gs) NoDeposits ;;
  require (negb (GameState.active gs)) GameAlreadyActive ;;
  let total_players := Z.of_nat (length (GameState.players gs)) in
  let num_winners := num_winners_of total_players in
  let winners := ranked_winners (GameState.players gs) in
  modify_gs (GameState.set_winners winners) ;;
  gs ← get_gs;
  let prize_pool := GameState.prize_pool gs in
  p90 ← mul_u64 prize_pool 90;
  let prize_for_winners := p90 / 100 in
  p10 ← mul_u64 prize_pool 10;
  let buyback_amount := p10 / 100 in
  prize_per_winner ← ok_or (checked_div prize_for_winners num_winners) DivisionByZero;
  for_each (pay_winner prize_per_winner) winners ;;
  burn buyback_amount ;;
  now ← Clock_get;
  emit (WinnersSelectedEvent (GameState.game_id gs) (map Player.key winners)
          prize_per_winner buyback_amount now) ;;
  modify_gs (GameState.set_total_deposits 0) ;;
  modify_gs (GameState.set_prize_pool 0) ;;
  modify_gs (GameState.set_active true) ;;
  ret tt.

Definition reset_game : M unit :=
  gs ← get_gs;
  require (GameState.active gs) GameNotActive ;;
  modify_gs (GameState.set_active false) ;;
  modify_gs (GameState.set_players []) ;;
  modify_gs (GameState.set_winners []) ;;
  modify_gs (GameState.set_total_deposits 0) ;;
  modify_gs (GameState.set_prize_pool 0) ;;
  gs ← get_gs;
  now ← Clock_get;
  emit (GameResetEvent (GameState.game_id gs) now) ;;
  ret tt.
End Handlers.
End rumble.

(** ** Instructions and reachable states *)

Inductive Instruction :=
| Initialize (game_account : Pubkey)
| Deposit (player : Pubkey) (amount : Z)
| EvaluateTradingActivity (scores : list (Pubkey * Z))
| SelectWinners
| ResetGame.

Definition exec (env : Env) (i : Instruction) : M unit :=
  match i with
  | Initialize game_account => rumble.initialize game_account
  | Deposit player amount => rumble.deposit env player amount
  | EvaluateTradingActivity scores => rumble.evaluate_trading_activity env scores
  | SelectWinners => rumble.select_winners env
  | ResetGame => rumble.reset_game env
  end.

(** Every game state a handler can return with, whether it returned [Ok]
    or an error: the states of a round and the working copies of failed
    calls. *)
Inductive reachable : GameState.t -> Prop :=
| reachable_init game_account w :
    reachable (game_state (snd (rumble.initialize game_account w)))
| reachable_step env i w :
    reachable (game_state w) ->
    reachable (game_state (snd (exec env i w))).

(** The game states produced by completed instructions only: a call that
    returned an error contributes nothing. *)
Inductive completed : GameState.t -> Prop :=
| completed_init game_account w w' :
    rumble.initialize game_account w = (Ok tt, w') ->
    completed (game_state w')
| completed_step env i w w' :
    completed (game_state w) ->
    exec env i w = (Ok tt, w') ->
    completed (game_state w').

(** An instruction as the runtime runs it.  [game_state] is an
    [Account<'info, GameState>]: the handler works on the deserialised
    value, which is serialised back into the account when the handler has
    returned [Ok].  Lamports are written to the accounts directly, and the
    runtime keeps none of the writes of an instruction that failed.  A
    failed instruction therefore returns its error and the accounts as they
    were before it. *)
Definition process_instruction (env : Env) (i : Instruction) : M unit :=
  fun w =>
    match exec env i w with
    | (Ok u, w') => (Ok u, w')
    | (Err e, _) => (Err e, w)
    end.

(** * The backend mirror: [GameService]

    The NestJS service keeps the same round in three tables.  Rows of a
    table are kept in insertion order; [findOne] returns the first row that
    matches, [save] rewrites the row it was loaded from or appends a new
    one.  Deposits, totals and prizes are JavaScript numbers, that is
    binary64 values ([Number.t]) with the arithmetic of IEEE 754.  Trading
    scores are integers, as the scores of the program are; [sort] looks
    only at the sign of [b.tradingScore - a.tradingScore], which for finite
    numbers is the sign of the exact difference.  Each
    [await repository.save(..)] may reject; which ones do is given by
    [Io]. *)

(** JavaScript's [number]: the operations of the service on amounts. *)
Module Number.
Definition t := spec_float.

(** An integer literal, or an integer read as a number. *)
Definition of_int (n : Z) : t := binary_normalize F64.prec F64.emax n 0 false.

(** [x + y], [x * y], [x / y] *)
Definition add : t -> t -> t := SFadd F64.prec F64.emax.
Definition mul : t -> t -> t := SFmul F64.prec F64.emax.
Definition div : t -> t -> t := SFdiv F64.prec F64.emax.

(** The integer [Math.floor] rounds down to. *)
Definition floor_int (s : bool) (m : positive) (e : Z) : Z :=
  let v := if s then Z.neg m else Z.pos m in
  if 0 <=? e then v * 2 ^ e else v / 2 ^ (- e).

(** [Math.floor(x)] *)
Definition floor (x : t) : t :=
  match x with
  | S754_finite s m e =>
      if 0 <=? e then x else binary_normalize F64.prec F64.emax (floor_int s m e) 0 s
  | _ => x
  end.

(** [Math.ceil(x)] *)
Definition ceil : t -> t := F64.ceil.
End Number.

Module GameRow.
Record t := mk {
  gameId : string;
  totalDeposits : Number.t;
  prizePool : Number.t;
  active : bool
}.
End GameRow.

Module PlayerRow.
Record t := mk {
  key : string;
  deposit : Number.t;
  tradingScore : Z;
  game : string
}.
End PlayerRow.

Module WinnerRow.
Record t := mk {
  playerKey : string;
  prize : Number.t;
  game : string
}.
End WinnerRow.

Module GameService.

Record Db := {
  games : gmap string GameRow.t;
  players : list PlayerRow.t;
  winners : list WinnerRow.t;
  burnt : list Number.t;
  emitted : list string
}.

Record Io := {
  player_save_ok : bool;          (* [playerRepository.save] *)
  game_save_ok : bool;            (* [gameStateRepository.save] *)
  winner_save_ok : nat -> bool    (* the i-th [winnerRepository.save] of the call *)
}.

Inductive Rejection :=
| NotActiveOrMissing   (* [Error('Game is not active or does not exist.')] *)
| RepositoryError.

Inductive Outcome (A : Type) :=
| Resolved (a : A)
| Rejected (r : Rejection).
Arguments Resolved {A} a.
Arguments Rejected {A} r.

Definition is_player (playerKey gameId : string) (p : PlayerRow.t) : bool :=
  bool_decide (PlayerRow.key p = playerKey /\ PlayerRow.game p = gameId).

Definition save_player (p : PlayerRow.t) (db : Db) : Db :=
  let same := is_player (PlayerRow.key p) (PlayerRow.game p) in
  let rows :=
    match find same (players db) with
    | Some _ => update_first same (fun _ => p) (players db)
    | None => players db ++ [p]
    end in
  Build_Db (games db) rows (winners db) (burnt db) (emitted db).

Definition save_game (g : GameRow.t) (db : Db) : Db :=
  Build_Db (<[GameRow.gameId g := g]> (games db)) (players db) (winners db)
    (burnt db) (emitted db).

Definition save_winner (w : WinnerRow.t) (db : Db) : Db :=
  Build_Db (games db) (players db) (winners db ++ [w]) (burnt db) (emitted db).

Definition emit (name : string) (db : Db) : Db :=
  Build_Db (games db) (players db) (winners db) (burnt db) (emitted db ++ [name]).

(** [buybackAndBurnTokens]: only writes a log line. *)
Definition buybackAndBurnTokens (amount : Number.t) (db : Db) : Db :=
  Build_Db (games db) (players db) (winners db) (burnt db ++ [amount]) (emitted db).

Definition deposit (io : Io) (playerKey : string) (amount : Number.t)
    (gameId : string) (db : Db) : Outcome unit * Db :=
  match games db !! gameId with
  | None => (Rejected NotActiveOrMissing, db)
  | Some game =>
      if GameRow.active game then (Rejected NotActiveOrMissing, db)
      else
        let player :=
          match find (is_player playerKey gameId) (players db) with
          | Some p =>
              PlayerRow.mk (PlayerRow.key p) (Number.add (PlayerRow.deposit p) amount)
                (PlayerRow.tradingScore p) (PlayerRow.game p)
          | None => PlayerRow.mk playerKey amount 0 gameId
          end in
        if negb (player_save_ok io) then (Rejected RepositoryError, db)
        else
          let db1 := save_player player db in
          let total := Number.add (GameRow.totalDeposits game) amount in
          let game' := GameRow.mk (GameRow.gameId game) total total (GameRow.active game) in
          if negb (game_save_ok io) then (Rejected RepositoryError, db1)
          else (Resolved tt, emit "deposit.made" (save_game game' db1))
  end.

(** [(a, b) => b.tradingScore - a.tradingScore] *)
Definition by_tradingScore_desc (a b : PlayerRow.t) : comparison :=
  (PlayerRow.tradingScore b - PlayerRow.tradingScore a) ?= 0.

(** The loop over [topPlayers]: each winner row is saved before the next
    is created. *)
Fixpoint save_winners (io : Io) (i : nat) (prize : Number.t) (gameId : string)
    (top : list PlayerRow.t) (acc : list WinnerRow.t) (db : Db)
    : Outcome (list WinnerRow.t) * Db :=
  match top with
  | [] => (Resolved acc, db)
  | player :: rest =>
      let winner := WinnerRow.mk (PlayerRow.key player) prize gameId in
      if winner_save_ok io i
      then save_winners io (S i) prize gameId rest (acc ++ [winner]) (save_winner winner db)
      else (Rejected RepositoryError, db)
  end.

(** [Math.ceil(players.length * 0.10)] *)
Definition numWinners_of (length : nat) : Number.t :=
  Number.ceil (Number.mul (Number.of_int (Z.of_nat length)) F64.lit_0_10).

(** [rows.slice(0, numWinners)]: the count is the integer the number
    truncates to. *)
Definition slice_0 {A} (numWinners : Number.t) (rows : list A) : list A :=
  take (Z.to_nat (F64.to_usize numWinners)) rows.

Definition selectWinners (io : Io) (gameId : string) (db : Db)
    : Outcome (list WinnerRow.t) * Db :=
  match games db !! gameId with
  | None => (Rejected NotActiveOrMissing, db)
  | Some game =>
      if GameRow.active game then (Rejected NotActiveOrMissing, db)
      else
        let players := filter (fun p => PlayerRow.game p = gameId) (players db) in
        let numWinners := numWinners_of (length players) in
        let sortedPlayers := sort_by by_tradingScore_desc players in
        let topPlayers := slice_0 numWinners sortedPlayers in
        let prizePool := GameRow.prizePool game in
        let prizeForWinners :=
          Number.floor (Number.div (Number.mul prizePool (Number.of_int 90))
                          (Number.of_int 100)) in
        let buybackAmount :=
          Number.floor (Number.div (Number.mul prizePool (Number.of_int 10))
                          (Number.of_int 100)) in
        let prizePerWinner := Number.floor (Number.div prizeForWinners numWinners) in
        match save_winners io 0 prizePerWinner gameId topPlayers [] db with
        | (Rejected r, db1) => (Rejected r, db1)
        | (Resolved winners, db1) =>
            let db2 := buybackAndBurnTokens buybackAmount db1 in
            let game' :=
              GameRow.mk (GameRow.gameId game) (GameRow.totalDeposits game)
                (Number.of_int 0) true in
            if negb (game_save_ok io) then (Rejected RepositoryError, db2)
            else (Resolved winners, emit "winners.selected" (save_game game' db2))
        end
  end.

(** How [evaluateTradingActivities] can end. *)
Inductive Evaluation :=
| Evaluated
| GameNotFound       (* [Error('Game not found.')] *)
| AiRejected         (* [computeScoresWithAnomalyDetection] rejected *)
| SaveRejected.      (* a [playerRepository.save] rejected *)

(** The loop over the scores: the first player of the game with the key
    gets the score and is saved before the next score is looked at. *)
Fixpoint save_scores (io : Io) (gameId : string) (scores : list (string * Z))
    (db : Db) : Evaluation * Db :=
  match scores with
  | [] => (Evaluated, db)
  | (playerKey, score) :: rest =>
      match find (is_player playerKey gameId) (players db) with
      | Some player =>
          if player_save_ok io
          then save_scores io gameId rest
                 (save_player
                    (PlayerRow.mk (PlayerRow.key player) (PlayerRow.deposit player)
                       score (PlayerRow.game player)) db)
          else (SaveRejected, db)
      | None => save_scores io gameId rest db
      end
  end.

(** [aiService] is given as the function from the keys it is asked about to
    the scores it answers with, [None] when its promise rejects. *)
Definition evaluateTradingActivities (io : Io)
    (aiService : list string -> option (list (string * Z)))
    (gameId : string) (db : Db) : Evaluation * Db :=
  match games db !! gameId with
  | None => (GameNotFound, db)
  | Some game =>
      let players := filter (fun p => PlayerRow.game p = gameId) (players db) in
      match aiService (map PlayerRow.key players) with
      | None => (AiRejected, db)
      | Some scores =>
          match save_scores io gameId scores db with
          | (Evaluated, db1) => (Evaluated, emit "trading.evaluated" db1)
          | failed => failed
          end
      end
  end.

(** Which of the two [repository.delete] calls of [resetGame] succeed. *)
Record DeleteIo := {
  winner_delete_ok : bool;   (* [winnerRepository.delete({ game: gameId })] *)
  player_delete_ok : bool    (* [playerRepository.delete({ game: gameId })] *)
}.

Definition delete_winners (gameId : string) (db : Db) : Db :=
  Build_Db (games db) (players db)
    (filter (fun w => WinnerRow.game w <> gameId) (winners db)) (burnt db) (emitted db).

Definition delete_players (gameId : string) (db : Db) : Db :=
  Build_Db (games db)
    (filter (fun p => PlayerRow.game p <> gameId) (players db))
    (winners db) (burnt db) (emitted db).

Definition resetGame (io : Io) (del : DeleteIo) (gameId : string) (db : Db)
    : Outcome unit * Db :=
  match games db !! gameId with
  | None => (Rejected NotActiveOrMissing, db)
  | Some game =>
      if negb (GameRow.active game) then (Rejected NotActiveOrMissing, db)
      else if negb (winner_delete_ok del) then (Rejected RepositoryError, db)
      else
        let db1 := delete_winners gameId db in
        if negb (player_delete_ok del) then (Rejected RepositoryError, db1)
        else
          let db2 := delete_players gameId db1 in
          let game' :=
            GameRow.mk (GameRow.gameId game) (Number.of_int 0) (Number.of_int 0) false in
          if negb (game_save_ok io) then (Rejected RepositoryError, db2)
          else (Resolved tt, emit "game.reset" (save_game game' db2))
  end.

End GameService.

(** * Stating the properties *)

(** ** The vocabulary of the properties *)

(** [c] keeps [I] true of the accounts, whatever it returns. *)
Definition preserves {A} (I : World -> Prop) (c : M A) : Prop :=
  forall w, I w -> I (snd (c w)).

(** An invariant that only reads the game state survives everything that
    does not write it. *)
Definition on_game_state (P : GameState.t -> Prop) : World -> Prop :=
  fun w => P (game_state w).

Definition pools_agree (g : GameState.t) : Prop :=
  GameState.prize_pool g = GameState.total_deposits g.

(** The value of an unchecked [u64] operation whose exact result is [r]:
    [r] itself when it fits, and the wrapped value when it does not and the
    build does not panic on overflow. *)
Definition u64_result (env : Env) (r x : Z) : Prop :=
  r <= U64_MAX /\ x = r \/
  U64_MAX < r /\ overflow_checks env = false /\ x = r mod (U64_MAX + 1).

(** The pool equals the recorded deposits as long as the round has not been
    settled. *)
Definition ledger_exact (g : GameState.t) : Prop :=
  GameState.active g = false ->
  GameState.total_deposits g = sum_deposits (GameState.players g).

Definition ledger_is (total sum : Z) (act : bool) (g : GameState.t) : Prop :=
  GameState.total_deposits g = total /\
  sum_deposits (GameState.players g) = sum /\
  GameState.active g = act.

(** [a] ranks at least as high as [b]. *)
Definition outranks (a b : Player.t) : Prop :=
  Player.trading_score b <= Player.trading_score a.

(** The ranking score as the specification words it, in hundredths:
    [0.40 * holdings + 0.30 * activity + 0.20 * speed + 0.10 * random] over
    sub-scores on a common scale. *)
Definition spec_composite_score (holdings activity speed random : Z) : Z :=
  40 * holdings + 30 * activity + 20 * speed + 10 * random.

(** What one entry of the batch does to the players vector when the clock
    reads [now]. *)
Definition apply_score (now : Z) (ps : list Player.t) (entry : Pubkey * Z) : list Player.t :=
  update_first (rumble.has_key entry.1) (Player.set_last_active now)
    (update_first (rumble.has_key entry.1) (Player.set_trading_score entry.2) ps).

Definition with_players (ps : list Player.t) (w : World) : World :=
  set_game_state (GameState.set_players ps (game_state w)) w.

(** The part of the players vector that scoring is about: who is registered
    and with which score. *)
Definition scores_of (ps : list Player.t) : list (Pubkey * Z) :=
  map (fun p => (Player.key p, Player.trading_score p)) ps.

Definition is_entry_of (k : Pubkey) (e : Pubkey * Z) : bool := e.1 =? k.

(** Overwriting the score of the first record of key [k]. *)
Definition overwrite (k : Pubkey) (v : Z) (l : list (Pubkey * Z)) : list (Pubkey * Z) :=
  update_first (is_entry_of k) (fun e => (e.1, v)) l.

Definition overwrite_all (scores : list (Pubkey * Z)) (l : list (Pubkey * Z)) :=
  fold_left (fun l e => overwrite e.1 e.2 l) scores l.

(** The ceiling of [n / 10] for a count [n]. *)
Definition ceil_tenth (n : Z) : Z := (n + 9) / 10.

(** The players vector after [player] has deposited [amount] at time
    [now]. *)
Definition credited (now : Z) (player : Pubkey) (amount : Z) (ps : list Player.t)
    : list Player.t :=
  match find (rumble.has_key player) ps with
  | Some existing =>
      update_first (rumble.has_key player)
        (Player.set_deposit (Player.deposit existing + amount)) ps
  | None => ps ++ [Player.mk player amount 0 now]
  end.

(** The roster is well formed: keys are registered once, winners are
    recorded once and are registered players, deposits are positive. *)
Definition roster_ok (g : GameState.t) : Prop :=
  NoDup (map Player.key (GameState.players g)) /\
  NoDup (map Player.key (GameState.winners g)) /\
  map Player.key (GameState.winners g) ⊆ map Player.key (GameState.players g) /\
  Forall (fun p => 0 < Player.deposit p) (GameState.players g).

(** An account after the payout: [prize] more lamports when its key is one
    of [keys]. *)
Definition credit_winners (keys : list Pubkey) (prize : Z) (a : AccountInfo.t)
    : AccountInfo.t :=
  if bool_decide (AccountInfo.key a ∈ keys)
  then AccountInfo.set_lamports (AccountInfo.lamports a + prize) a
  else a.

(** [c] has emitted nothing whenever it returns an error. *)
Definition silent_on_err {A} (c : M A) : Prop :=
  forall w e w', c w = (Err e, w') -> events w' = events w.

(** [ev] is the event instruction [i] emits when it completes from game
    state [g] at time [now]. *)
Definition is_event_of (i : Instruction) (g : GameState.t) (now : Z) (ev : Event) : Prop :=
  match i, ev with
  | Deposit player amount, DepositEvent player' amount' timestamp =>
      player' = player /\ amount' = amount /\ timestamp = now
  | EvaluateTradingActivity _, TradingEvaluationEvent game_id timestamp =>
      game_id = GameState.game_id g /\ timestamp = now
  | SelectWinners, WinnersSelectedEvent game_id winners _ _ timestamp =>
      game_id = GameState.game_id g /\
      winners = map Player.key (rumble.ranked_winners (GameState.players g)) /\
      timestamp = now
  | ResetGame, GameResetEvent game_id timestamp =>
      game_id = GameState.game_id g /\ timestamp = now
  | _, _ => False
  end.

(** The score of the last entry of the batch for the key [k], if there is
    one. *)
Definition last_score (scores : list (Pubkey * Z)) (k : Pubkey) : option Z :=
  snd <$> find (is_entry_of k) (reverse scores).

(** A player after the batch [scores] has been applied at time [now]. *)
Definition rescored (now : Z) (scores : list (Pubkey * Z)) (p : Player.t) : Player.t :=
  match last_score scores (Player.key p) with
  | Some v => Player.mk (Player.key p) (Player.deposit p) v now
  | None => p
  end.

(** The games table is read through [findOne({ where: { gameId } })]: the
    row found under an id carries that id. *)
Definition keyed (db : GameService.Db) : Prop :=
  forall k g, GameService.games db !! k = Some g -> GameRow.gameId g = k.

(** Every game row that is open for deposits shows its total of deposits
    as its prize pool. *)
Definition open_pools_agree (db : GameService.Db) : Prop :=
  forall k game, GameService.games db !! k = Some game ->
    GameRow.active game = false ->
    GameRow.prizePool game = GameRow.totalDeposits game.


(** ** Concrete rounds used in the examples *)

Definition env_ok : Env :=
  {| overflow_checks := true; clock := Some 1700000000; burn_ok := fun _ => true |}.

Definition fresh_world (accounts : list AccountInfo.t) : World :=
  {| game_state := GameState.mk 0 0 false [] [] 0;
     winner_accounts := accounts; burned := []; events := [] |}.

Definition open_round (players : list Player.t) (accounts : list AccountInfo.t) : World :=
  {| game_state :=
       GameState.mk (sum_deposits players) (sum_deposits players) false players [] 7;
     winner_accounts := accounts; burned := []; events := [] |}.

(** Eleven players, player [k] with trading score [k] and a deposit of 100;
    only the best-ranked one has brought a winner account. *)
Definition eleven_players : list Player.t :=
  map (fun k => Player.mk k 100 k 0) [1; 2; 3; 4; 5; 6; 7; 8; 9; 10; 11].

Definition short_of_an_account : World :=
  open_round eleven_players [AccountInfo.mk 11 0].

(** A round of one deposit, before and after it is settled. *)
Definition one_deposit : World :=
  snd (rumble.deposit env_ok 1 5
         (snd (rumble.initialize 7 (fresh_world [AccountInfo.mk 1 0])))).

Definition one_deposit_settled : World :=
  snd (rumble.select_winners env_ok one_deposit).

(** A pool of 15: one player, one winner. *)
Definition pool_of_15 : World :=
  open_round [Player.mk 1 15 3 0] [AccountInfo.mk 1 0].

(** A pool filled to [u64::MAX] by two players. *)
Definition full_pool : World :=
  snd (rumble.deposit env_ok 2 18446744073709551614
         (snd (rumble.deposit env_ok 1 1
                 (snd (rumble.initialize 7 (fresh_world [])))))).

Definition io_ok : GameService.Io :=
  {| GameService.player_save_ok := true; GameService.game_save_ok := true;
     GameService.winner_save_ok := fun _ => true |}.

Definition backend_round (players : list PlayerRow.t) (pool : Z) : GameService.Db :=
  {| GameService.games :=
       {[ "g" := GameRow.mk "g" (Number.of_int pool) (Number.of_int pool) false ]};
     GameService.players := players;
     GameService.winners := []; GameService.burnt := []; GameService.emitted := [] |}.

(** Eleven rows of game ["g"], keys ["a"] to ["k"], row [k] with trading
    score [k] and a deposit of 100. *)
Definition eleven_rows : list PlayerRow.t :=
  map (fun k => PlayerRow.mk (String (Ascii.ascii_of_nat (96 + k)) "")
                (Number.of_int 100) (Z.of_nat k) "g")
    (seq 1 11).

(** Every save succeeds but the second winner row's. *)
Definition io_second_winner_fails : GameService.Io :=
  {| GameService.player_save_ok := true; GameService.game_save_ok := true;
     GameService.winner_save_ok := fun i => bool_decide (i = 0%nat) |}.

(** The eleven players with accounts for the two best ranked. *)
Definition two_winner_accounts : World :=
  open_round eleven_players [AccountInfo.mk 10 0; AccountInfo.mk 11 0].

(** The round of one deposit with no winner account passed. *)
Definition no_account : World := set_winner_accounts [] one_deposit.

(** Two backend games sharing a player key. *)
Definition two_games : GameService.Db :=
  {| GameService.games :=
       {[ "g" := GameRow.mk "g" (Number.of_int 10) (Number.of_int 10) false;
          "h" := GameRow.mk "h" (Number.of_int 7) (Number.of_int 7) false ]};
     GameService.players :=
       [PlayerRow.mk "a" (Number.of_int 10) 0 "g"; PlayerRow.mk "a" (Number.of_int 7) 0 "h"];
     GameService.winners := []; GameService.burnt := []; GameService.emitted := [] |}.

(** The largest integer below which every integer is a number, and the
    pool at which ninety hundredths are no longer exact. *)
Definition two_53 : Z := 9007199254740992.

Definition odd_pool : Z := 1000000000000001.

(** * Properties *)

(** ** Reasoning about handlers *)

Lemma bind_eq {A B} (c : M A) (k : A -> M B) (w : World) :
  (c ≫= k) w = match c w with
               | (Ok a, w') => k a w'
               | (Err e, w') => (Err e, w')
               end.
Proof. reflexivity. Qed.

Lemma preserves_ret {A} I (a : A) : preserves I (ret a).
Proof. intros w H; exact H. Qed.

Lemma preserves_fail {A} I e : preserves I (@fail A e).
Proof. intros w H; exact H. Qed.

Lemma preserves_bind {A B} I (c : M A) (k : A -> M B) :
  preserves I c -> (forall a, preserves I (k a)) -> preserves I (c ≫= k).
Proof.
  intros Hc Hk w Hw. rewrite bind_eq.
  specialize (Hc w Hw). destruct (c w) as [[a|e] w']; cbn in *.
  - apply Hk, Hc.
  - exact Hc.
Qed.

Lemma preserves_require I cond e : preserves I (require cond e).
Proof. destruct cond; intros w H; exact H. Qed.

Lemma preserves_ok_or {A} I (o : option A) e : preserves I (ok_or o e).
Proof. destruct o; intros w H; exact H. Qed.

Lemma preserves_get_gs I : preserves I get_gs.
Proof. intros w H; exact H. Qed.

Lemma preserves_get_accounts I : preserves I get_accounts.
Proof. intros w H; exact H. Qed.

Lemma preserves_Clock_get I env : preserves I (rumble.Clock_get env).
Proof. unfold rumble.Clock_get. destruct (clock env); intros w H; exact H. Qed.

Lemma preserves_mul_u64 I env a b : preserves I (rumble.mul_u64 env a b).
Proof.
  unfold rumble.mul_u64.
  destruct (a * b <=? U64_MAX), (overflow_checks env); intros w H; exact H.
Qed.

Lemma preserves_add_u64 I env a b : preserves I (rumble.add_u64 env a b).
Proof.
  unfold rumble.add_u64.
  destruct (a + b <=? U64_MAX), (overflow_checks env); intros w H; exact H.
Qed.

Lemma preserves_for_each {A} I (body : A -> M unit) xs :
  (forall x, preserves I (body x)) -> preserves I (for_each body xs).
Proof.
  intros Hb. induction xs as [|x xs IH]; cbn [for_each].
  - apply preserves_ret.
  - apply preserves_bind; [apply Hb | intros _; exact IH].
Qed.

Create HintDb preserve.
#[global] Hint Resolve preserves_ret preserves_fail preserves_require
  preserves_ok_or preserves_get_gs preserves_get_accounts preserves_Clock_get
  preserves_mul_u64 preserves_add_u64 : preserve.

Lemma preserves_modify_gs P f :
  (forall g, P g -> P (f g)) -> preserves (on_game_state P) (modify_gs f).
Proof. intros Hf w Hw. apply Hf, Hw. Qed.

Lemma preserves_emit P e : preserves (on_game_state P) (emit e).
Proof. intros w Hw; exact Hw. Qed.

Lemma preserves_put_accounts P a : preserves (on_game_state P) (put_accounts a).
Proof. intros w Hw; exact Hw. Qed.

Lemma preserves_burn P env x : preserves (on_game_state P) (rumble.burn env x).
Proof. unfold rumble.burn. destruct (burn_ok env x); intros w Hw; exact Hw. Qed.

#[global] Hint Resolve preserves_emit preserves_put_accounts preserves_burn : preserve.

Lemma preserves_pay_winner P env ppw winner :
  preserves (on_game_state P) (rumble.pay_winner env ppw winner).
Proof.
  unfold rumble.pay_winner.
  repeat (apply preserves_bind; [auto with preserve | intros ?]).
  auto with preserve.
Qed.
#[global] Hint Resolve preserves_pay_winner : preserve.

Ltac preserve_steps :=
  repeat first
    [ apply preserves_bind; [ | intros ? ]
    | apply preserves_for_each; intros ?
    | solve [ auto with preserve ] ].

(** ** The two pool fields *)

Lemma modify_gs_bind {B} f (k : unit -> M B) w :
  (modify_gs f ≫= k) w = k tt (set_game_state (f (game_state w)) w).
Proof. reflexivity. Qed.

(** Two writes in a row are judged by what they leave together. *)
Lemma preserves_modify_gs2 {B} P f1 f2 (k : M B) :
  (forall g, P g -> P (f2 (f1 g))) ->
  preserves (on_game_state P) k ->
  preserves (on_game_state P) (modify_gs f1 ;; modify_gs f2 ;; k).
Proof.
  intros Hf Hk w Hw. rewrite !modify_gs_bind. apply Hk. apply Hf, Hw.
Qed.

Lemma initialize_pools_agree game_account w :
  pools_agree (game_state (snd (rumble.initialize game_account w))).
Proof. reflexivity. Qed.

Lemma deposit_pools_agree env player amount :
  preserves (on_game_state pools_agree) (rumble.deposit env player amount).
Proof.
  unfold rumble.deposit.
  apply preserves_bind; [auto with preserve | intros _].
  apply preserves_bind; [auto with preserve | intros gs].
  apply preserves_bind.
  - destruct (find _ _); preserve_steps; apply preserves_modify_gs; auto.
  - intros _. apply preserves_bind; [auto with preserve | intros gs'].
    apply preserves_bind; [auto with preserve | intros total].
    apply preserves_modify_gs2; [reflexivity | preserve_steps].
Qed.

Lemma evaluate_one_pools_agree env entry :
  preserves (on_game_state pools_agree) (rumble.evaluate_one env entry).
Proof.
  unfold rumble.evaluate_one. destruct entry as [player_key score].
  apply preserves_bind; [auto with preserve | intros gs].
  destruct (find _ _); preserve_steps; apply preserves_modify_gs; auto.
Qed.

Lemma evaluate_pools_agree env scores :
  preserves (on_game_state pools_agree) (rumble.evaluate_trading_activity env scores).
Proof.
  unfold rumble.evaluate_trading_activity.
  apply preserves_bind.
  - apply preserves_for_each, evaluate_one_pools_agree.
  - intros _. preserve_steps.
Qed.

Lemma select_winners_pools_agree env :
  preserves (on_game_state pools_agree) (rumble.select_winners env).
Proof.
  unfold rumble.select_winners.
  apply preserves_bind; [auto with preserve | intros gs].
  apply preserves_bind; [auto with preserve | intros _].
  apply preserves_bind; [auto with preserve | intros _].
  apply preserves_bind; [apply preserves_modify_gs; auto | intros _].
  apply preserves_bind; [auto with preserve | intros gs'].
  apply preserves_bind; [auto with preserve | intros p90].
  apply preserves_bind; [auto with preserve | intros p10].
  apply preserves_bind; [auto with preserve | intros ppw].
  apply preserves_bind; [preserve_steps | intros _].
  apply preserves_bind; [auto with preserve | intros _].
  apply preserves_bind; [auto with preserve | intros now].
  apply preserves_bind; [auto with preserve | intros _].
  apply preserves_modify_gs2; [reflexivity | ].
  apply preserves_bind; [apply preserves_modify_gs; auto | intros _].
  auto with preserve.
Qed.

Lemma reset_game_pools_agree env :
  preserves (on_game_state pools_agree) (rumble.reset_game env).
Proof.
  unfold rumble.reset_game.
  apply preserves_bind; [auto with preserve | intros gs].
  apply preserves_bind; [auto with preserve | intros _].
  do 3 (apply preserves_bind; [apply preserves_modify_gs; auto | intros _]).
  apply preserves_modify_gs2; [reflexivity | preserve_steps].
Qed.

(** C10. The on-chain program keeps [prize_pool == total_deposits]:
    [initialize] establishes it from any account contents, every instruction
    preserves it whether it returns [Ok] or an error, and so it holds in
    every state an instruction can leave behind. *)
Theorem prize_pool_equals_total_deposits :
  (forall game_account w,
     pools_agree (game_state (snd (rumble.initialize game_account w)))) /\
  (forall env i, preserves (on_game_state pools_agree) (exec env i)) /\
  (forall g, reachable g -> GameState.prize_pool g = GameState.total_deposits g).
Proof.
  assert (Hstep : forall env i, preserves (on_game_state pools_agree) (exec env i)).
  { intros env [a|p amt|scores| |]; cbn [exec].
    - intros w _. apply initialize_pools_agree.
    - apply deposit_pools_agree.
    - apply evaluate_pools_agree.
    - apply select_winners_pools_agree.
    - apply reset_game_pools_agree. }
  split; [exact initialize_pools_agree | split; [exact Hstep | ]].
  induction 1 as [a w | env i w _ IH].
  - apply initialize_pools_agree.
  - apply (Hstep env i w IH).
Qed.

(** ** Following a handler along one outcome *)

Lemma bind_ok_inv {A B} (c : M A) (k : A -> M B) w b w' :
  (c ≫= k) w = (Ok b, w') ->
  exists a w1, c w = (Ok a, w1) /\ k a w1 = (Ok b, w').
Proof.
  rewrite bind_eq. destruct (c w) as [[a|e] w1]; intros H.
  - exists a, w1. split; [reflexivity | exact H].
  - discriminate.
Qed.

Lemma bind_err_inv {A B} (c : M A) (k : A -> M B) w e w' :
  (c ≫= k) w = (Err e, w') ->
  c w = (Err e, w') \/ exists a w1, c w = (Ok a, w1) /\ k a w1 = (Err e, w').
Proof.
  rewrite bind_eq. destruct (c w) as [[a|e1] w1]; intros H.
  - right. exists a, w1. split; [reflexivity | exact H].
  - left. inversion H; reflexivity.
Qed.

Lemma ret_inv {A} (a : A) w r w' : ret a w = (r, w') -> r = Ok a /\ w' = w.
Proof. unfold ret. intros H; inversion H; auto. Qed.

Lemma require_ok_inv cond e w u w' :
  require cond e w = (Ok u, w') -> cond = true /\ w' = w.
Proof. destruct cond; cbn; intros H; inversion H; auto. Qed.

Lemma require_err_inv cond e w f w' :
  require cond e w = (Err f, w') -> cond = false /\ f = Rumble e /\ w' = w.
Proof. destruct cond; cbn; intros H; inversion H; auto. Qed.

Lemma ok_or_ok_inv {A} (o : option A) e w a w' :
  ok_or o e w = (Ok a, w') -> o = Some a /\ w' = w.
Proof. destruct o; cbn; intros H; inversion H; auto. Qed.

Lemma ok_or_err_inv {A} (o : option A) e w f w' :
  ok_or o e w = (Err f, w') -> o = None /\ f = Rumble e /\ w' = w.
Proof. destruct o; cbn; intros H; inversion H; auto. Qed.

Lemma get_gs_inv w r w' : get_gs w = (r, w') -> r = Ok (game_state w) /\ w' = w.
Proof. unfold get_gs. intros H; inversion H; auto. Qed.

Lemma get_accounts_inv w r w' :
  get_accounts w = (r, w') -> r = Ok (winner_accounts w) /\ w' = w.
Proof. unfold get_accounts. intros H; inversion H; auto. Qed.

Lemma modify_gs_inv f w r w' :
  modify_gs f w = (r, w') -> r = Ok tt /\ w' = set_game_state (f (game_state w)) w.
Proof. unfold modify_gs. intros H; inversion H; auto. Qed.

Lemma put_accounts_inv a w r w' :
  put_accounts a w = (r, w') -> r = Ok tt /\ w' = set_winner_accounts a w.
Proof. unfold put_accounts. intros H; inversion H; auto. Qed.

Lemma emit_inv ev w r w' : emit ev w = (r, w') -> r = Ok tt /\ w' = push_event ev w.
Proof. unfold emit. intros H; inversion H; auto. Qed.

Lemma Clock_get_ok_inv env w now w' :
  rumble.Clock_get env w = (Ok now, w') -> clock env = Some now /\ w' = w.
Proof.
  unfold rumble.Clock_get. destruct (clock env); cbn; intros H; inversion H; auto.
Qed.

Lemma Clock_get_err_inv env w f w' :
  rumble.Clock_get env w = (Err f, w') -> clock env = None /\ f = ProgramError /\ w' = w.
Proof.
  unfold rumble.Clock_get. destruct (clock env); cbn; intros H; inversion H; auto.
Qed.

Lemma mul_u64_ok_inv env a b w x w' :
  rumble.mul_u64 env a b w = (Ok x, w') ->
  w' = w /\ u64_result env (a * b) x.
Proof.
  unfold u64_result.
  unfold rumble.mul_u64. destruct (Z.leb_spec (a * b) U64_MAX) as [Hle|Hgt].
  - intros H; inversion H; auto.
  - destruct (overflow_checks env); intros H; inversion H; auto.
Qed.

Lemma mul_u64_err_inv env a b w f w' :
  rumble.mul_u64 env a b w = (Err f, w') ->
  w' = w /\ f = Panic /\ U64_MAX < a * b /\ overflow_checks env = true.
Proof.
  unfold rumble.mul_u64. destruct (Z.leb_spec (a * b) U64_MAX) as [Hle|Hgt].
  - intros H; inversion H.
  - destruct (overflow_checks env); intros H; inversion H; auto.
Qed.

Lemma add_u64_ok_inv env a b w x w' :
  rumble.add_u64 env a b w = (Ok x, w') ->
  w' = w /\ u64_result env (a + b) x.
Proof.
  unfold u64_result.
  unfold rumble.add_u64. destruct (Z.leb_spec (a + b) U64_MAX) as [Hle|Hgt].
  - intros H; inversion H; auto.
  - destruct (overflow_checks env); intros H; inversion H; auto.
Qed.

Lemma add_u64_err_inv env a b w f w' :
  rumble.add_u64 env a b w = (Err f, w') ->
  w' = w /\ f = Panic /\ U64_MAX < a + b /\ overflow_checks env = true.
Proof.
  unfold rumble.add_u64. destruct (Z.leb_spec (a + b) U64_MAX) as [Hle|Hgt].
  - intros H; inversion H.
  - destruct (overflow_checks env); intros H; inversion H; auto.
Qed.

Lemma burn_ok_inv env x w u w' :
  rumble.burn env x w = (Ok u, w') -> burn_ok env x = true /\ w' = push_burned x w.
Proof.
  unfold rumble.burn. destruct (burn_ok env x); cbn; intros H; inversion H; auto.
Qed.

Lemma burn_err_inv env x w f w' :
  rumble.burn env x w = (Err f, w') ->
  burn_ok env x = false /\ f = ProgramError /\ w' = w.
Proof.
  unfold rumble.burn. destruct (burn_ok env x); cbn; intros H; inversion H; auto.
Qed.

(** One step of an [Ok] run: split the leading bind and read off what the
    first primitive did. *)
Ltac ok_prim H :=
  first
    [ apply require_ok_inv in H; destruct H as [? ->]
    | apply ok_or_ok_inv in H; destruct H as [? ->]
    | apply get_gs_inv in H; destruct H as [[= ->] ->]
    | apply get_accounts_inv in H; destruct H as [[= ->] ->]
    | apply modify_gs_inv in H; destruct H as [_ ->]
    | apply put_accounts_inv in H; destruct H as [_ ->]
    | apply emit_inv in H; destruct H as [_ ->]
    | apply Clock_get_ok_inv in H; destruct H as [? ->]
    | apply burn_ok_inv in H; destruct H as [? ->]
    | apply mul_u64_ok_inv in H; destruct H as [-> ?]
    | apply add_u64_ok_inv in H; destruct H as [-> ?] ].

Ltac simpl_records :=
  cbn [game_state winner_accounts burned events
       set_game_state set_winner_accounts push_burned push_event
       GameState.total_deposits GameState.prize_pool GameState.active
       GameState.players GameState.winners GameState.game_id
       GameState.set_total_deposits GameState.set_prize_pool
       GameState.set_active GameState.set_players GameState.set_winners
       GameState.set_game_id
       Player.key Player.deposit Player.trading_score Player.last_active
       Player.set_deposit Player.set_trading_score Player.set_last_active
       AccountInfo.key AccountInfo.lamports AccountInfo.set_lamports
       fst snd] in *.

Ltac ok_step H :=
  let a := fresh "a" in
  let w1 := fresh "w" in
  let H1 := fresh "Hs" in
  apply bind_ok_inv in H; destruct H as (a & w1 & H1 & H);
  try ok_prim H1.

(** ** Sums over the players vector *)

Lemma sum_deposits_app ps qs :
  sum_deposits (ps ++ qs) = sum_deposits ps + sum_deposits qs.
Proof.
  induction ps as [|p ps IH]; cbn; [reflexivity | rewrite IH; lia].
Qed.

Lemma sum_deposits_update_deposit pred d ps existing :
  find pred ps = Some existing ->
  sum_deposits (update_first pred (Player.set_deposit d) ps)
  = sum_deposits ps - Player.deposit existing + d.
Proof.
  induction ps as [|p ps IH]; cbn; [discriminate | ].
  destruct (pred p); cbn.
  - intros [= ->]. lia.
  - intros H. rewrite (IH H). lia.
Qed.

Lemma sum_deposits_update_other pred f ps :
  (forall p, Player.deposit (f p) = Player.deposit p) ->
  sum_deposits (update_first pred f ps) = sum_deposits ps.
Proof.
  intros Hf. induction ps as [|p ps IH]; cbn; [reflexivity | ].
  destruct (pred p); cbn; [rewrite Hf | rewrite IH]; reflexivity.
Qed.

Lemma checked_add_Some a b c : checked_add a b = Some c -> c = a + b /\ a + b <= U64_MAX.
Proof.
  unfold checked_add. destruct (Z.leb_spec (a + b) U64_MAX); intros [= <-]; auto.
Qed.

Lemma checked_add_None a b : checked_add a b = None -> U64_MAX < a + b.
Proof.
  unfold checked_add. destruct (Z.leb_spec (a + b) U64_MAX); [discriminate | auto].
Qed.

(** ** What a completed [deposit] did *)

Lemma deposit_ok env player amount w w' :
  rumble.deposit env player amount w = (Ok tt, w') ->
  0 < amount /\
  GameState.total_deposits (game_state w')
    = GameState.total_deposits (game_state w) + amount /\
  sum_deposits (GameState.players (game_state w'))
    = sum_deposits (GameState.players (game_state w)) + amount /\
  GameState.active (game_state w') = GameState.active (game_state w) /\
  GameState.total_deposits (game_state w) + amount <= U64_MAX.
Proof.
  unfold rumble.deposit. intros H.
  ok_step H. ok_step H. ok_step H.
  ok_step H. ok_step H. ok_step H. ok_step H. ok_step H. ok_step H.
  apply ret_inv in H. destruct H as [_ ->].
  apply Z.ltb_lt in H0. apply checked_add_Some in H1 as [-> Hfit].
  cbn. split; [exact H0 | ].
  destruct (find _ _) as [existing|] eqn:Hfind.
  - ok_step Hs. ok_prim Hs. apply checked_add_Some in H as [-> _]. cbn.
    simpl_records.
    rewrite (sum_deposits_update_deposit _ _ _ _ Hfind). repeat split; lia.
  - ok_step Hs. ok_prim Hs. cbn. simpl_records.
    rewrite sum_deposits_app. cbn. repeat split; lia.
Qed.

Lemma for_each_pay_game_state env ppw xs w :
  game_state (snd (for_each (rumble.pay_winner env ppw) xs w)) = game_state w.
Proof.
  apply (preserves_for_each (on_game_state (fun g => g = game_state w))).
  - intros x. apply preserves_pay_winner.
  - reflexivity.
Qed.

Lemma pay_winner_frame env ppw x b ev :
  preserves (fun w1 => burned w1 = b /\ events w1 = ev)
    (rumble.pay_winner env ppw x).
Proof.
  unfold rumble.pay_winner. preserve_steps. intros w1 H; exact H.
Qed.

Lemma for_each_pay_frame env ppw xs w :
  let w' := snd (for_each (rumble.pay_winner env ppw) xs w) in
  game_state w' = game_state w /\ burned w' = burned w /\ events w' = events w.
Proof.
  cbn zeta. split; [apply for_each_pay_game_state | ].
  apply (preserves_for_each
           (fun w1 => burned w1 = burned w /\ events w1 = events w)); [ | auto].
  intros x. apply pay_winner_frame.
Qed.

(** ** What a completed [select_winners] did *)

Lemma select_winners_ok env w w' :
  rumble.select_winners env w = (Ok tt, w') ->
  let g := game_state w in
  let winners := rumble.ranked_winners (GameState.players g) in
  let num_winners := rumble.num_winners_of (Z.of_nat (length (GameState.players g))) in
  exists p90 p10 now paid,
    0 < GameState.total_deposits g /\
    GameState.active g = false /\
    u64_result env (GameState.prize_pool g * 90) p90 /\
    u64_result env (GameState.prize_pool g * 10) p10 /\
    num_winners <> 0 /\
    burn_ok env (p10 / 100) = true /\
    clock env = Some now /\
    for_each (rumble.pay_winner env (p90 / 100 / num_winners)) winners
      (set_game_state (GameState.set_winners winners g) w) = (Ok tt, paid) /\
    game_state w' =
      GameState.mk 0 0 true (GameState.players g) winners (GameState.game_id g) /\
    winner_accounts w' = winner_accounts paid /\
    burned w' = burned w ++ [p10 / 100] /\
    events w' = events w ++
      [WinnersSelectedEvent (GameState.game_id g) (map Player.key winners)
         (p90 / 100 / num_winners) (p10 / 100) now].
Proof.
  unfold rumble.select_winners. intros H.
  do 15 ok_step H. apply ret_inv in H as [_ ->].
  simpl_records.
  match goal with
  | Hd : checked_div _ ?n = Some _ |- _ =>
      unfold checked_div in Hd;
      destruct (Z.eqb_spec n 0) as [|Hnz];
      [discriminate | injection Hd as <-]
  end.
  match goal with
  | Hl : for_each (rumble.pay_winner env ?ppw) ?xs ?w0 = (Ok ?u, ?w1) |- _ =>
      destruct u;
      pose proof (for_each_pay_frame env ppw xs w0) as Hfr;
      cbn zeta in Hfr; rewrite Hl in Hfr; simpl_records;
      destruct Hfr as (Hg & Hb & He)
  end.
  do 4 eexists. repeat split; try eassumption.
  - apply Z.ltb_lt; assumption.
  - apply negb_true_iff; assumption.
  - rewrite Hg. reflexivity.
  - rewrite Hb. reflexivity.
  - rewrite He. reflexivity.
Qed.

(** ** Pool conservation *)

Lemma evaluate_one_ledger env entry total sum act :
  preserves (on_game_state (ledger_is total sum act)) (rumble.evaluate_one env entry).
Proof.
  unfold rumble.evaluate_one. destruct entry as [player_key score].
  apply preserves_bind; [auto with preserve | intros gs].
  destruct (find _ _); preserve_steps;
    apply preserves_modify_gs; intros g (Ht & Hs & Ha); repeat split; auto;
    cbn; rewrite sum_deposits_update_other; auto.
Qed.

Lemma evaluate_ledger env scores total sum act :
  preserves (on_game_state (ledger_is total sum act))
    (rumble.evaluate_trading_activity env scores).
Proof.
  unfold rumble.evaluate_trading_activity.
  apply preserves_bind.
  - apply preserves_for_each. intros x. apply evaluate_one_ledger.
  - intros _. preserve_steps.
Qed.

Lemma reset_game_ok env w w' :
  rumble.reset_game env w = (Ok tt, w') ->
  GameState.active (game_state w) = true /\
  game_state w' = GameState.mk 0 0 false [] [] (GameState.game_id (game_state w)).
Proof.
  unfold rumble.reset_game. intros H.
  do 10 ok_step H. apply ret_inv in H as [_ ->].
  simpl_records. split; [assumption | reflexivity].
Qed.

Lemma exec_ok_ledger_exact env i w w' :
  ledger_exact (game_state w) ->
  exec env i w = (Ok tt, w') ->
  ledger_exact (game_state w').
Proof.
  intros Hinv Hrun. destruct i as [a|p amt|scores| |]; cbn [exec] in Hrun.
  - inversion Hrun; subst. intros _. reflexivity.
  - apply deposit_ok in Hrun as (_ & Ht & Hs & Ha & _).
    intros Hact. rewrite Ha in Hact. rewrite Ht, Hs, (Hinv Hact). reflexivity.
  - pose proof (evaluate_ledger env scores _ _ _ w
                  (conj eq_refl (conj eq_refl eq_refl))) as (Ht & Hs & Ha).
    rewrite Hrun in *. cbn [snd] in *.
    intros Hact. rewrite Ha in Hact. rewrite Ht, Hs. apply Hinv, Hact.
  - apply select_winners_ok in Hrun as (? & ? & ? & ? & H); cbn zeta in H.
    destruct H as (_ & _ & _ & _ & _ & _ & _ & _ & Hg & _).
    rewrite Hg. intros Hact; discriminate Hact.
  - apply reset_game_ok in Hrun as [_ Hg]. rewrite Hg. intros _. reflexivity.
Qed.

(** C2 (amended). In every state produced by completed instructions, while
    the round has not been settled ([active == false]) [total_deposits] is
    exactly the sum of the players' [deposit] fields; a completed
    [select_winners] zeroes [total_deposits] and keeps the players vector,
    deposits included, until [reset_game]. *)
Theorem total_deposits_is_sum_until_settled :
  (forall g, completed g -> GameState.active g = false ->
     GameState.total_deposits g = sum_deposits (GameState.players g)) /\
  (forall env w w', rumble.select_winners env w = (Ok tt, w') ->
     GameState.total_deposits (game_state w') = 0 /\
     GameState.active (game_state w') = true /\
     GameState.players (game_state w') = GameState.players (game_state w)).
Proof.
  split.
  - induction 1 as [a w w' Hinit | env i w w' _ IH Hrun].
    + inversion Hinit; subst. intros _. reflexivity.
    + exact (exec_ok_ledger_exact env i w w' IH Hrun).
  - intros env w w' Hrun.
    apply select_winners_ok in Hrun as (? & ? & ? & ? & H); cbn zeta in H.
    destruct H as (_ & _ & _ & _ & _ & _ & _ & _ & Hg & _).
    rewrite Hg. auto.
Qed.

(** ** A failed settlement *)

Ltac err_prim H :=
  first
    [ apply require_err_inv in H; destruct H as (? & ? & ?)
    | apply ok_or_err_inv in H; destruct H as (? & ? & ?)
    | apply Clock_get_err_inv in H; destruct H as (? & ? & ?)
    | apply burn_err_inv in H; destruct H as (? & ? & ?)
    | apply mul_u64_err_inv in H; destruct H as (? & ? & ? & ?)
    | apply add_u64_err_inv in H; destruct H as (? & ? & ? & ?)
    | apply get_gs_inv in H; destruct H as [[=] _]
    | apply get_accounts_inv in H; destruct H as [[=] _]
    | apply modify_gs_inv in H; destruct H as [[=] _]
    | apply put_accounts_inv in H; destruct H as [[=] _]
    | apply emit_inv in H; destruct H as [[=] _]
    | apply ret_inv in H; destruct H as [[=] _] ];
  try discriminate; subst.

(** One step of a failing run: either the first primitive failed, which
    leaves a goal, or it succeeded and the run goes on. *)
Ltac err_step H :=
  let a := fresh "a" in
  let w1 := fresh "w" in
  let H1 := fresh "Hs" in
  apply bind_err_inv in H;
  destruct H as [H | (a & w1 & H1 & H)];
  [ try err_prim H | try ok_prim H1 ].

Lemma process_instruction_err env i w e w0 :
  exec env i w = (Err e, w0) -> process_instruction env i w = (Err e, w).
Proof. unfold process_instruction. intros ->. reflexivity. Qed.


Lemma process_instruction_ok env i w w' :
  process_instruction env i w = (Ok tt, w') <-> exec env i w = (Ok tt, w').
Proof.
  unfold process_instruction.
  destruct (exec env i w) as [[[]|e0] w0]; split; intros H; try discriminate; exact H.
Qed.

(** The states of a round are closed under instructions: one that fails
    changes nothing, one that completes is a completed step. *)
Lemma process_instruction_completed env i w :
  completed (game_state w) ->
  completed (game_state (snd (process_instruction env i w))).
Proof.
  intros Hc. unfold process_instruction.
  destruct (exec env i w) as [[[]|e] w'] eqn:Hrun; cbn [snd]; [ | exact Hc].
  exact (completed_step env i w w' Hc Hrun).
Qed.

Lemma save_winners_resolved io i prize gameId top acc db ws db' :
  GameService.save_winners io i prize gameId top acc db = (GameService.Resolved ws, db') ->
  let rows := map (fun p => WinnerRow.mk (PlayerRow.key p) prize gameId) top in
  ws = acc ++ rows /\
  db' = GameService.Build_Db (GameService.games db) (GameService.players db)
          (GameService.winners db ++ rows) (GameService.burnt db) (GameService.emitted db).
Proof.
  cbn zeta. revert i acc db.
  induction top as [|p top IH]; intros i acc db; cbn [GameService.save_winners map].
  - intros [= <- <-]. rewrite !app_nil_r. destruct db; auto.
  - destruct (GameService.winner_save_ok io i); [ | discriminate].
    intros H. apply IH in H as [-> ->]. cbn. rewrite <- !app_assoc. auto.
Qed.

Lemma save_winners_rejected io i prize gameId top acc db r db' :
  GameService.save_winners io i prize gameId top acc db = (GameService.Rejected r, db') ->
  r = GameService.RepositoryError /\
  exists n,
    (n < length top)%nat /\
    GameService.winner_save_ok io (i + n)%nat = false /\
    db' = GameService.Build_Db (GameService.games db) (GameService.players db)
            (GameService.winners db
               ++ map (fun p => WinnerRow.mk (PlayerRow.key p) prize gameId) (take n top))
            (GameService.burnt db) (GameService.emitted db).
Proof.
  revert i acc db.
  induction top as [|p top IH]; intros i acc db; cbn [GameService.save_winners];
    [discriminate | ].
  destruct (GameService.winner_save_ok io i) eqn:Hi.
  - intros H. apply IH in H as (-> & n & Hn & Hfail & ->).
    split; [reflexivity | ]. exists (S n).
    split; [cbn; lia | ]. split; [rewrite <- Hfail; f_equal; lia | ].
    cbn. rewrite <- app_assoc. reflexivity.
  - intros [= <- <-]. split; [reflexivity | ]. exists 0%nat.
    split; [cbn; lia | ]. split; [rewrite Nat.add_0_r; exact Hi | ].
    cbn. rewrite app_nil_r. destruct db; reflexivity.
Qed.



(** ** Ranking *)

Section Sorting.
Context {A : Type} (cmp : A -> A -> comparison).

Lemma insert_by_Permutation x l : insert_by cmp x l ≡ₚ x :: l.
Proof.
  induction l as [|y l IH]; cbn; [reflexivity | ].
  destruct (cmp x y); try reflexivity.
  rewrite IH. apply Permutation_swap.
Qed.

Lemma sort_by_Permutation l : sort_by cmp l ≡ₚ l.
Proof.
  induction l as [|x l IH]; cbn; [reflexivity | ].
  rewrite insert_by_Permutation, IH. reflexivity.
Qed.

Lemma sort_by_length l : length (sort_by cmp l) = length l.
Proof. apply Permutation_length, sort_by_Permutation. Qed.

(** Stability: an element passes only elements of another class, so the
    members of any class closed under [cmp _ _ = Eq] keep their order. *)
Lemma insert_by_filter (P : A -> Prop) `{!forall a, Decision (P a)} x l :
  (forall y, cmp x y = Gt -> P x -> ~ P y) ->
  filter P (insert_by cmp x l) = filter P (x :: l).
Proof.
  intros Hsep. induction l as [|y l IH]; cbn [insert_by]; [reflexivity | ].
  destruct (cmp x y) eqn:Hc; try reflexivity.
  rewrite filter_cons, IH.
  destruct (decide (P x)) as [Hx|Hx].
  - rewrite (filter_cons_True P x) by exact Hx.
    rewrite decide_False by (apply Hsep; assumption).
    rewrite (filter_cons_True P x) by exact Hx.
    rewrite (filter_cons_False P y) by (apply Hsep; assumption).
    reflexivity.
  - rewrite !(filter_cons_False P x) by exact Hx.
    rewrite filter_cons. reflexivity.
Qed.

Lemma sort_by_filter (P : A -> Prop) `{!forall a, Decision (P a)} l :
  (forall x y, cmp x y = Gt -> P x -> ~ P y) ->
  filter P (sort_by cmp l) = filter P l.
Proof.
  intros Hsep. induction l as [|x l IH]; cbn [sort_by foldr]; [reflexivity | ].
  change (foldr (insert_by cmp) [] l) with (sort_by cmp l).
  rewrite insert_by_filter by (apply Hsep).
  rewrite !filter_cons, IH. reflexivity.
Qed.
End Sorting.

Lemma by_score_desc_Gt a b :
  rumble.by_score_desc a b = Gt <-> Player.trading_score a < Player.trading_score b.
Proof. unfold rumble.by_score_desc. rewrite Z.compare_gt_iff. reflexivity. Qed.

Lemma insert_by_score_sorted x l :
  StronglySorted outranks l ->
  StronglySorted outranks (insert_by rumble.by_score_desc x l).
Proof.
  induction 1 as [|y l Hl IH Hy]; cbn [insert_by].
  - repeat constructor.
  - assert (Hins : outranks x y -> Forall (outranks x) (y :: l)).
    { intros Hxy. constructor; [exact Hxy | ].
      eapply Forall_impl; [exact Hy | ].
      unfold outranks in *. intros z Hz. lia. }
    destruct (rumble.by_score_desc x y) eqn:Hc.
    + constructor; [constructor; assumption | apply Hins].
      unfold rumble.by_score_desc in Hc. apply Z.compare_eq in Hc.
      unfold outranks. lia.
    + constructor; [constructor; assumption | apply Hins].
      unfold rumble.by_score_desc in Hc. rewrite Z.compare_lt_iff in Hc.
      unfold outranks. lia.
    + apply by_score_desc_Gt in Hc.
      constructor; [exact IH | ].
      rewrite insert_by_Permutation.
      constructor; [unfold outranks; lia | exact Hy].
Qed.

Lemma sort_by_score_sorted l :
  StronglySorted outranks (sort_by rumble.by_score_desc l).
Proof.
  induction l as [|x l IH]; cbn; [constructor | ].
  apply insert_by_score_sorted, IH.
Qed.

Lemma sort_by_score_stable l (v : Z) :
  filter (fun p => Player.trading_score p = v) (sort_by rumble.by_score_desc l)
  = filter (fun p => Player.trading_score p = v) l.
Proof.
  apply sort_by_filter. intros x y Hc Hx Hy.
  apply by_score_desc_Gt in Hc. lia.
Qed.

(** ** The ranking key *)

(** C4 (amended). The winners are ranked by [trading_score] alone: the
    ranked vector is a rearrangement of the players in non-increasing
    [trading_score] order, the winners are its first [num_winners] entries,
    and so no player left out has a higher [trading_score] than a winner. *)
Theorem ranking_is_by_trading_score (players : list Player.t) :
  let ranked := sort_by rumble.by_score_desc players in
  let k := Z.to_nat (rumble.num_winners_of (Z.of_nat (length players))) in
  ranked ≡ₚ players /\
  StronglySorted outranks ranked /\
  rumble.ranked_winners players = take k ranked /\
  (forall w r, w ∈ rumble.ranked_winners players -> r ∈ drop k ranked ->
     Player.trading_score r <= Player.trading_score w).
Proof.
  cbn zeta. split; [apply sort_by_Permutation | ].
  split; [apply sort_by_score_sorted | ].
  split; [reflexivity | ].
  intros w r Hw Hr. unfold rumble.ranked_winners in Hw.
  pose proof (sort_by_score_sorted players) as Hs.
  rewrite <- (take_drop (Z.to_nat (rumble.num_winners_of (Z.of_nat (length players))))
                (sort_by rumble.by_score_desc players)) in Hs.
  exact (StronglySorted_app_1_elem_of _ _ _ _ _ Hs Hw Hr).
Qed.

Lemma ranking_is_by_trading_score_witness :
  let a := Player.mk 1 100 0 0 in
  let b := Player.mk 2 100 1000000 0 in
  b ∈ rumble.ranked_winners [a; b] /\
  a ∈ drop 1 (sort_by rumble.by_score_desc [a; b]) /\
  Player.trading_score a <= Player.trading_score b.
Proof.
  cbn zeta.
  assert (Hb : Player.mk 2 100 1000000 0
               ∈ rumble.ranked_winners [Player.mk 1 100 0 0; Player.mk 2 100 1000000 0]).
  { vm_compute. apply list_elem_of_here. }
  assert (Ha : Player.mk 1 100 0 0
               ∈ drop 1 (sort_by rumble.by_score_desc
                           [Player.mk 1 100 0 0; Player.mk 2 100 1000000 0])).
  { vm_compute. apply list_elem_of_here. }
  split; [exact Hb | split; [exact Ha | ]].
  exact (proj2 (proj2 (proj2 (ranking_is_by_trading_score
           [Player.mk 1 100 0 0; Player.mk 2 100 1000000 0]))) _ _ Hb Ha).
Defined.

(** C4 as stated fails: [a] holds the most tokens and scores the holdings
    ceiling, [b] has the best trading score, all else equal; the composite
    score puts [a] first, the program selects [b]. *)
Lemma ranking_ignores_holdings :
  let a := Player.mk 1 100 0 0 in
  let b := Player.mk 2 100 1000000 0 in
  spec_composite_score 1000000 (Player.trading_score a) 0 0
    > spec_composite_score 0 (Player.trading_score b) 0 0 /\
  rumble.ranked_winners [a; b] = [b] /\
  rumble.select_winners env_ok
      (open_round [a; b] [AccountInfo.mk 1 0; AccountInfo.mk 2 0])
    = (Ok tt,
       {| game_state := GameState.mk 0 0 true [a; b] [b] 7;
          winner_accounts := [AccountInfo.mk 1 0; AccountInfo.mk 2 180];
          burned := [20];
          events := [WinnersSelectedEvent 7 [2] 180 20 1700000000] |}).
Proof. vm_compute. repeat split; reflexivity. Qed.

(** Two rankings by score that agree on every class of equal scores, in
    content and in order, are the same list. *)
Lemma sorted_by_score_unique (l1 l2 : list Player.t) :
  StronglySorted outranks l1 ->
  StronglySorted outranks l2 ->
  (forall v, filter (fun p => Player.trading_score p = v) l1
             = filter (fun p => Player.trading_score p = v) l2) ->
  l1 = l2.
Proof.
  intros H1. revert l2. induction H1 as [|x l1 Hs1 IH Hx]; intros l2 H2 Hcls.
  - destruct l2 as [|y l2]; [reflexivity | ].
    specialize (Hcls (Player.trading_score y)).
    rewrite filter_nil, filter_cons_True in Hcls by reflexivity. discriminate.
  - destruct l2 as [|y l2].
    { specialize (Hcls (Player.trading_score x)).
      rewrite filter_nil, filter_cons_True in Hcls by reflexivity. discriminate. }
    apply StronglySorted_inv in H2 as [Hs2 Hy].
    assert (Hxy : Player.trading_score x <= Player.trading_score y).
    { pose proof (Hcls (Player.trading_score x)) as Hc.
      rewrite (filter_cons_True _ x) in Hc by reflexivity.
      assert (Hin : x ∈ filter (fun p => Player.trading_score p = Player.trading_score x)
                        (y :: l2)).
      { rewrite <- Hc. apply list_elem_of_here. }
      apply list_elem_of_filter in Hin as [_ Hin].
      apply elem_of_cons in Hin as [-> | Hin]; [lia | ].
      rewrite Forall_forall in Hy. exact (Hy _ Hin). }
    assert (Hyx : Player.trading_score y <= Player.trading_score x).
    { pose proof (Hcls (Player.trading_score y)) as Hc.
      rewrite (filter_cons_True _ y) in Hc by reflexivity.
      assert (Hin : y ∈ filter (fun p => Player.trading_score p = Player.trading_score y)
                        (x :: l1)).
      { rewrite Hc. apply list_elem_of_here. }
      apply list_elem_of_filter in Hin as [_ Hin].
      apply elem_of_cons in Hin as [-> | Hin]; [lia | ].
      rewrite Forall_forall in Hx. exact (Hx _ Hin). }
    assert (Heq : x = y).
    { pose proof (Hcls (Player.trading_score x)) as Hc.
      rewrite (filter_cons_True _ x), (filter_cons_True _ y) in Hc by lia.
      congruence. }
    subst y. f_equal. apply IH; [exact Hs2 | ].
    intros v. specialize (Hcls v). rewrite !filter_cons in Hcls.
    destruct (decide (Player.trading_score x = v)); congruence.
Qed.

(** C5 (amended). [select_winners] ranks with a stable sort descending by
    [trading_score]: the ranked vector is a rearrangement of the players
    with no score below a later one, and players with equal scores stay in
    the order of the players vector (the order of their first deposits),
    whatever their keys.  It is the only list with these properties.  The
    winners a completed [select_winners] records are its first
    [num_winners] entries, so they are a function of the players vector
    alone: two runs over the same vector record the same winners in the
    same order. *)
Theorem ranking_is_stable_and_deterministic :
  (forall players,
     let ranked := sort_by rumble.by_score_desc players in
     ranked ≡ₚ players /\
     StronglySorted outranks ranked /\
     (forall v,
        filter (fun p => Player.trading_score p = v) ranked
        = filter (fun p => Player.trading_score p = v) players) /\
     (forall other,
        StronglySorted outranks other ->
        (forall v,
           filter (fun p => Player.trading_score p = v) other
           = filter (fun p => Player.trading_score p = v) players) ->
        other = ranked)) /\
  (forall env w w',
     rumble.select_winners env w = (Ok tt, w') ->
     let players := GameState.players (game_state w) in
     GameState.winners (game_state w')
     = take (Z.to_nat (rumble.num_winners_of (Z.of_nat (length players))))
         (sort_by rumble.by_score_desc players)) /\
  (forall env1 env2 w1 w2 w1' w2',
     rumble.select_winners env1 w1 = (Ok tt, w1') ->
     rumble.select_winners env2 w2 = (Ok tt, w2') ->
     GameState.players (game_state w1) = GameState.players (game_state w2) ->
     GameState.winners (game_state w1') = GameState.winners (game_state w2')).
Proof.
  split; [ | split].
  - intros players. cbn zeta.
    split; [apply sort_by_Permutation | ].
    split; [apply sort_by_score_sorted | ].
    split; [intros v; apply sort_by_score_stable | ].
    intros other Hsorted Hcls.
    apply sorted_by_score_unique; [exact Hsorted | apply sort_by_score_sorted | ].
    intros v. rewrite sort_by_score_stable. apply Hcls.
  - intros env w w' H1. cbn zeta.
    apply select_winners_ok in H1 as (? & ? & ? & ? & H1); cbn zeta in H1.
    destruct H1 as (_ & _ & _ & _ & _ & _ & _ & _ & Hg1 & _).
    rewrite Hg1. reflexivity.
  - intros env1 env2 w1 w2 w1' w2' H1 H2 Hp.
    apply select_winners_ok in H1 as (? & ? & ? & ? & H1); cbn zeta in H1.
    apply select_winners_ok in H2 as (? & ? & ? & ? & H2); cbn zeta in H2.
    destruct H1 as (_ & _ & _ & _ & _ & _ & _ & _ & Hg1 & _).
    destruct H2 as (_ & _ & _ & _ & _ & _ & _ & _ & Hg2 & _).
    rewrite Hg1, Hg2, Hp. reflexivity.
Qed.

Lemma ranking_is_stable_and_deterministic_witness :
  let p2 := Player.mk 2 100 5 0 in
  let p1 := Player.mk 1 100 5 0 in
  let w := open_round [p2; p1] [AccountInfo.mk 1 0; AccountInfo.mk 2 0] in
  let env' := {| overflow_checks := false; clock := Some 5; burn_ok := fun _ => true |} in
  GameState.winners (game_state (snd (rumble.select_winners env_ok w)))
  = GameState.winners (game_state (snd (rumble.select_winners env' w))).
Proof.
  cbn zeta.
  apply (proj2 (proj2 ranking_is_stable_and_deterministic) env_ok
           {| overflow_checks := false; clock := Some 5; burn_ok := fun _ => true |}
           (open_round [Player.mk 2 100 5 0; Player.mk 1 100 5 0]
              [AccountInfo.mk 1 0; AccountInfo.mk 2 0])
           (open_round [Player.mk 2 100 5 0; Player.mk 1 100 5 0]
              [AccountInfo.mk 1 0; AccountInfo.mk 2 0])).
  - vm_compute. reflexivity.
  - vm_compute. reflexivity.
  - reflexivity.
Defined.

(** C5 as stated fails: two players tie on the score; the one with the
    larger key deposited first and is the one selected. *)
Lemma tie_is_not_broken_by_identity :
  let p2 := Player.mk 2 100 5 0 in
  let p1 := Player.mk 1 100 5 0 in
  Player.trading_score p1 = Player.trading_score p2 /\
  Player.key p1 < Player.key p2 /\
  rumble.ranked_winners [p2; p1] = [p2] /\
  GameState.winners (game_state (snd (rumble.select_winners env_ok
     (open_round [p2; p1] [AccountInfo.mk 1 0; AccountInfo.mk 2 0])))) = [p2].
Proof. vm_compute. repeat split; reflexivity. Qed.

(** ** Examples for the ledger properties *)



Lemma one_deposit_completed : completed (game_state one_deposit).
Proof.
  apply (completed_step env_ok (Deposit 1 5)
           (snd (rumble.initialize 7 (fresh_world [AccountInfo.mk 1 0])))).
  - apply (completed_init 7 (fresh_world [AccountInfo.mk 1 0])). reflexivity.
  - vm_compute. reflexivity.
Defined.

Lemma one_deposit_settled_completed : completed (game_state one_deposit_settled).
Proof.
  apply (completed_step env_ok SelectWinners one_deposit).
  - exact one_deposit_completed.
  - vm_compute. reflexivity.
Defined.

(** C2 as stated fails: after a completed [select_winners] the pool is 0
    and the one player still has the deposit of 5 on record. *)
Lemma pool_is_zero_with_deposits_on_record :
  completed (game_state one_deposit_settled) /\
  GameState.total_deposits (game_state one_deposit_settled) = 0 /\
  sum_deposits (GameState.players (game_state one_deposit_settled)) = 5.
Proof.
  split; [exact one_deposit_settled_completed | ].
  vm_compute. split; reflexivity.
Qed.

Lemma total_deposits_is_sum_until_settled_witness :
  GameState.total_deposits (game_state one_deposit)
  = sum_deposits (GameState.players (game_state one_deposit)).
Proof.
  apply (proj1 total_deposits_is_sum_until_settled).
  - exact one_deposit_completed.
  - vm_compute. reflexivity.
Defined.

Lemma prize_pool_equals_total_deposits_witness :
  let w1 := snd (rumble.initialize 7 (fresh_world [])) in
  let w2 := snd (exec env_ok (Deposit 1 5) w1) in
  let w3 := snd (exec env_ok SelectWinners w2) in
  fst (exec env_ok SelectWinners w2) = Err (Rumble WinnerAccountNotFound) /\
  GameState.prize_pool (game_state w3) = GameState.total_deposits (game_state w3).
Proof.
  cbn zeta. split; [vm_compute; reflexivity | ].
  apply (proj2 (proj2 prize_pool_equals_total_deposits)).
  apply reachable_step, reachable_step, reachable_init.
Defined.

(** ** The winner count in binary64 *)

Module F64Facts.
Import F64.

Lemma digits2_pos_log2 p : Z.pos (digits2_pos p) = Z.log2 (Z.pos p) + 1.
Proof.
  assert (Hsize : forall q, digits2_pos q = Pos.size q).
  { induction q as [q IH|q IH| ]; cbn; rewrite ?IH; reflexivity. }
  rewrite Hsize. destruct p; cbn; lia.
Qed.

Lemma pos_iter_xO p k : Z.pos (Pos.iter xO p k) = Z.pos p * 2 ^ Z.pos k.
Proof.
  induction k as [|k IH] using Pos.peano_ind.
  - cbn. lia.
  - rewrite Pos.iter_succ, Pos2Z.inj_succ, Z.pow_succ_r by lia.
    rewrite Pos2Z.inj_xO, IH. lia.
Qed.

Lemma iter_pos_eq {A} (f : A -> A) k x : SpecFloat.iter_pos f k x = Pos.iter f x k.
Proof.
  revert x. induction k as [k IH|k IH| ]; intros x; cbn.
  - rewrite !IH, !Pos.iter_swap. reflexivity.
  - rewrite !IH. reflexivity.
  - reflexivity.
Qed.

Lemma shr_1_nonneg m r s :
  0 <= m -> shr_1 (Build_shr_record m r s) = Build_shr_record (m / 2) (Z.odd m) (r || s).
Proof.
  intros Hm. destruct m as [|p|p]; [reflexivity | | lia].
  destruct p as [p|p| ]; cbn [shr_1].
  - rewrite Pos2Z.inj_xI. f_equal.
    apply (Z.div_unique _ _ _ 1); lia.
  - rewrite Pos2Z.inj_xO. f_equal.
    apply (Z.div_unique _ _ _ 0); lia.
  - reflexivity.
Qed.

(** Shifting right by [k] places keeps the quotient, and records in the
    round bit and the sticky bit where the remainder lies with respect to
    one half. *)
Lemma shr_iter m k :
  0 <= m ->
  Pos.iter shr_1 (Build_shr_record m false false) k
  = Build_shr_record (m / 2 ^ Z.pos k)
      (Z.odd (m / 2 ^ (Z.pos k - 1)))
      (negb (m mod 2 ^ (Z.pos k - 1) =? 0)).
Proof.
  intros Hm. induction k as [|k IH] using Pos.peano_ind.
  - cbn [Pos.iter]. rewrite shr_1_nonneg by exact Hm.
    change (2 ^ (1 - 1)) with 1. rewrite Z.div_1_r, Z.mod_1_r. reflexivity.
  - rewrite Pos.iter_succ, IH.
    assert (H2k : 0 < 2 ^ Z.pos k) by (apply Z.pow_pos_nonneg; lia).
    assert (H2k1 : 0 < 2 ^ (Z.pos k - 1)) by (apply Z.pow_pos_nonneg; lia).
    rewrite shr_1_nonneg by (apply Z.div_pos; lia).
    rewrite Pos2Z.inj_succ.
    replace (Z.succ (Z.pos k) - 1) with (Z.pos k) by lia.
    rewrite Z.pow_succ_r by lia.
    f_equal.
    + rewrite Z.div_div by lia. f_equal. lia.
    + assert (Hk : 2 ^ Z.pos k = 2 ^ (Z.pos k - 1) * 2).
      { rewrite Z.mul_comm, <- Z.pow_succ_r by lia. f_equal. lia. }
      rewrite Hk, Z.rem_mul_r by lia.
      rewrite Zodd_mod.
      pose proof (Z.mod_pos_bound m (2 ^ (Z.pos k - 1)) ltac:(lia)) as Ha.
      pose proof (Z.mod_pos_bound (m / 2 ^ (Z.pos k - 1)) 2 ltac:(lia)) as Hb.
      set (a := m mod 2 ^ (Z.pos k - 1)) in *.
      set (b := (m / 2 ^ (Z.pos k - 1)) mod 2) in *.
      set (h := 2 ^ (Z.pos k - 1)) in *.
      assert (Hb01 : b = 0 \/ b = 1) by lia.
      destruct Hb01 as [-> | ->]; cbn [Z.eqb orb].
      * rewrite Z.mul_0_r, Z.add_0_r. reflexivity.
      * rewrite Z.mul_1_r. symmetry. apply negb_true_iff, Z.eqb_neq. lia.
Qed.

Lemma fexp_eq e : -1021 <= e -> fexp prec emax e = e - 53.
Proof. intros He. unfold fexp, emin, prec, emax. lia. Qed.

Lemma Zdigits2_log2 m : 0 < m -> Zdigits2 m = Z.log2 m + 1.
Proof. destruct m as [|p|p]; try lia. intros _. apply digits2_pos_log2. Qed.

Lemma shr_fexp_shift m e k :
  0 < m -> -1021 <= Z.log2 m + 1 + e -> Z.log2 m + 1 - 53 = Z.pos k ->
  shr_fexp prec emax m e loc_Exact
  = (Build_shr_record (m / 2 ^ Z.pos k)
       (Z.odd (m / 2 ^ (Z.pos k - 1)))
       (negb (m mod 2 ^ (Z.pos k - 1) =? 0)),
     e + Z.pos k).
Proof.
  intros Hm He Hk. unfold shr_fexp.
  rewrite Zdigits2_log2, fexp_eq by lia.
  replace (Z.log2 m + 1 + e - 53 - e) with (Z.pos k) by lia.
  cbn [shr shr_record_of_loc]. rewrite iter_pos_eq, shr_iter by lia. reflexivity.
Qed.

Lemma shr_fexp_keep m e :
  0 < m -> -1021 <= Z.log2 m + 1 + e -> Z.log2 m = 52 ->
  shr_fexp prec emax m e loc_Exact = (Build_shr_record m false false, e).
Proof.
  intros Hm He Hk. unfold shr_fexp.
  rewrite Zdigits2_log2, fexp_eq by lia.
  replace (Z.log2 m + 1 + e - 53 - e) with 0 by lia. reflexivity.
Qed.

(** A mantissa of exactly 53 bits is left alone. *)
Lemma binary_round_aux_keep s m e :
  Z.log2 (Z.pos m) = 52 -> -1074 <= e <= 971 ->
  binary_round_aux prec emax s (Z.pos m) e loc_Exact = S754_finite s m e.
Proof.
  intros Hm He. unfold binary_round_aux.
  rewrite shr_fexp_keep by lia.
  cbn [shr_m loc_of_shr_record round_nearest_even].
  rewrite shr_fexp_keep by lia. cbn [shr_m].
  replace (e <=? emax - prec) with true by (symmetry; apply Z.leb_le; unfold emax, prec; lia).
  reflexivity.
Qed.

Lemma log2_is b m : 0 <= b -> 2 ^ b <= m < 2 ^ (b + 1) -> Z.log2 m = b.
Proof. intros Hb Hm. apply Z.log2_unique; [exact Hb | ]. rewrite <- Z.add_1_r. exact Hm. Qed.

Lemma of_usize_finite n :
  0 < n < 2 ^ 53 ->
  of_usize n = S754_finite false (Z.to_pos (n * 2 ^ (52 - Z.log2 n))) (Z.log2 n - 52).
Proof.
  intros Hn. destruct n as [|p|p]; try lia.
  assert (Hlog : 0 <= Z.log2 (Z.pos p) <= 52).
  { split; [apply Z.log2_nonneg | ].
    assert (Z.log2 (Z.pos p) < 53) by (apply Z.log2_lt_pow2; lia). lia. }
  unfold of_usize, binary_normalize, binary_round.
  rewrite digits2_pos_log2, fexp_eq by lia.
  unfold shl_align.
  destruct (Z.log2 (Z.pos p) + 1 + 0 - 53 - 0) as [|q|q] eqn:Hd; try lia.
  - assert (Hl : Z.log2 (Z.pos p) = 52) by lia.
    rewrite Hl. change (2 ^ (52 - 52)) with 1. rewrite Z.mul_1_r. cbn [Z.to_pos].
    apply binary_round_aux_keep; [exact Hl | lia].
  - assert (Hq : Z.pos q = 52 - Z.log2 (Z.pos p)) by lia.
    rewrite <- Hq. rewrite <- pos_iter_xO. cbn [Z.to_pos].
    replace (Z.log2 (Z.pos p) - 52) with (Z.log2 (Z.pos p) + 1 + 0 - 53) by lia.
    apply binary_round_aux_keep; [ | lia].
    rewrite pos_iter_xO, Z.log2_mul_pow2 by lia. lia.
Qed.

Lemma round_nearest_even_bounds m l : m <= round_nearest_even m l <= m + 1.
Proof.
  destruct l as [|[ | | ]]; cbn [round_nearest_even]; try lia.
  destruct (Z.even m); lia.
Qed.

Lemma round_nearest_even_down m sb :
  round_nearest_even m (loc_of_shr_record (Build_shr_record m false sb)) = m.
Proof. destruct sb; reflexivity. Qed.

Lemma round_nearest_even_up m :
  round_nearest_even m (loc_of_shr_record (Build_shr_record m true true)) = m + 1.
Proof. reflexivity. Qed.

Lemma rounded_bounds P k : P / 2 ^ Z.pos k <= rounded P k <= P / 2 ^ Z.pos k + 1.
Proof. apply round_nearest_even_bounds. Qed.

Lemma half_split P k :
  0 <= P ->
  let h := 2 ^ (Z.pos k - 1) in
  2 ^ Z.pos k = 2 * h /\ 0 < h /\
  P mod 2 ^ Z.pos k = h * ((P / h) mod 2) + P mod h.
Proof.
  intros HP h.
  assert (Hh : 0 < h) by (apply Z.pow_pos_nonneg; lia).
  assert (Hk : 2 ^ Z.pos k = 2 * h).
  { unfold h. rewrite <- Z.pow_succ_r by lia. f_equal. lia. }
  repeat split; [exact Hk | exact Hh | ].
  rewrite Hk, (Z.mul_comm 2 h), Z.rem_mul_r by lia. lia.
Qed.

Lemma rounded_down P k :
  0 <= P -> 2 * (P mod 2 ^ Z.pos k) < 2 ^ Z.pos k -> rounded P k = P / 2 ^ Z.pos k.
Proof.
  intros HP Hrem. destruct (half_split P k HP) as (Hk & Hh & Hmod).
  set (h := 2 ^ (Z.pos k - 1)) in *.
  pose proof (Z.mod_pos_bound (P / h) 2 ltac:(lia)) as Hb.
  pose proof (Z.mod_pos_bound P h Hh) as Ha.
  assert (Hbit : (P / h) mod 2 = 0) by nia.
  unfold rounded. fold h. rewrite Zodd_mod, Hbit. cbn [Z.eqb].
  apply round_nearest_even_down.
Qed.

Lemma rounded_up P k :
  0 <= P -> 2 ^ Z.pos k < 2 * (P mod 2 ^ Z.pos k) -> rounded P k = P / 2 ^ Z.pos k + 1.
Proof.
  intros HP Hrem. destruct (half_split P k HP) as (Hk & Hh & Hmod).
  set (h := 2 ^ (Z.pos k - 1)) in *.
  pose proof (Z.mod_pos_bound (P / h) 2 ltac:(lia)) as Hb.
  pose proof (Z.mod_pos_bound P h Hh) as Ha.
  assert (Hbit : (P / h) mod 2 = 1) by nia.
  assert (Hst : P mod h <> 0) by nia.
  unfold rounded. fold h. rewrite Zodd_mod, Hbit. cbn [Z.eqb Pos.eqb].
  apply Z.eqb_neq in Hst. rewrite Hst. cbn [negb].
  apply round_nearest_even_up.
Qed.

Lemma shifted_mantissa_bounds P k :
  0 < P -> Z.log2 P = 52 + Z.pos k -> 2 ^ 52 <= P / 2 ^ Z.pos k < 2 ^ 53.
Proof.
  intros HP Hlog.
  assert (H2k : 0 < 2 ^ Z.pos k) by (apply Z.pow_pos_nonneg; lia).
  destruct (Z.log2_spec P HP) as [Hl Hu]. rewrite Hlog in Hl, Hu.
  rewrite <- Z.add_1_r in Hu.
  replace (52 + Z.pos k + 1) with (53 + Z.pos k) in Hu by lia.
  rewrite Z.pow_add_r in Hl, Hu by lia.
  split.
  - apply Z.div_le_lower_bound; lia.
  - apply Z.div_lt_upper_bound; lia.
Qed.

(** Rounding a mantissa of more than 53 bits. *)
Lemma binary_round_aux_shift P E k :
  0 < P -> Z.log2 P = 52 + Z.pos k ->
  -1021 <= 53 + Z.pos k + E -> E + Z.pos k + 1 <= 971 ->
  binary_round_aux prec emax false P E loc_Exact
  = if rounded P k <? 2 ^ 53
    then S754_finite false (Z.to_pos (rounded P k)) (E + Z.pos k)
    else S754_finite false (Z.to_pos (rounded P k / 2)) (E + Z.pos k + 1).
Proof.
  intros HP Hlog Hlo Hhi.
  pose proof (shifted_mantissa_bounds P k HP Hlog) as Hm0.
  pose proof (rounded_bounds P k) as Hm1.
  unfold binary_round_aux.
  rewrite (shr_fexp_shift P E k) by lia.
  cbn [shr_m]. fold (rounded P k).
  destruct (Z.ltb_spec (rounded P k) (2 ^ 53)) as [Hlt|Hge].
  - assert (Hl1 : Z.log2 (rounded P k) = 52) by (apply log2_is; lia).
    rewrite shr_fexp_keep by lia. cbn [shr_m].
    destruct (rounded P k) as [|m1|m1] eqn:Hr; try lia.
    replace (E + Z.pos k <=? emax - prec) with true
      by (symmetry; apply Z.leb_le; unfold emax, prec; lia).
    reflexivity.
  - assert (Hr : rounded P k = 2 ^ 53) by lia.
    rewrite Hr.
    rewrite (shr_fexp_shift (2 ^ 53) (E + Z.pos k) 1)
      by (try reflexivity; change (Z.log2 (2 ^ 53)) with 53; lia).
    cbn [shr_m].
    change (2 ^ 53 / 2 ^ 1) with (Z.pos 4503599627370496).
    change (2 ^ 53 / 2) with (Z.pos 4503599627370496).
    cbn [Z.to_pos].
    replace (E + Z.pos k + 1 <=? emax - prec) with true
      by (symmetry; apply Z.leb_le; unfold emax, prec; lia).
    reflexivity.
Qed.

Lemma to_usize_of_usize c : 0 <= c < 2 ^ 53 -> to_usize (of_usize c) = c.
Proof.
  intros Hc. destruct (Z.eq_dec c 0) as [->|Hnz]; [reflexivity | ].
  rewrite of_usize_finite by lia.
  assert (Hlog : 0 <= Z.log2 c <= 52).
  { split; [apply Z.log2_nonneg | ].
    assert (Z.log2 c < 53) by (apply Z.log2_lt_pow2; lia). lia. }
  assert (Hp : 0 < 2 ^ (52 - Z.log2 c)) by (apply Z.pow_pos_nonneg; lia).
  cbn [to_usize]. rewrite Z2Pos.id by nia.
  assert (Hmax : c <= USIZE_MAX) by (unfold USIZE_MAX, U64_MAX; lia).
  destruct (Z.leb_spec 0 (Z.log2 c - 52)) as [H0|H0].
  - replace (Z.log2 c) with 52 by lia. change (2 ^ (52 - 52)) with 1.
    change (2 ^ (52 - 52)) with 1. rewrite !Z.mul_1_r. lia.
  - replace (- (Z.log2 c - 52)) with (52 - Z.log2 c) by lia.
    rewrite Z.div_mul by lia. lia.
Qed.

Lemma ceil_finite m e :
  e < 0 -> ceil (S754_finite false m e) = of_usize (- ((- Z.pos m) / 2 ^ (- e))).
Proof.
  intros He. unfold ceil, of_usize, ceil_int.
  destruct (Z.leb_spec 0 e); [lia | reflexivity].
Qed.

Ltac eval_pows :=
  repeat match goal with
  | |- context [2 ^ ?e] =>
      let v := eval vm_compute in (2 ^ e) in
      progress change (2 ^ e) with v
  | H : context [2 ^ ?e] |- _ =>
      let v := eval vm_compute in (2 ^ e) in
      progress change (2 ^ e) with v in H
  end.

Ltac split_range x :=
  match goal with
  | H : ?a <= x <= ?b |- _ =>
      first
        [ assert (x = a) by lia; subst x; clear H
        | let a' := eval vm_compute in (a + 1) in
          destruct (Z.eq_dec x a) as [->|];
          [ clear H | assert (a' <= x <= b) by lia; clear H; split_range x ] ]
  end.

(** The arithmetic of the matter: for [n] of [L + 1] bits the product
    [n * 2^(52-L) * M10] is shifted by [k] places and rounded to [m1];
    whatever the size of [n] below [2^53], the ceiling of the rounded
    value is the ceiling of [n / 10].  Each size is settled by linear
    arithmetic. *)
Lemma tenth_arith n L k m1 :
  0 <= L <= 52 -> 2 ^ L <= n < 2 ^ (L + 1) -> 52 <= k <= 53 ->
  2 ^ (52 + k) <= n * 2 ^ (52 - L) * M10 < 2 ^ (53 + k) ->
  n * 2 ^ (52 - L) * M10 / 2 ^ k <= m1 <= n * 2 ^ (52 - L) * M10 / 2 ^ k + 1 ->
  (2 * ((n * 2 ^ (52 - L) * M10) mod 2 ^ k) < 2 ^ k ->
   m1 = n * 2 ^ (52 - L) * M10 / 2 ^ k) ->
  (2 ^ k < 2 * ((n * 2 ^ (52 - L) * M10) mod 2 ^ k) ->
   m1 = n * 2 ^ (52 - L) * M10 / 2 ^ k + 1) ->
  (if m1 <? 2 ^ 53 then - ((- m1) / 2 ^ (108 - L - k))
   else - ((- (m1 / 2)) / 2 ^ (108 - L - k - 1)))
  = (n + 9) / 10.
Proof.
  intros HL Hn Hk HP Hm1 Hdown Hup.
  unfold M10 in *.
  split_range L; split_range k; eval_pows.
  all: destruct (Z.ltb_spec m1 9007199254740992).
  all: Z.to_euclidean_division_equations; lia.
Qed.

(** [((n as f64) * 0.10).ceil() as usize] is the ceiling of [n / 10] for
    every [n] that [f64] represents exactly. *)
Lemma num_winners_of_exact n :
  0 < n < 2 ^ 53 -> rumble.num_winners_of n = (n + 9) / 10.
Proof.
  intros Hn.
  assert (HL : 0 <= Z.log2 n <= 52).
  { split; [apply Z.log2_nonneg | ].
    assert (Z.log2 n < 53) by (apply Z.log2_lt_pow2; lia). lia. }
  destruct (Z.log2_spec n ltac:(lia)) as [Hnl Hnu]. rewrite <- Z.add_1_r in Hnu.
  set (L := Z.log2 n) in *.
  assert (HA : 0 < 2 ^ (52 - L)) by (apply Z.pow_pos_nonneg; lia).
  assert (Hmx : 2 ^ 52 <= n * 2 ^ (52 - L) < 2 ^ 53).
  { assert (E52 : 2 ^ 52 = 2 ^ L * 2 ^ (52 - L))
      by (rewrite <- Z.pow_add_r by lia; f_equal; lia).
    assert (E53 : 2 ^ 53 = 2 ^ (L + 1) * 2 ^ (52 - L))
      by (rewrite <- Z.pow_add_r by lia; f_equal; lia).
    rewrite E52, E53. split.
    - apply Z.mul_le_mono_nonneg_r; lia.
    - apply Z.mul_lt_mono_pos_r; lia. }
  set (P := n * 2 ^ (52 - L) * M10).
  assert (HP : 2 ^ 104 <= P < 2 ^ 106).
  { unfold P, M10. change (2 ^ 104) with (2 ^ 52 * 2 ^ 52).
    change (2 ^ 106) with (2 ^ 53 * 2 ^ 53).
    change (2 ^ 52) with 4503599627370496 in *.
    change (2 ^ 53) with 9007199254740992 in *. nia. }
  assert (Hk : exists k : positive,
             52 <= Z.pos k <= 53 /\ Z.log2 P = 52 + Z.pos k /\
             2 ^ (52 + Z.pos k) <= P < 2 ^ (53 + Z.pos k)).
  { destruct (Z.lt_ge_cases P (2 ^ 105)) as [Hlt|Hge].
    - exists 52%positive. repeat split; try lia; try (apply log2_is; lia);
        change (52 + 52) with 104; change (53 + 52) with 105; lia.
    - exists 53%positive. repeat split; try lia; try (apply log2_is; lia);
        change (52 + 53) with 105; change (53 + 53) with 106; lia. }
  destruct Hk as (k & Hk & HlogP & HPk).
  unfold rumble.num_winners_of, mul, lit_0_10.
  rewrite of_usize_finite by exact Hn. fold L. cbn [SFmul xorb].
  rewrite Pos2Z.inj_mul, Z2Pos.id by lia.
  change (Z.pos 7205759403792794) with M10. fold P.
  rewrite (binary_round_aux_shift P (L - 52 + -56) k) by lia.
  pose proof (rounded_bounds P k) as Hb.
  pose proof (shifted_mantissa_bounds P k ltac:(lia) HlogP) as Hm0.
  pose proof (rounded_down P k ltac:(lia)) as Hdown.
  pose proof (rounded_up P k ltac:(lia)) as Hup.
  pose proof (tenth_arith n L (Z.pos k) (rounded P k) HL (conj Hnl Hnu) Hk HPk Hb Hdown Hup)
    as Harith.
  assert (Hc : 0 <= (n + 9) / 10 < 2 ^ 53).
  { split; [apply Z.div_pos; lia | apply Z.div_lt_upper_bound; lia]. }
  destruct (Z.ltb_spec (rounded P k) (2 ^ 53)) as [Hlt|Hge].
  - rewrite ceil_finite by lia.
    rewrite Z2Pos.id by lia.
    replace (- (L - 52 + -56 + Z.pos k)) with (108 - L - Z.pos k) by lia.
    rewrite Harith. apply to_usize_of_usize, Hc.
  - rewrite ceil_finite by lia.
    rewrite Z2Pos.id by (apply Z.div_str_pos; lia).
    replace (- (L - 52 + -56 + Z.pos k + 1)) with (108 - L - Z.pos k - 1) by lia.
    rewrite Harith. apply to_usize_of_usize, Hc.
Qed.
End F64Facts.

(** ** The number of winners *)

Lemma ceil_tenth_spec n : 10 * (ceil_tenth n - 1) < n <= 10 * ceil_tenth n.
Proof.
  unfold ceil_tenth.
  pose proof (Z.div_mod (n + 9) 10 ltac:(lia)).
  pose proof (Z.mod_pos_bound (n + 9) 10 ltac:(lia)).
  lia.
Qed.

Lemma ranked_winners_length players :
  let n := Z.of_nat (length players) in
  0 < n < 2 ^ 53 ->
  Z.of_nat (length (rumble.ranked_winners players)) = ceil_tenth n.
Proof.
  intros n Hn. unfold rumble.ranked_winners. fold n.
  rewrite (F64Facts.num_winners_of_exact n Hn). fold (ceil_tenth n).
  pose proof (ceil_tenth_spec n) as Hc.
  rewrite length_take, sort_by_length. fold n. unfold n in *. lia.
Qed.

(** C6. With [n] players, [0 < n < 2^53] (every count [f64] holds
    exactly), the winner count computed in binary64 is the ceiling of
    [n / 10] and at least 1, and a completed [select_winners] records
    exactly that many winners: 1 for 1 to 10 players, 2 for 11. *)
Theorem minimum_winner_rule :
  (forall n, 0 < n < 2 ^ 53 ->
     rumble.num_winners_of n = ceil_tenth n /\
     10 * (rumble.num_winners_of n - 1) < n <= 10 * rumble.num_winners_of n /\
     1 <= rumble.num_winners_of n) /\
  (forall env w w',
     0 < Z.of_nat (length (GameState.players (game_state w))) < 2 ^ 53 ->
     rumble.select_winners env w = (Ok tt, w') ->
     Z.of_nat (length (GameState.winners (game_state w')))
     = ceil_tenth (Z.of_nat (length (GameState.players (game_state w))))) /\
  (forall n, 1 <= n <= 10 -> rumble.num_winners_of n = 1) /\
  rumble.num_winners_of 11 = 2.
Proof.
  assert (Hexact : forall n, 0 < n < 2 ^ 53 -> rumble.num_winners_of n = ceil_tenth n)
    by exact F64Facts.num_winners_of_exact.
  split; [ | split; [ | split]].
  - intros n Hn. rewrite (Hexact n Hn).
    pose proof (ceil_tenth_spec n). repeat split; lia.
  - intros env w w' Hn Hrun.
    apply select_winners_ok in Hrun as (? & ? & ? & ? & Hrun); cbn zeta in Hrun.
    destruct Hrun as (_ & _ & _ & _ & _ & _ & _ & _ & Hg & _).
    rewrite Hg. cbn [GameState.winners].
    apply ranked_winners_length, Hn.
  - intros n Hn. rewrite Hexact by lia.
    pose proof (ceil_tenth_spec n). lia.
  - rewrite Hexact by lia. reflexivity.
Qed.

Lemma minimum_winner_rule_witness :
  Z.of_nat (length (GameState.winners (game_state
     (snd (rumble.select_winners env_ok
        (open_round eleven_players [AccountInfo.mk 10 0; AccountInfo.mk 11 0]))))))
  = ceil_tenth 11.
Proof.
  apply (proj1 (proj2 minimum_winner_rule) env_ok
           (open_round eleven_players [AccountInfo.mk 10 0; AccountInfo.mk 11 0])).
  - vm_compute. split; reflexivity.
  - vm_compute. reflexivity.
Defined.

(** Beyond [2^53] the count is no longer exact in [f64] and the rule can
    be off by one. *)
Example num_winners_of_beyond_exact_range :
  rumble.num_winners_of 18014398509481990 = 1801439850948200 /\
  ceil_tenth 18014398509481990 = 1801439850948199.
Proof. vm_compute. split; reflexivity. Qed.

(** ** The split of the prize pool *)

Lemma to_usize_nonneg x : 0 <= F64.to_usize x.
Proof.
  destruct x as [s|s| |s m e]; cbn; try lia.
  - destruct s; unfold USIZE_MAX, U64_MAX; lia.
  - destruct s; [lia | ].
    apply Z.min_glb; [unfold USIZE_MAX, U64_MAX; lia | ].
    destruct (Z.leb_spec 0 e).
    + apply Z.mul_nonneg_nonneg; [lia | apply Z.pow_nonneg; lia].
    + apply Z.div_pos; [lia | ]. apply Z.pow_pos_nonneg; lia.
Qed.

Lemma sum_lamports_update pred l accs a :
  find pred accs = Some a ->
  sum_lamports (update_first pred (AccountInfo.set_lamports l) accs)
  = sum_lamports accs - AccountInfo.lamports a + l.
Proof.
  induction accs as [|b accs IH]; cbn; [discriminate | ].
  destruct (pred b); cbn.
  - intros [= ->]. lia.
  - intros H. rewrite (IH H). lia.
Qed.

Lemma u64_result_checked env r x :
  u64_result env r x -> overflow_checks env = true \/ r <= U64_MAX -> x = r.
Proof.
  intros [[_ ->] | (Hgt & Hoc & _)] [Hc | Hle]; try reflexivity; [congruence | lia].
Qed.

Lemma pay_winner_ok_sum env ppw x w w' :
  overflow_checks env = true ->
  rumble.pay_winner env ppw x w = (Ok tt, w') ->
  sum_lamports (winner_accounts w') = sum_lamports (winner_accounts w) + ppw.
Proof.
  unfold rumble.pay_winner. intros Hoc H.
  ok_step H. ok_step H. ok_step H. ok_prim H. simpl_records.
  match goal with
  | Hr : u64_result _ _ _ |- _ => apply u64_result_checked in Hr; [subst | auto]
  end.
  match goal with
  | Hf : find _ _ = Some _ |- _ => rewrite (sum_lamports_update _ _ _ _ Hf)
  end.
  lia.
Qed.

Lemma for_each_pay_ok_sum env ppw xs w w' :
  overflow_checks env = true ->
  for_each (rumble.pay_winner env ppw) xs w = (Ok tt, w') ->
  sum_lamports (winner_accounts w')
  = sum_lamports (winner_accounts w) + Z.of_nat (length xs) * ppw.
Proof.
  intros Hoc. revert w. induction xs as [|x xs IH]; intros w H; cbn [for_each] in H.
  - apply ret_inv in H as [_ ->]. cbn. lia.
  - ok_step H. destruct a.
    apply (pay_winner_ok_sum _ _ _ _ _ Hoc) in Hs. apply IH in H.
    rewrite H, Hs. cbn [length]. lia.
Qed.

Lemma split_is_short_by_at_most_one P :
  0 <= P -> P - 1 <= P * 90 / 100 + P * 10 / 100 <= P.
Proof.
  intros HP.
  pose proof (Z.div_mod (P * 90) 100 ltac:(lia)).
  pose proof (Z.mod_pos_bound (P * 90) 100 ltac:(lia)).
  pose proof (Z.div_mod (P * 10) 100 ltac:(lia)).
  pose proof (Z.mod_pos_bound (P * 10) 100 ltac:(lia)).
  lia.
Qed.

Lemma even_share_residual pool n :
  0 <= pool -> 0 < n ->
  0 <= pool / n /\ n * (pool / n) <= pool /\ pool - n * (pool / n) <= n - 1.
Proof.
  intros Hp Hn.
  pose proof (Z.div_mod pool n ltac:(lia)) as Hdm.
  pose proof (Z.mod_pos_bound pool n Hn) as Hm.
  pose proof (Z.div_pos pool n Hp Hn).
  lia.
Qed.

(** C3 (amended). For a completed [select_winners] over a pool [P] whose
    product [P * 90] fits in [u64] (or a build that panics on overflow):
    the winners' share is [floor(P*90/100)] and the amount burned is
    [floor(P*10/100)], with nothing added to it, so the two add up to [P]
    or to [P - 1]; every winner is credited
    [floor(share / num_winners)], the credits add up to at most the share,
    and the share exceeds [num_winners] credits by at most
    [num_winners - 1], which for fewer than [2^53] players is the number
    of winners paid. *)
Theorem settlement_split env w w' :
  rumble.select_winners env w = (Ok tt, w') ->
  let g := game_state w in
  let P := GameState.prize_pool g in
  0 <= P ->
  overflow_checks env = true \/ P * 90 <= U64_MAX ->
  let winners := rumble.ranked_winners (GameState.players g) in
  let num_winners := rumble.num_winners_of (Z.of_nat (length (GameState.players g))) in
  let payout_pool := P * 90 / 100 in
  let burn_amount := P * 10 / 100 in
  let prize_per_winner := payout_pool / num_winners in
  (exists now, events w' = events w ++
     [WinnersSelectedEvent (GameState.game_id g) (map Player.key winners)
        prize_per_winner burn_amount now]) /\
  burned w' = burned w ++ [burn_amount] /\
  P - 1 <= payout_pool + burn_amount <= P /\
  0 < num_winners /\
  Z.of_nat (length winners) * prize_per_winner <= payout_pool /\
  payout_pool - num_winners * prize_per_winner <= num_winners - 1 /\
  (0 < Z.of_nat (length (GameState.players g)) < 2 ^ 53 ->
   Z.of_nat (length winners) = num_winners) /\
  (overflow_checks env = true ->
   sum_lamports (winner_accounts w')
   = sum_lamports (winner_accounts w) + Z.of_nat (length winners) * prize_per_winner).
Proof.
  intros H g P HP Hfit winners num_winners payout_pool burn_amount prize_per_winner.
  apply select_winners_ok in H as (p90 & p10 & now & paid & H); cbn zeta in H.
  destruct H as (_ & _ & H90 & H10 & Hnz & _ & _ & Hpay & _ & Hacc & Hb & He).
  fold g P winners num_winners in H90, H10, Hnz, Hpay, Hb, He.
  apply u64_result_checked in H90; [ | destruct Hfit; [left | right]; assumption].
  apply u64_result_checked in H10; [ | destruct Hfit; [left; assumption | right; lia]].
  subst p90 p10. fold payout_pool burn_amount prize_per_winner in Hpay, Hb, He.
  assert (Hpos : 0 < num_winners).
  { pose proof (to_usize_nonneg (F64.ceil (F64.mul
      (F64.of_usize (Z.of_nat (length (GameState.players g)))) F64.lit_0_10))).
    unfold num_winners, rumble.num_winners_of in *. lia. }
  assert (Hpool : 0 <= payout_pool) by (apply Z.div_pos; lia).
  destruct (even_share_residual payout_pool num_winners Hpool Hpos) as (Hq & Hle & Hres).
  fold prize_per_winner in Hq, Hle, Hres.
  assert (Hlen : Z.of_nat (length winners) <= num_winners).
  { unfold winners, rumble.ranked_winners. rewrite length_take.
    fold num_winners. lia. }
  split; [exists now; exact He | ].
  split; [exact Hb | ].
  split; [apply split_is_short_by_at_most_one; exact HP | ].
  split; [exact Hpos | ].
  split; [nia | ].
  split; [exact Hres | ].
  split.
  { intros Hn. unfold winners, num_winners.
    rewrite (ranked_winners_length (GameState.players g) Hn).
    symmetry. apply F64Facts.num_winners_of_exact, Hn. }
  intros Hoc. rewrite Hacc.
  apply (for_each_pay_ok_sum _ _ _ _ _ Hoc) in Hpay. exact Hpay.
Qed.

Lemma settlement_split_witness :
  burned (snd (rumble.select_winners env_ok pool_of_15)) = [1] /\
  14 <= 15 * 90 / 100 + 15 * 10 / 100 <= 15.
Proof.
  pose proof (settlement_split env_ok pool_of_15
                (snd (rumble.select_winners env_ok pool_of_15))
                ltac:(vm_compute; reflexivity)
                ltac:(vm_compute; discriminate)
                (or_introl eq_refl)) as H.
  cbn zeta in H. destruct H as (_ & Hb & Hsum & _).
  split; [exact Hb | exact Hsum].
Defined.

(** C3 as stated fails: of a pool of 15 the winner receives 13 and 1 is
    burned; the remaining unit is not added to the burn. *)
Lemma truncation_residual_is_not_burned :
  rumble.select_winners env_ok pool_of_15
  = (Ok tt,
     {| game_state := GameState.mk 0 0 true [Player.mk 1 15 3 0] [Player.mk 1 15 3 0] 7;
        winner_accounts := [AccountInfo.mk 1 13];
        burned := [1];
        events := [WinnersSelectedEvent 7 [1] 13 1 1700000000] |}) /\
  13 + 1 < 15 /\
  1 <> 15 * 10 / 100 + (15 - 15 * 90 / 100 - 15 * 10 / 100).
Proof. vm_compute. repeat split; try reflexivity; discriminate. Qed.

(** ** Deposits *)

(** [deposit] reads [active] nowhere: with a working clock, a positive
    amount and room in both counters it succeeds in any game state. *)
Lemma deposit_has_no_state_guard env player amount w now :
  clock env = Some now ->
  0 < amount ->
  GameState.total_deposits (game_state w) + amount <= U64_MAX ->
  (forall existing,
     find (rumble.has_key player) (GameState.players (game_state w)) = Some existing ->
     Player.deposit existing + amount <= U64_MAX) ->
  exists w', rumble.deposit env player amount w = (Ok tt, w').
Proof.
  intros Hclock Hpos Htotal Hplayer.
  unfold rumble.deposit, rumble.Clock_get, checked_add. rewrite Hclock.
  apply Z.ltb_lt in Hpos. apply Z.leb_le in Htotal.
  rewrite !bind_eq, Hpos. cbn [require ret]. rewrite bind_eq. cbn [get_gs].
  destruct (find _ _) as [existing|] eqn:Hfind.
  - specialize (Hplayer existing eq_refl). apply Z.leb_le in Hplayer.
    rewrite !bind_eq, Hplayer. cbn. rewrite bind_eq. cbn [get_gs].
    simpl_records. rewrite bind_eq, Htotal. cbn. eexists; reflexivity.
  - rewrite !bind_eq. cbn. rewrite bind_eq. cbn [get_gs].
    simpl_records. rewrite bind_eq, Htotal. cbn. eexists; reflexivity.
Qed.

(** The full pool is a state the program reaches by itself. *)
Lemma full_pool_completed : completed (game_state full_pool).
Proof.
  apply (completed_step env_ok (Deposit 2 18446744073709551614)
           (snd (rumble.deposit env_ok 1 1 (snd (rumble.initialize 7 (fresh_world [])))))).
  - apply (completed_step env_ok (Deposit 1 1)
             (snd (rumble.initialize 7 (fresh_world [])))).
    + apply (completed_init 7 (fresh_world [])). reflexivity.
    + vm_compute. reflexivity.
  - vm_compute. reflexivity.
Qed.

Lemma deposit_err_pool_full env player amount w e w' :
  0 < amount ->
  U64_MAX < GameState.total_deposits (game_state w) + amount ->
  rumble.deposit env player amount w = (Err e, w') ->
  GameState.total_deposits (game_state w') = GameState.total_deposits (game_state w) /\
  GameState.prize_pool (game_state w') = GameState.prize_pool (game_state w) /\
  (e = Rumble Overflow \/
   e = ProgramError /\ clock env = None /\
   find (rumble.has_key player) (GameState.players (game_state w)) = None).
Proof.
  unfold rumble.deposit. intros Hpos Hover H.
  err_step H; [apply Z.ltb_ge in H; lia | ].
  err_step H. err_step H.
  - destruct (find _ _) as [existing|] eqn:Hfind.
    + err_step H; [auto | err_prim H].
    + err_step H; [ | err_prim H]. auto 6.
  - assert (Hsame : GameState.total_deposits (game_state w0)
                    = GameState.total_deposits (game_state w) /\
                    GameState.prize_pool (game_state w0)
                    = GameState.prize_pool (game_state w)).
    { destruct (find _ _) as [existing|].
      - ok_step Hs. ok_prim Hs. simpl_records. auto.
      - ok_step Hs. ok_prim Hs. simpl_records. auto. }
    destruct Hsame as [Ht Hp].
    err_step H. err_step H; [auto | ].
    match goal with
    | Hadd : checked_add _ _ = Some _ |- _ =>
        apply checked_add_Some in Hadd as [_ Hle]; rewrite Ht in Hle; lia
    end.
Qed.

(** C8. A [deposit] instruction whose amount would take [total_deposits]
    or the player's accumulated deposit past [u64::MAX] fails and leaves
    every account as it was before it, so [total_deposits] and the player's
    deposit are unchanged.  The error is [Overflow]; only where the player
    is new and the clock cannot be read is it the clock's error, which
    comes first. *)
Theorem overflowing_deposit_is_refused env player amount w :
  0 <= amount ->
  GameState.total_deposits (game_state w) <= U64_MAX ->
  (forall existing,
     find (rumble.has_key player) (GameState.players (game_state w)) = Some existing ->
     Player.deposit existing <= U64_MAX) ->
  (U64_MAX < GameState.total_deposits (game_state w) + amount \/
   exists existing,
     find (rumble.has_key player) (GameState.players (game_state w)) = Some existing /\
     U64_MAX < Player.deposit existing + amount) ->
  exists e,
    process_instruction env (Deposit player amount) w = (Err e, w) /\
    ((exists existing,
        find (rumble.has_key player) (GameState.players (game_state w)) = Some existing) \/
     (exists now, clock env = Some now) ->
     e = Rumble Overflow).
Proof.
  intros Hamount Htotal Hplayer Hover.
  assert (Hpos : 0 < amount).
  { destruct Hover as [Hover | (existing & Hfind & Hover)];
      [lia | specialize (Hplayer existing Hfind); lia]. }
  destruct Hover as [Hover | (existing & Hfind & Hover)].
  - destruct (rumble.deposit env player amount w) as [[[]|e] w'] eqn:Hrun.
    + apply deposit_ok in Hrun as (_ & _ & _ & _ & Hfit). lia.
    + exists e. split; [exact (process_instruction_err env (Deposit player amount) w e w' Hrun) | ].
      destruct (deposit_err_pool_full env player amount w e w' Hpos Hover Hrun)
        as (_ & _ & He).
      intros Hwhy. destruct He as [He | (_ & Hclock & Hfind)]; [exact He | ].
      destruct Hwhy as [[existing Hex] | [now Hnow]]; congruence.
  - exists (Rumble Overflow). split; [ | reflexivity].
    apply (process_instruction_err env (Deposit player amount) w (Rumble Overflow) w).
    apply Z.ltb_lt in Hpos.
    cbn [exec]. unfold rumble.deposit, checked_add.
    rewrite !bind_eq, Hpos. cbn [require ret]. rewrite bind_eq. cbn [get_gs].
    rewrite Hfind.
    destruct (Z.leb_spec (Player.deposit existing + amount) U64_MAX); [lia | reflexivity].
Qed.

Lemma overflowing_deposit_is_refused_witness :
  completed (game_state full_pool) /\
  GameState.total_deposits (game_state full_pool) = U64_MAX /\
  process_instruction env_ok (Deposit 1 1) full_pool = (Err (Rumble Overflow), full_pool).
Proof.
  split; [exact full_pool_completed | ]. split; [reflexivity | ].
  destruct (overflowing_deposit_is_refused env_ok 1 1 full_pool) as (e & Hrun & He).
  - lia.
  - vm_compute. discriminate.
  - intros existing Hfind. vm_compute in Hfind. injection Hfind as <-.
    vm_compute. discriminate.
  - left. vm_compute. reflexivity.
  - rewrite Hrun, He; [reflexivity | ]. right. exists 1700000000. reflexivity.
Defined.

(** C7, the program at the failing input: a deposit into a round that has
    been settled ([active == true]) is accepted and raises the pool. *)
Lemma deposit_into_settled_round_succeeds :
  GameState.active (game_state one_deposit_settled) = true /\
  rumble.deposit env_ok 2 3 one_deposit_settled
  = (Ok tt,
     {| game_state :=
          GameState.mk 3 3 true
            [Player.mk 1 5 0 1700000000; Player.mk 2 3 0 1700000000]
            [Player.mk 1 5 0 1700000000] 7;
        winner_accounts := [AccountInfo.mk 1 4];
        burned := [0];
        events := [DepositEvent 1 5 1700000000;
                   WinnersSelectedEvent 7 [1] 4 0 1700000000;
                   DepositEvent 2 3 1700000000] |}).
Proof. vm_compute. split; reflexivity. Qed.

(** ** Score evaluation *)

Section UpdateFirst.
Context {A : Type}.

Lemma update_first_none (pred : A -> bool) f l :
  find pred l = None -> update_first pred f l = l.
Proof.
  induction l as [|x l IH]; cbn; [reflexivity | ].
  destruct (pred x); [discriminate | ]. intros H. rewrite (IH H). reflexivity.
Qed.

Lemma update_first_ext (pred : A -> bool) f f' l :
  (forall x, f x = f' x) -> update_first pred f l = update_first pred f' l.
Proof.
  intros Hf. induction l as [|x l IH]; cbn; [reflexivity | ].
  destruct (pred x); [rewrite Hf | rewrite IH]; reflexivity.
Qed.

Lemma update_first_twice (pred : A -> bool) f g l :
  (forall x, pred x = true -> pred (g x) = true) ->
  update_first pred f (update_first pred g l) = update_first pred (fun x => f (g x)) l.
Proof.
  intros Hg. induction l as [|x l IH]; cbn; [reflexivity | ].
  destruct (pred x) eqn:Hx; cbn.
  - rewrite (Hg x Hx). reflexivity.
  - rewrite Hx, IH. reflexivity.
Qed.

Lemma update_first_comm (p q : A -> bool) f g l :
  (forall x, p x = true -> q x = false) ->
  (forall x, p (f x) = p x) -> (forall x, q (f x) = q x) ->
  (forall x, p (g x) = p x) -> (forall x, q (g x) = q x) ->
  update_first p f (update_first q g l) = update_first q g (update_first p f l).
Proof.
  intros Hpq Hpf Hqf Hpg Hqg. induction l as [|x l IH]; cbn; [reflexivity | ].
  destruct (p x) eqn:Hp.
  - rewrite (Hpq x Hp). cbn. rewrite Hp, Hqf, (Hpq x Hp). reflexivity.
  - destruct (q x) eqn:Hq; cbn.
    + rewrite Hpg, Hp, Hq. reflexivity.
    + rewrite Hp, Hq, IH. reflexivity.
Qed.

Lemma update_first_map {B} (view : A -> B) (pred : B -> bool) f f' l :
  (forall x, view (f x) = f' (view x)) ->
  map view (update_first (fun x => pred (view x)) f l)
  = update_first pred f' (map view l).
Proof.
  intros Hf. induction l as [|x l IH]; cbn; [reflexivity | ].
  destruct (pred (view x)); cbn; [rewrite Hf | rewrite IH]; reflexivity.
Qed.
End UpdateFirst.

Lemma with_players_same w : with_players (GameState.players (game_state w)) w = w.
Proof. destruct w as [[] ? ? ?]. reflexivity. Qed.

Lemma with_players_twice ps qs w : with_players ps (with_players qs w) = with_players ps w.
Proof. reflexivity. Qed.

Lemma evaluate_one_run env now entry w :
  clock env = Some now ->
  rumble.evaluate_one env entry w
  = (Ok tt, with_players (apply_score now (GameState.players (game_state w)) entry) w).
Proof.
  intros Hclock. destruct entry as [k v].
  unfold rumble.evaluate_one, apply_score, rumble.Clock_get. rewrite Hclock.
  rewrite bind_eq. cbn [get_gs fst snd].
  destruct (find _ _) eqn:Hfind.
  - reflexivity.
  - rewrite !(update_first_none _ _ _ Hfind), with_players_same. reflexivity.
Qed.

Lemma for_each_evaluate_run env now scores w :
  clock env = Some now ->
  for_each (rumble.evaluate_one env) scores w
  = (Ok tt, with_players
              (fold_left (apply_score now) scores (GameState.players (game_state w))) w).
Proof.
  intros Hclock. revert w. induction scores as [|e scores IH]; intros w; cbn [for_each fold_left].
  - rewrite with_players_same. reflexivity.
  - rewrite bind_eq, (evaluate_one_run env now e w Hclock), IH. reflexivity.
Qed.

Lemma evaluate_ok env scores w w' :
  rumble.evaluate_trading_activity env scores w = (Ok tt, w') ->
  exists now,
    clock env = Some now /\
    w' = push_event (TradingEvaluationEvent (GameState.game_id (game_state w)) now)
           (with_players
              (fold_left (apply_score now) scores (GameState.players (game_state w))) w).
Proof.
  unfold rumble.evaluate_trading_activity. intros H.
  ok_step H. ok_step H. ok_step H. ok_step H. apply ret_inv in H as [_ ->].
  match goal with Hc : clock env = Some ?n |- _ => exists n; split; [exact Hc | ];
    rewrite (for_each_evaluate_run env n scores w Hc) in Hs end.
  injection Hs as _ Hw. rewrite <- Hw. reflexivity.
Qed.

Lemma scores_of_apply_score now ps entry :
  scores_of (apply_score now ps entry) = overwrite entry.1 entry.2 (scores_of ps).
Proof.
  destruct entry as [k v]. unfold apply_score, scores_of, overwrite. cbn [fst snd].
  rewrite update_first_twice by (intros x Hx; exact Hx).
  apply (update_first_map (fun p => (Player.key p, Player.trading_score p)) (is_entry_of k)).
  reflexivity.
Qed.

Lemma scores_of_fold now scores ps :
  scores_of (fold_left (apply_score now) scores ps) = overwrite_all scores (scores_of ps).
Proof.
  revert ps. induction scores as [|e scores IH]; intros ps; cbn [fold_left]; [reflexivity | ].
  rewrite IH, scores_of_apply_score. reflexivity.
Qed.

Lemma overwrite_absorb k v v' l : overwrite k v (overwrite k v' l) = overwrite k v l.
Proof.
  unfold overwrite. rewrite update_first_twice by (intros x Hx; exact Hx).
  apply update_first_ext. reflexivity.
Qed.

Lemma overwrite_comm k k' v v' l :
  k <> k' -> overwrite k v (overwrite k' v' l) = overwrite k' v' (overwrite k v l).
Proof.
  intros Hne. unfold overwrite. apply update_first_comm; try reflexivity.
  intros [k0 v0]. unfold is_entry_of. cbn. intros Hk. apply Z.eqb_eq in Hk.
  apply Z.eqb_neq. congruence.
Qed.

Lemma overwrite_all_absorb scores k v l :
  k ∈ map fst scores -> overwrite_all scores (overwrite k v l) = overwrite_all scores l.
Proof.
  revert l. induction scores as [|[k' v'] scores IH]; intros l Hin; cbn in *.
  - apply elem_of_nil in Hin as [].
  - destruct (Z.eq_dec k k') as [<-|Hne].
    + rewrite overwrite_absorb. reflexivity.
    + apply elem_of_cons in Hin as [Heq|Hin]; [congruence | ].
      rewrite <- overwrite_comm by exact Hne. apply IH, Hin.
Qed.

Lemma overwrite_all_comm scores k v l :
  k ∉ map fst scores -> overwrite_all scores (overwrite k v l) = overwrite k v (overwrite_all scores l).
Proof.
  revert l. induction scores as [|[k' v'] scores IH]; intros l Hin; cbn in *; [reflexivity | ].
  apply not_elem_of_cons in Hin as [Hne Hin].
  rewrite <- overwrite_comm by exact Hne. apply IH, Hin.
Qed.

Lemma overwrite_all_cons k v scores l :
  overwrite_all ((k, v) :: scores) l = overwrite_all scores (overwrite k v l).
Proof. reflexivity. Qed.

Lemma overwrite_all_idempotent scores l :
  overwrite_all scores (overwrite_all scores l) = overwrite_all scores l.
Proof.
  revert l. induction scores as [|[k v] scores IH]; intros l; [reflexivity | ].
  rewrite !overwrite_all_cons.
  destruct (decide (k ∈ map fst scores)) as [Hin|Hnin].
  - rewrite !(overwrite_all_absorb scores k v) by exact Hin. apply IH.
  - rewrite (overwrite_all_comm scores k v l) by exact Hnin.
    rewrite overwrite_absorb.
    rewrite <- (overwrite_all_comm scores k v) by exact Hnin.
    apply IH.
Qed.

(** Entries whose key is not registered. *)
Lemma find_has_key_None k ps :
  find (rumble.has_key k) ps = None <-> k ∉ map Player.key ps.
Proof.
  induction ps as [|p ps IH]; cbn.
  - split; [intros _; apply not_elem_of_nil | reflexivity].
  - unfold rumble.has_key at 1. rewrite not_elem_of_cons.
    destruct (Z.eqb_spec (Player.key p) k) as [Heq|Hne].
    + split; [discriminate | intros [Hk _]; congruence].
    + rewrite IH. split; [intros H; split; [congruence | exact H] | intros [_ H]; exact H].
Qed.

Lemma apply_score_unknown now ps entry :
  entry.1 ∉ map Player.key ps -> apply_score now ps entry = ps.
Proof.
  intros Hk. apply find_has_key_None in Hk. unfold apply_score.
  rewrite (update_first_none _ _ _ Hk). apply update_first_none, Hk.
Qed.

Lemma update_first_keys pred f ps :
  (forall p, Player.key (f p) = Player.key p) ->
  map Player.key (update_first pred f ps) = map Player.key ps.
Proof.
  intros Hf. induction ps as [|p ps IH]; cbn; [reflexivity | ].
  destruct (pred p); cbn; [rewrite Hf | rewrite IH]; reflexivity.
Qed.

Lemma evaluate_one_keys env entry ks :
  preserves (on_game_state (fun g => map Player.key (GameState.players g) = ks))
    (rumble.evaluate_one env entry).
Proof.
  unfold rumble.evaluate_one. destruct entry as [k v].
  apply preserves_bind; [auto with preserve | intros gs].
  destruct (find _ _); preserve_steps;
    apply preserves_modify_gs; intros g Hg; cbn;
    rewrite update_first_keys; auto.
Qed.

Lemma evaluate_one_unknown env k v w :
  k ∉ map Player.key (GameState.players (game_state w)) ->
  rumble.evaluate_one env (k, v) w = (Ok tt, w).
Proof.
  intros Hk. apply find_has_key_None in Hk.
  unfold rumble.evaluate_one. rewrite bind_eq. cbn [get_gs]. rewrite Hk. reflexivity.
Qed.

Lemma for_each_evaluate_known env ks scores w :
  map Player.key (GameState.players (game_state w)) = ks ->
  for_each (rumble.evaluate_one env) scores w
  = for_each (rumble.evaluate_one env) (filter (fun e => e.1 ∈ ks) scores) w.
Proof.
  revert w. induction scores as [|[k v] scores IH]; intros w Hks; [reflexivity | ].
  rewrite filter_cons. cbn [fst]. destruct (decide (k ∈ ks)) as [Hin|Hnin].
  - cbn [for_each]. rewrite !bind_eq.
    pose proof (evaluate_one_keys env (k, v) ks w Hks) as Hks'.
    destruct (rumble.evaluate_one env (k, v) w) as [[[]|e] w1]; [ | reflexivity].
    apply IH, Hks'.
  - cbn [for_each]. rewrite bind_eq, evaluate_one_unknown by (rewrite Hks; exact Hnin).
    apply IH, Hks.
Qed.

(** C9. [evaluate_trading_activity] overwrites: entries whose key is not
    in the players vector can be dropped from the batch without changing
    what the call returns or leaves behind; a batch made of such entries
    only changes no game state and, the clock being readable, does not
    fail; and running the same batch a second time leaves every player
    with the key and the [trading_score] the first run gave. *)
Theorem evaluate_trading_activity_overwrites :
  (forall env scores w,
     rumble.evaluate_trading_activity env scores w
     = rumble.evaluate_trading_activity env
         (filter (fun e => e.1 ∈ map Player.key (GameState.players (game_state w))) scores)
         w) /\
  (forall env scores w now,
     clock env = Some now ->
     (forall e, e ∈ scores -> e.1 ∉ map Player.key (GameState.players (game_state w))) ->
     exists w', rumble.evaluate_trading_activity env scores w = (Ok tt, w') /\
                game_state w' = game_state w) /\
  (forall env1 env2 scores w w1 w2,
     rumble.evaluate_trading_activity env1 scores w = (Ok tt, w1) ->
     rumble.evaluate_trading_activity env2 scores w1 = (Ok tt, w2) ->
     map Player.key (GameState.players (game_state w2))
       = map Player.key (GameState.players (game_state w1)) /\
     map Player.trading_score (GameState.players (game_state w2))
       = map Player.trading_score (GameState.players (game_state w1))).
Proof.
  split; [ | split].
  - intros env scores w. unfold rumble.evaluate_trading_activity.
    rewrite !(bind_eq (for_each _ _)).
    rewrite (for_each_evaluate_known env _ scores w eq_refl). reflexivity.
  - intros env scores w now Hclock Hunknown.
    assert (Hfold : fold_left (apply_score now) scores (GameState.players (game_state w))
                    = GameState.players (game_state w)).
    { induction scores as [|e scores IH]; [reflexivity | ]. cbn [fold_left].
      rewrite apply_score_unknown by (apply Hunknown; left).
      apply IH. intros e' He'. apply Hunknown. right. exact He'. }
    unfold rumble.evaluate_trading_activity, rumble.Clock_get.
    rewrite bind_eq, (for_each_evaluate_run env now scores w Hclock), Hfold,
      with_players_same, Hclock.
    eexists. split; reflexivity.
  - intros env1 env2 scores w w1 w2 H1 H2.
    apply evaluate_ok in H1 as (now1 & _ & ->).
    apply evaluate_ok in H2 as (now2 & _ & ->).
    cbn [game_state push_event with_players set_game_state
         GameState.players GameState.set_players].
    assert (Hview : scores_of (fold_left (apply_score now2) scores
                      (fold_left (apply_score now1) scores (GameState.players (game_state w))))
                    = scores_of (fold_left (apply_score now1) scores
                        (GameState.players (game_state w)))).
    { rewrite !scores_of_fold. apply overwrite_all_idempotent. }
    split.
    + apply (f_equal (map fst)) in Hview. unfold scores_of in Hview.
      rewrite !map_map in Hview. exact Hview.
    + apply (f_equal (map snd)) in Hview. unfold scores_of in Hview.
      rewrite !map_map in Hview. exact Hview.
Qed.

Lemma evaluate_trading_activity_overwrites_witness :
  let scores := [(1, 150); (9, 200); (1, 175)] in
  let late := {| overflow_checks := true; clock := Some 1700000060; burn_ok := fun _ => true |} in
  let w1 := snd (rumble.evaluate_trading_activity env_ok scores one_deposit) in
  let w2 := snd (rumble.evaluate_trading_activity late scores w1) in
  map Player.trading_score (GameState.players (game_state w1)) = [175] /\
  map Player.trading_score (GameState.players (game_state w2))
  = map Player.trading_score (GameState.players (game_state w1)).
Proof.
  cbn zeta. split; [vm_compute; reflexivity | ].
  apply (proj2 (proj2 evaluate_trading_activity_overwrites) env_ok
           {| overflow_checks := true; clock := Some 1700000060; burn_ok := fun _ => true |}
           [(1, 150); (9, 200); (1, 175)] one_deposit).
  - vm_compute. reflexivity.
  - vm_compute. reflexivity.
Defined.

(** ** The backend mirror *)

(** The backend does keep deposits out of a game that is missing or has
    been settled: the call is rejected and no table is touched. *)
Lemma backend_deposit_guard io playerKey amount gameId db :
  (GameService.games db !! gameId = None \/
   exists game, GameService.games db !! gameId = Some game /\ GameRow.active game = true) ->
  GameService.deposit io playerKey amount gameId db
  = (GameService.Rejected GameService.NotActiveOrMissing, db).
Proof.
  unfold GameService.deposit. intros [Hnone | (game & Hsome & Hactive)].
  - rewrite Hnone. reflexivity.
  - rewrite Hsome, Hactive. reflexivity.
Qed.

(** It does not look at the amount: a deposit of [-5] is taken and lowers
    the pool. *)
Lemma backend_deposit_takes_any_amount :
  let '(r, db) := GameService.deposit io_ok "a" (Number.of_int (-5)) "g"
                    (backend_round [PlayerRow.mk "a" (Number.of_int 10) 0 "g"] 10) in
  r = GameService.Resolved tt /\
  GameService.games db !! "g"
  = Some (GameRow.mk "g" (Number.of_int 5) (Number.of_int 5) false) /\
  GameService.players db = [PlayerRow.mk "a" (Number.of_int 5) 0 "g"].
Proof. vm_compute. repeat split; reflexivity. Qed.

(** * Further properties of the program *)

(** ** Vectors searched and updated in place *)

Section FindUpdate.
Context {A : Type}.

Lemma find_update_first_same (pred : A -> bool) f l :
  (forall x, pred x = true -> pred (f x) = true) ->
  find pred (update_first pred f l) = f <$> find pred l.
Proof.
  intros Hf. induction l as [|x l IH]; cbn; [reflexivity | ].
  destruct (pred x) eqn:Hx; cbn.
  - rewrite (Hf x Hx). reflexivity.
  - rewrite Hx. exact IH.
Qed.

Lemma find_update_first_other (p q : A -> bool) f l :
  (forall x, p x = true -> q x = false /\ q (f x) = false) ->
  find q (update_first p f l) = find q l.
Proof.
  intros Hpq. induction l as [|x l IH]; cbn; [reflexivity | ].
  destruct (p x) eqn:Hp; cbn.
  - destruct (Hpq x Hp) as [-> ->]. reflexivity.
  - rewrite IH. reflexivity.
Qed.

Lemma find_app_l (pred : A -> bool) l l' x :
  find pred l = Some x -> find pred (l ++ l') = Some x.
Proof.
  induction l as [|y l IH]; cbn; [discriminate | ].
  destruct (pred y); [auto | exact IH].
Qed.

Lemma find_app_r (pred : A -> bool) l l' :
  find pred l = None -> find pred (l ++ l') = find pred l'.
Proof.
  induction l as [|y l IH]; cbn; [reflexivity | ].
  destruct (pred y); [discriminate | exact IH].
Qed.

Lemma update_first_app_r (pred : A -> bool) f l l' :
  find pred l = None -> update_first pred f (l ++ l') = l ++ update_first pred f l'.
Proof.
  induction l as [|y l IH]; cbn; [reflexivity | ].
  destruct (pred y); [discriminate | ]. intros H. rewrite (IH H). reflexivity.
Qed.
End FindUpdate.

Lemma find_Some_elem_of {A} (pred : A -> bool) l x :
  find pred l = Some x -> x ∈ l /\ pred x = true.
Proof.
  induction l as [|y l IH]; cbn; [discriminate | ].
  destruct (pred y) eqn:Hy.
  - intros [= <-]. split; [left | exact Hy].
  - intros H. destruct (IH H). split; [right | ]; assumption.
Qed.

Lemma Forall_update_first {A} (P : A -> Prop) pred f l :
  (forall x, P x -> pred x = true -> P (f x)) ->
  Forall P l -> Forall P (update_first pred f l).
Proof.
  intros Hf. induction 1 as [|x l Hx Hl IH]; cbn; [constructor | ].
  destruct (pred x) eqn:Hp; constructor; auto.
Qed.

Lemma update_first_view {A B} (view : A -> B) pred f (l : list A) :
  (forall x, view (f x) = view x) ->
  map view (update_first pred f l) = map view l.
Proof.
  intros Hf. induction l as [|x l IH]; cbn; [reflexivity | ].
  destruct (pred x); cbn; [rewrite Hf | rewrite IH]; reflexivity.
Qed.

(** ** Deposits, in full *)

(** Two reads of the clock in one instruction give the same time. *)
Ltac same_clock :=
  repeat match goal with
  | Ha : clock ?env = Some ?a, Hb : clock ?env = Some ?b |- _ =>
      tryif constr_eq a b then fail else
        (assert (b = a) as -> by congruence; clear Hb)
  end.

(** What a completed deposit leaves behind, in full. *)
Lemma deposit_run env player amount w w' :
  rumble.deposit env player amount w = (Ok tt, w') ->
  let g := game_state w in
  let total := GameState.total_deposits g + amount in
  exists now,
    clock env = Some now /\
    0 < amount /\ total <= U64_MAX /\
    (forall existing,
       find (rumble.has_key player) (GameState.players g) = Some existing ->
       Player.deposit existing + amount <= U64_MAX) /\
    w' = push_event (DepositEvent player amount now)
           (set_game_state
              (GameState.mk total total (GameState.active g)
                 (credited now player amount (GameState.players g))
                 (GameState.winners g) (GameState.game_id g)) w).
Proof.
  unfold rumble.deposit, credited. intros H.
  ok_step H. ok_step H. ok_step H.
  ok_step H. ok_step H. ok_step H. ok_step H. ok_step H. ok_step H.
  apply ret_inv in H. destruct H as [_ ->].
  apply Z.ltb_lt in H0. apply checked_add_Some in H1 as [-> Hfit].
  match goal with Hc : clock env = Some ?n |- _ => exists n; split; [exact Hc | ] end.
  split; [exact H0 | ].
  destruct (find _ _) as [existing|] eqn:Hfind.
  - ok_step Hs. ok_prim Hs. apply checked_add_Some in H as [-> Hp].
    simpl_records. split; [exact Hfit | ].
    split; [intros ? [= <-]; exact Hp | reflexivity].
  - ok_step Hs. ok_prim Hs. same_clock. simpl_records.
    split; [exact Hfit | ]. split; [discriminate | reflexivity].
Qed.

(** X1. [deposit] returns [Ok] exactly when the amount is positive, the
    clock can be read, [total_deposits + amount] fits in [u64] and, for a
    player already registered, so does that player's deposit plus the
    amount; nothing else about the game state matters. *)
Theorem deposit_succeeds_iff env player amount w :
  (exists w', rumble.deposit env player amount w = (Ok tt, w')) <->
  0 < amount /\
  (exists now, clock env = Some now) /\
  GameState.total_deposits (game_state w) + amount <= U64_MAX /\
  (forall existing,
     find (rumble.has_key player) (GameState.players (game_state w)) = Some existing ->
     Player.deposit existing + amount <= U64_MAX).
Proof.
  split.
  - intros [w' H]. apply deposit_run in H as (now & Hc & Hpos & Hfit & Hp & _).
    eauto 6.
  - intros (Hpos & [now Hc] & Hfit & Hp).
    exact (deposit_has_no_state_guard env player amount w now Hc Hpos Hfit Hp).
Qed.

(** X2. The errors of [deposit] and their causes.  [InvalidDeposit] means
    the amount was not positive, and nothing was written.  [Overflow] means
    the amount was positive and either the registered player's own deposit
    would pass [u64::MAX], in which case nothing was written, or
    [total_deposits] would.  An error of the runtime means the clock could
    not be read.  No other error is returned. *)
Theorem deposit_error_cause env player amount w e w' :
  rumble.deposit env player amount w = (Err e, w') ->
  let g := game_state w in
  match e with
  | Rumble InvalidDeposit => amount <= 0 /\ w' = w
  | Rumble Overflow =>
      0 < amount /\
      ((exists existing,
          find (rumble.has_key player) (GameState.players g) = Some existing /\
          U64_MAX < Player.deposit existing + amount /\ w' = w) \/
       U64_MAX < GameState.total_deposits g + amount)
  | ProgramError => 0 < amount /\ clock env = None
  | _ => False
  end.
Proof.
  unfold rumble.deposit. intros H. cbn zeta.
  err_step H.
  { match goal with Hc : (0 <? amount) = false |- _ => apply Z.ltb_ge in Hc end. auto. }
  match goal with Hp : (0 <? amount) = true |- _ => apply Z.ltb_lt in Hp; rename Hp into Hpos end.
  err_step H. err_step H.
  - destruct (find _ _) as [existing|] eqn:Hfind.
    + err_step H; [ | err_prim H].
      match goal with Hadd : checked_add _ _ = None |- _ => apply checked_add_None in Hadd end.
      split; [exact Hpos | left]. eauto.
    + err_step H; [auto | err_prim H].
  - assert (Ht : GameState.total_deposits (game_state w0)
                 = GameState.total_deposits (game_state w)).
    { destruct (find _ _) as [existing|].
      - ok_step Hs. ok_prim Hs. reflexivity.
      - ok_step Hs. ok_prim Hs. reflexivity. }
    err_step H. err_step H.
    { match goal with Hadd : checked_add _ _ = None |- _ => apply checked_add_None in Hadd end.
      rewrite Ht in *. auto. }
    err_step H. err_step H. err_step H; [auto | ].
    err_step H. err_prim H.
Qed.

Lemma deposit_error_cause_witness :
  0 < 1 /\
  ((exists existing,
      find (rumble.has_key 1) (GameState.players (game_state full_pool)) = Some existing /\
      U64_MAX < Player.deposit existing + 1 /\
      snd (rumble.deposit env_ok 1 1 full_pool) = full_pool) \/
   U64_MAX < GameState.total_deposits (game_state full_pool) + 1).
Proof.
  apply (deposit_error_cause env_ok 1 1 full_pool (Rumble Overflow)
           (snd (rumble.deposit env_ok 1 1 full_pool))).
  vm_compute. reflexivity.
Defined.

Lemma find_has_key_key k ps p :
  find (rumble.has_key k) ps = Some p -> Player.key p = k.
Proof.
  induction ps as [|q ps IH]; cbn; [discriminate | ].
  destruct (rumble.has_key k q) eqn:Hq; [ | exact IH].
  intros [= <-]. apply Z.eqb_eq, Hq.
Qed.

Lemma credited_find now player amount ps :
  exists p',
    find (rumble.has_key player) (credited now player amount ps) = Some p' /\
    Player.key p' = player /\
    Player.deposit p'
    = from_option Player.deposit 0 (find (rumble.has_key player) ps) + amount /\
    Player.trading_score p'
    = from_option Player.trading_score 0 (find (rumble.has_key player) ps).
Proof.
  unfold credited. destruct (find _ ps) as [existing|] eqn:Hfind.
  - rewrite find_update_first_same by (intros x Hx; exact Hx). rewrite Hfind.
    eexists. split; [reflexivity | ]. cbn.
    split; [eapply find_has_key_key; eassumption | split; reflexivity].
  - rewrite (find_app_r _ _ _ Hfind). cbn. unfold rumble.has_key at 1. cbn.
    rewrite Z.eqb_refl. eexists. split; [reflexivity | ]. cbn. auto.
Qed.

Lemma credited_find_other now player amount ps k :
  k <> player ->
  find (rumble.has_key k) (credited now player amount ps) = find (rumble.has_key k) ps.
Proof.
  intros Hk. unfold credited. destruct (find _ ps) as [existing|] eqn:Hfind.
  - apply find_update_first_other. intros x Hx. unfold rumble.has_key in *. cbn.
    apply Z.eqb_eq in Hx. split; apply Z.eqb_neq; congruence.
  - destruct (find (rumble.has_key k) ps) as [p|] eqn:Hp.
    + apply find_app_l, Hp.
    + rewrite (find_app_r _ _ _ Hp). cbn. unfold rumble.has_key at 1. cbn.
      destruct (Z.eqb_spec player k); [congruence | reflexivity].
Qed.

Lemma credited_keys now player amount ps :
  map Player.key (credited now player amount ps)
  = map Player.key ps
    ++ match find (rumble.has_key player) ps with Some _ => [] | None => [player] end.
Proof.
  unfold credited. destruct (find _ ps) as [existing|] eqn:Hfind.
  - rewrite update_first_keys by reflexivity. rewrite app_nil_r. reflexivity.
  - rewrite map_app. reflexivity.
Qed.

(** X3. After a completed deposit the player is found in the players
    vector with the former deposit (0 for a newcomer) plus the amount and
    with the trading score unchanged (0 for a newcomer); the record found
    for any other key is the one found before; and the keys are the former
    keys in the former order, followed by the newcomer's. *)
Theorem deposit_credits_player env player amount w w' :
  rumble.deposit env player amount w = (Ok tt, w') ->
  let ps := GameState.players (game_state w) in
  let ps' := GameState.players (game_state w') in
  (exists p',
     find (rumble.has_key player) ps' = Some p' /\
     Player.key p' = player /\
     Player.deposit p'
     = from_option Player.deposit 0 (find (rumble.has_key player) ps) + amount /\
     Player.trading_score p'
     = from_option Player.trading_score 0 (find (rumble.has_key player) ps)) /\
  (forall k, k <> player -> find (rumble.has_key k) ps' = find (rumble.has_key k) ps) /\
  map Player.key ps'
  = map Player.key ps ++ match find (rumble.has_key player) ps with Some _ => [] | None => [player] end.
Proof.
  intros H. apply deposit_run in H as (now & _ & _ & _ & _ & ->). cbn zeta.
  simpl_records.
  split; [apply credited_find | ].
  split; [intros k Hk; apply credited_find_other, Hk | apply credited_keys].
Qed.

Lemma deposit_credits_player_witness :
  exists p',
    find (rumble.has_key 1)
      (GameState.players (game_state (snd (rumble.deposit env_ok 1 3 one_deposit))))
    = Some p' /\
    Player.deposit p' = 8.
Proof.
  destruct (deposit_credits_player env_ok 1 3 one_deposit
              (snd (rumble.deposit env_ok 1 3 one_deposit)))
    as [(p' & Hf & _ & Hd & _) _].
  - vm_compute. reflexivity.
  - exists p'. split; [exact Hf | ]. rewrite Hd. vm_compute. reflexivity.
Defined.

Lemma credited_twice now player a b ps :
  credited now player b (credited now player a ps) = credited now player (a + b) ps.
Proof.
  unfold credited at 1 3.
  destruct (credited_find now player a ps) as (p' & Hf & _ & Hd & _). rewrite Hf, Hd.
  unfold credited. destruct (find _ ps) as [existing|] eqn:Hfind; cbn [from_option].
  - rewrite update_first_twice by (intros x Hx; exact Hx).
    apply update_first_ext. intros x. unfold Player.set_deposit. cbn. f_equal; lia.
  - rewrite (update_first_app_r _ _ _ _ Hfind). cbn. unfold rumble.has_key at 1. cbn.
    rewrite Z.eqb_refl. cbn. reflexivity.
Qed.

(** X4. Deposits add up: when a player's deposit of [a] and then of [b]
    both complete, a single deposit of [a + b] into the first state, at
    the same clock reading, completes too and leaves the same game
    state. *)
Theorem deposits_accumulate env player a b w w1 w2 :
  rumble.deposit env player a w = (Ok tt, w1) ->
  rumble.deposit env player b w1 = (Ok tt, w2) ->
  exists w3,
    rumble.deposit env player (a + b) w = (Ok tt, w3) /\
    game_state w3 = game_state w2.
Proof.
  intros H1 H2.
  apply deposit_run in H1 as (now & Hc & Ha & Hfa & Hpa & ->).
  apply deposit_run in H2 as (now' & Hc' & Hb & Hfb & Hpb & ->).
  assert (now' = now) as -> by congruence.
  cbn zeta in *. simpl_records.
  destruct (deposit_has_no_state_guard env player (a + b) w now Hc) as [w3 H3].
  - lia.
  - lia.
  - intros existing Hfind.
    destruct (credited_find now player a (GameState.players (game_state w)))
      as (p' & Hf & _ & Hd & _).
    rewrite Hfind in Hd. cbn in Hd. specialize (Hpb p' Hf). lia.
  - exists w3. split; [exact H3 | ].
    apply deposit_run in H3 as (now3 & Hc3 & _ & _ & _ & ->).
    assert (now3 = now) as -> by congruence.
    simpl_records. rewrite credited_twice. f_equal; lia.
Qed.

Lemma deposits_accumulate_witness :
  exists w3,
    rumble.deposit env_ok 1 (3 + 4) one_deposit = (Ok tt, w3) /\
    game_state w3
    = game_state (snd (rumble.deposit env_ok 1 4
                         (snd (rumble.deposit env_ok 1 3 one_deposit)))).
Proof.
  apply (deposits_accumulate env_ok 1 3 4 one_deposit
           (snd (rumble.deposit env_ok 1 3 one_deposit))).
  - vm_compute. reflexivity.
  - vm_compute. reflexivity.
Defined.

(** X5. Whatever [deposit] returns, [active], the winners, the game id,
    the winner accounts and the burn record are as before. *)
Theorem deposit_touches_the_ledger_only env player amount w :
  let w' := snd (rumble.deposit env player amount w) in
  GameState.active (game_state w') = GameState.active (game_state w) /\
  GameState.winners (game_state w') = GameState.winners (game_state w) /\
  GameState.game_id (game_state w') = GameState.game_id (game_state w) /\
  winner_accounts w' = winner_accounts w /\
  burned w' = burned w.
Proof.
  cbn zeta.
  set (I := fun w1 : World =>
    GameState.active (game_state w1) = GameState.active (game_state w) /\
    GameState.winners (game_state w1) = GameState.winners (game_state w) /\
    GameState.game_id (game_state w1) = GameState.game_id (game_state w) /\
    winner_accounts w1 = winner_accounts w /\
    burned w1 = burned w).
  assert (Hmod : forall f,
            (forall g, GameState.active (f g) = GameState.active g /\
                       GameState.winners (f g) = GameState.winners g /\
                       GameState.game_id (f g) = GameState.game_id g) ->
            preserves I (modify_gs f)).
  { intros f Hf w1 (H1 & H2 & H3 & H4 & H5). unfold I, modify_gs. simpl_records.
    destruct (Hf (game_state w1)) as (-> & -> & ->). auto. }
  assert (Hp : preserves I (rumble.deposit env player amount)).
  { unfold rumble.deposit.
    apply preserves_bind; [auto with preserve | intros _].
    apply preserves_bind; [auto with preserve | intros gs].
    apply preserves_bind.
    - destruct (find _ _).
      + apply preserves_bind; [auto with preserve | intros d]. apply Hmod. auto.
      + apply preserves_bind; [auto with preserve | intros now]. apply Hmod. auto.
    - intros _. apply preserves_bind; [auto with preserve | intros gs'].
      apply preserves_bind; [auto with preserve | intros total].
      apply preserves_bind; [apply Hmod; auto | intros _].
      apply preserves_bind; [apply Hmod; auto | intros _].
      apply preserves_bind; [auto with preserve | intros now].
      apply preserves_bind; [ | auto with preserve].
      intros w1 H1. exact H1. }
  apply Hp. unfold I. repeat split; reflexivity.
Qed.

(** ** The roster *)

Lemma credited_roster now player amount ps :
  0 < amount ->
  NoDup (map Player.key ps) /\ Forall (fun p => 0 < Player.deposit p) ps ->
  NoDup (map Player.key (credited now player amount ps)) /\
  Forall (fun p => 0 < Player.deposit p) (credited now player amount ps).
Proof.
  intros Hpos [Hnd Hall]. split.
  - rewrite credited_keys. destruct (find _ ps) eqn:Hfind.
    + rewrite app_nil_r. exact Hnd.
    + apply NoDup_app. split; [exact Hnd | ].
      split; [ | apply NoDup_singleton].
      intros k Hk Hk'. apply list_elem_of_singleton in Hk' as ->.
      apply find_has_key_None in Hfind. contradiction.
  - unfold credited. destruct (find _ ps) as [existing|] eqn:Hfind.
    + apply find_Some_elem_of in Hfind as [Hin _].
      pose proof (proj1 (Forall_forall _ _) Hall existing Hin) as Hex. cbn in Hex.
      apply Forall_update_first; [ | exact Hall]. intros x _ _. cbn. lia.
    + apply Forall_app. split; [exact Hall | ].
      constructor; [cbn; lia | constructor].
Qed.

Lemma deposit_any_outcome env player amount w r w' :
  rumble.deposit env player amount w = (r, w') ->
  GameState.winners (game_state w') = GameState.winners (game_state w) /\
  (GameState.players (game_state w') = GameState.players (game_state w) \/
   0 < amount /\
   exists now, GameState.players (game_state w')
               = credited now player amount (GameState.players (game_state w))).
Proof.
  destruct r as [[]|e]; intros H.
  - apply deposit_run in H as (now & _ & Hpos & _ & _ & ->). cbn zeta. simpl_records.
    split; [reflexivity | right]. split; [exact Hpos | exists now; reflexivity].
  - unfold rumble.deposit in H.
    err_step H; [auto | ].
    match goal with Hp : (0 <? amount) = true |- _ => apply Z.ltb_lt in Hp end.
    err_step H. err_step H.
    + destruct (find _ _) as [existing|] eqn:Hfind.
      * err_step H; [auto | err_prim H].
      * err_step H; [auto | err_prim H].
    + assert (Hw0 : GameState.winners (game_state w0) = GameState.winners (game_state w) /\
                    exists now, GameState.players (game_state w0)
                      = credited now player amount (GameState.players (game_state w))).
      { unfold credited. destruct (find _ _) as [existing|] eqn:Hfind.
        - ok_step Hs. ok_prim Hs.
          match goal with Hadd : checked_add _ _ = Some _ |- _ =>
            apply checked_add_Some in Hadd as [-> _] end.
          simpl_records. split; [reflexivity | exists 0; reflexivity].
        - ok_step Hs. ok_prim Hs. simpl_records.
          split; [reflexivity | eexists; reflexivity]. }
      destruct Hw0 as [Hws Hps].
      err_step H. err_step H; [auto | ].
      err_step H. err_step H. err_step H; [simpl_records; auto | ].
      err_step H. err_prim H.
Qed.

Lemma select_winners_any_outcome env w :
  let g := game_state w in
  let g' := game_state (snd (rumble.select_winners env w)) in
  GameState.players g' = GameState.players g /\
  (GameState.winners g' = GameState.winners g \/
   GameState.winners g' = rumble.ranked_winners (GameState.players g)).
Proof.
  cbn zeta. unfold rumble.select_winners. rewrite bind_eq. cbn [get_gs].
  set (Q := fun g' : GameState.t =>
    GameState.players g' = GameState.players (game_state w) /\
    (GameState.winners g' = GameState.winners (game_state w) \/
     GameState.winners g' = rumble.ranked_winners (GameState.players (game_state w)))).
  match goal with
  | |- context [snd (?c w)] => assert (Hp : preserves (on_game_state Q) c)
  end.
  { apply preserves_bind; [auto with preserve | intros _].
    apply preserves_bind; [auto with preserve | intros _].
    apply preserves_bind.
    { apply preserves_modify_gs. intros g [Hps _]. split; [exact Hps | right; reflexivity]. }
    intros _.
    apply preserves_bind; [auto with preserve | intros gs'].
    apply preserves_bind; [auto with preserve | intros p90].
    apply preserves_bind; [auto with preserve | intros p10].
    apply preserves_bind; [auto with preserve | intros ppw].
    apply preserves_bind; [preserve_steps | intros _].
    apply preserves_bind; [auto with preserve | intros _].
    apply preserves_bind; [auto with preserve | intros now].
    apply preserves_bind; [auto with preserve | intros _].
    do 3 (apply preserves_bind; [apply preserves_modify_gs; intros g Hg; exact Hg | intros _]).
    auto with preserve. }
  exact (Hp w (conj eq_refl (or_introl eq_refl))).
Qed.

Lemma reset_game_any_outcome env w :
  let g' := game_state (snd (rumble.reset_game env w)) in
  g' = game_state w \/
  GameState.players g' = [] /\ GameState.winners g' = [].
Proof.
  cbn zeta. unfold rumble.reset_game, rumble.Clock_get.
  rewrite bind_eq. cbn [get_gs].
  destruct (GameState.active (game_state w)); [ | left; reflexivity].
  right. destruct (clock env); split; reflexivity.
Qed.

Lemma evaluate_one_roster env entry :
  preserves (on_game_state roster_ok) (rumble.evaluate_one env entry).
Proof.
  unfold rumble.evaluate_one. destruct entry as [player_key score].
  apply preserves_bind; [auto with preserve | intros gs].
  destruct (find _ _); preserve_steps;
    apply preserves_modify_gs; intros g (Hp & Hw & Hsub & Hpos);
    unfold roster_ok; cbn;
    (rewrite update_first_keys by reflexivity);
    (repeat split; try assumption);
    (apply Forall_update_first; [intros x Hx _; exact Hx | exact Hpos]).
Qed.

Lemma ranked_winners_submseteq ps : rumble.ranked_winners ps ⊆+ ps.
Proof.
  unfold rumble.ranked_winners.
  transitivity (sort_by rumble.by_score_desc ps).
  - apply sublist_submseteq, sublist_take.
  - apply Permutation_submseteq, sort_by_Permutation.
Qed.

Lemma exec_roster env i :
  preserves (on_game_state roster_ok) (exec env i).
Proof.
  destruct i as [a|player amount|scores| |]; cbn [exec].
  - intros w _. unfold on_game_state, roster_ok. cbn. repeat split; try constructor.
    apply list_subseteq_nil.
  - intros w (Hp & Hw & Hsub & Hpos). unfold on_game_state, roster_ok.
    destruct (rumble.deposit env player amount w) as [r w'] eqn:Hrun. cbn [snd].
    apply deposit_any_outcome in Hrun as [Hws [Hps | (Ha & now & Hps)]];
      rewrite Hws, Hps; [repeat split; assumption | ].
    destruct (credited_roster now player amount _ Ha (conj Hp Hpos)) as [Hnd Hall].
    repeat split; try assumption.
    rewrite credited_keys. intros k Hk. apply elem_of_app. left. apply Hsub, Hk.
  - unfold rumble.evaluate_trading_activity.
    apply preserves_bind.
    + apply preserves_for_each, evaluate_one_roster.
    + intros _. preserve_steps.
  - intros w (Hp & Hw & Hsub & Hpos). unfold on_game_state, roster_ok.
    destruct (select_winners_any_outcome env w) as [Hps Hws]. rewrite Hps.
    destruct Hws as [-> | ->]; [repeat split; assumption | ].
    pose proof (ranked_winners_submseteq (GameState.players (game_state w))) as Hsm.
    apply (fmap_submseteq Player.key) in Hsm.
    repeat split; try assumption.
    + unfold rumble.ranked_winners. rewrite fmap_take.
      eapply sublist_NoDup; [ | apply sublist_take].
      rewrite (sort_by_Permutation rumble.by_score_desc). exact Hp.
    + intros k Hk. eapply elem_of_submseteq; eassumption.
  - intros w Hr. unfold on_game_state.
    destruct (reset_game_any_outcome env w) as [-> | [Hps Hws]]; [exact Hr | ].
    unfold roster_ok. rewrite Hps, Hws. cbn. repeat split; try constructor.
    apply list_subseteq_nil.
Qed.

(** X6. In every game state an instruction can leave behind, after an
    error as well: no key is registered twice in the players vector, no key
    occurs twice among the winners, every winner's key is the key of a
    registered player, and every registered player has a positive
    deposit. *)
Theorem roster_is_well_formed g :
  reachable g ->
  NoDup (map Player.key (GameState.players g)) /\
  NoDup (map Player.key (GameState.winners g)) /\
  map Player.key (GameState.winners g) ⊆ map Player.key (GameState.players g) /\
  Forall (fun p => 0 < Player.deposit p) (GameState.players g).
Proof.
  induction 1 as [a w | env i w _ IH].
  - cbn. repeat split; try constructor. apply list_subseteq_nil.
  - exact (exec_roster env i w IH).
Qed.

Lemma roster_is_well_formed_witness :
  NoDup (map Player.key (GameState.players (game_state one_deposit))) /\
  NoDup (map Player.key (GameState.winners (game_state one_deposit))) /\
  map Player.key (GameState.winners (game_state one_deposit))
    ⊆ map Player.key (GameState.players (game_state one_deposit)) /\
  Forall (fun p => 0 < Player.deposit p) (GameState.players (game_state one_deposit)).
Proof.
  exact (roster_is_well_formed (game_state one_deposit)
           (reachable_step env_ok (Deposit 1 5)
              (snd (rumble.initialize 7 (fresh_world [AccountInfo.mk 1 0])))
              (reachable_init 7 (fresh_world [AccountInfo.mk 1 0])))).
Defined.

(** ** The payout loop *)

Lemma pay_winner_run env ppw x w w' :
  rumble.pay_winner env ppw x w = (Ok tt, w') ->
  exists a l,
    find (rumble.has_account_key (Player.key x)) (winner_accounts w) = Some a /\
    u64_result env (AccountInfo.lamports a + ppw) l /\
    w' = set_winner_accounts
           (update_first (rumble.has_account_key (Player.key x))
              (AccountInfo.set_lamports l) (winner_accounts w)) w.
Proof.
  unfold rumble.pay_winner. intros H.
  ok_step H. ok_step H. ok_step H. ok_prim H.
  eauto.
Qed.

Lemma pay_winner_err_cause env ppw x w e w' :
  rumble.pay_winner env ppw x w = (Err e, w') ->
  w' = w /\
  (e = Rumble WinnerAccountNotFound /\
   find (rumble.has_account_key (Player.key x)) (winner_accounts w) = None \/
   e = Panic /\ overflow_checks env = true).
Proof.
  unfold rumble.pay_winner. intros H.
  err_step H. err_step H; [auto | ].
  err_step H; [auto | ].
  err_prim H.
Qed.

Lemma find_has_account_key_None k accs :
  find (rumble.has_account_key k) accs = None <-> k ∉ map AccountInfo.key accs.
Proof.
  induction accs as [|a accs IH]; cbn.
  - split; [intros _; apply not_elem_of_nil | reflexivity].
  - unfold rumble.has_account_key at 1. rewrite not_elem_of_cons.
    destruct (Z.eqb_spec (AccountInfo.key a) k) as [Heq|Hne].
    + split; [discriminate | intros [Hk _]; congruence].
    + rewrite IH. split; [intros H; split; [congruence | exact H] | intros [_ H]; exact H].
Qed.

Lemma update_first_account_keys pred l accs :
  map AccountInfo.key (update_first pred (AccountInfo.set_lamports l) accs)
  = map AccountInfo.key accs.
Proof.
  induction accs as [|a accs IH]; cbn; [reflexivity | ].
  destruct (pred a); cbn; [ | rewrite IH]; reflexivity.
Qed.

Lemma for_each_pay_keys env ppw xs w r w' :
  for_each (rumble.pay_winner env ppw) xs w = (r, w') ->
  map AccountInfo.key (winner_accounts w') = map AccountInfo.key (winner_accounts w).
Proof.
  revert w. induction xs as [|x xs IH]; intros w H; cbn [for_each] in H.
  - apply ret_inv in H as [_ ->]. reflexivity.
  - rewrite bind_eq in H.
    destruct (rumble.pay_winner env ppw x w) as [[[]|e] w1] eqn:Hx.
    + apply IH in H. rewrite H.
      apply pay_winner_run in Hx as (a & l & _ & _ & ->).
      simpl_records. apply update_first_account_keys.
    + apply pay_winner_err_cause in Hx as [-> _]. inversion H; subst. reflexivity.
Qed.

Lemma for_each_pay_err_cause env ppw xs w e w' :
  for_each (rumble.pay_winner env ppw) xs w = (Err e, w') ->
  e = Rumble WinnerAccountNotFound /\
  (exists x, x ∈ xs /\ Player.key x ∉ map AccountInfo.key (winner_accounts w)) \/
  e = Panic /\ overflow_checks env = true.
Proof.
  revert w. induction xs as [|x xs IH]; intros w H; cbn [for_each] in H.
  - err_prim H.
  - rewrite bind_eq in H.
    destruct (rumble.pay_winner env ppw x w) as [[[]|e1] w1] eqn:Hx.
    + pose proof (for_each_pay_keys env ppw [x] w (Ok tt) w1) as Hk.
      cbn [for_each] in Hk. rewrite bind_eq, Hx in Hk. specialize (Hk eq_refl).
      apply IH in H as [(-> & y & Hy & Hno) | H]; [left | right; exact H].
      split; [reflexivity | ]. exists y. split; [right; exact Hy | ].
      rewrite <- Hk. exact Hno.
    + inversion H; subst.
      apply pay_winner_err_cause in Hx as [_ [(-> & Hno) | H1]]; [left | right; exact H1].
      split; [reflexivity | ]. exists x. split; [left | ].
      apply find_has_account_key_None, Hno.
Qed.

Lemma credit_winners_nil prize accs : map (credit_winners [] prize) accs = accs.
Proof.
  induction accs as [|a accs IH]; cbn; [reflexivity | ].
  rewrite IH. unfold credit_winners.
  rewrite bool_decide_eq_false_2 by apply not_elem_of_nil. reflexivity.
Qed.

Lemma credit_winners_absent k prize accs :
  k ∉ map AccountInfo.key accs -> map (credit_winners [k] prize) accs = accs.
Proof.
  induction accs as [|a accs IH]; cbn; [reflexivity | ].
  rewrite not_elem_of_cons. intros [Hne Hk]. rewrite (IH Hk).
  unfold credit_winners. rewrite bool_decide_eq_false_2; [reflexivity | ].
  rewrite list_elem_of_singleton. congruence.
Qed.

Lemma pay_one_as_map k prize a accs :
  NoDup (map AccountInfo.key accs) ->
  find (rumble.has_account_key k) accs = Some a ->
  update_first (rumble.has_account_key k)
    (AccountInfo.set_lamports (AccountInfo.lamports a + prize)) accs
  = map (credit_winners [k] prize) accs.
Proof.
  induction accs as [|b accs IH]; cbn; [discriminate | ].
  rewrite NoDup_cons. intros [Hb Hnd].
  unfold rumble.has_account_key at 1 3. unfold credit_winners at 1.
  destruct (Z.eqb_spec (AccountInfo.key b) k) as [Heq|Hne].
  - intros [= <-]. rewrite bool_decide_eq_true_2 by (rewrite list_elem_of_singleton; exact Heq).
    rewrite credit_winners_absent by (rewrite <- Heq; exact Hb). reflexivity.
  - intros Hf. rewrite bool_decide_eq_false_2 by (rewrite list_elem_of_singleton; exact Hne).
    rewrite (IH Hnd Hf). reflexivity.
Qed.

Lemma credit_winners_cons k ks prize a :
  k ∉ ks ->
  credit_winners ks prize (credit_winners [k] prize a) = credit_winners (k :: ks) prize a.
Proof.
  intros Hk. unfold credit_winners.
  destruct (decide (AccountInfo.key a = k)) as [Heq|Hne].
  - rewrite (bool_decide_eq_true_2 (_ ∈ [k])) by (rewrite list_elem_of_singleton; exact Heq).
    cbn [AccountInfo.key AccountInfo.set_lamports].
    rewrite bool_decide_eq_false_2 by (rewrite Heq; exact Hk).
    rewrite bool_decide_eq_true_2 by (rewrite Heq; left). reflexivity.
  - rewrite (bool_decide_eq_false_2 (_ ∈ [k])) by (rewrite list_elem_of_singleton; exact Hne).
    destruct (decide (AccountInfo.key a ∈ ks)) as [Hin|Hnin].
    + rewrite !bool_decide_eq_true_2; [reflexivity | right; exact Hin | exact Hin].
    + rewrite !bool_decide_eq_false_2; [reflexivity | | exact Hnin].
      rewrite not_elem_of_cons. auto.
Qed.

Lemma for_each_pay_as_map env prize xs w w' :
  overflow_checks env = true ->
  NoDup (map Player.key xs) ->
  NoDup (map AccountInfo.key (winner_accounts w)) ->
  for_each (rumble.pay_winner env prize) xs w = (Ok tt, w') ->
  winner_accounts w' = map (credit_winners (map Player.key xs) prize) (winner_accounts w) /\
  map Player.key xs ⊆ map AccountInfo.key (winner_accounts w).
Proof.
  intros Hoc. revert w. induction xs as [|x xs IH]; intros w Hxs Hacc H; cbn [for_each] in H.
  - apply ret_inv in H as [_ ->]. cbn. rewrite credit_winners_nil.
    split; [reflexivity | apply list_subseteq_nil].
  - ok_step H. destruct a.
    cbn [map] in Hxs. apply NoDup_cons in Hxs as [Hx Hxs].
    pose proof (for_each_pay_keys env prize [x] w (Ok tt) w0) as Hk.
    cbn [for_each] in Hk. rewrite bind_eq, Hs in Hk. specialize (Hk eq_refl).
    apply pay_winner_run in Hs as (a & l & Hf & Hl & ->).
    apply u64_result_checked in Hl; [subst l | left; exact Hoc].
    simpl_records.
    rewrite (pay_one_as_map _ _ _ _ Hacc Hf) in *.
    apply IH in H as [Hw' Hsub]; [ | exact Hxs | simpl_records; rewrite Hk; exact Hacc].
    simpl_records. split.
    + rewrite Hw', map_map. apply map_ext. intros b. apply credit_winners_cons, Hx.
    + cbn [map]. intros k Hin. apply elem_of_cons in Hin as [-> | Hin].
      * apply find_Some_elem_of in Hf as [Hin Hkey].
        apply Z.eqb_eq in Hkey. rewrite <- Hkey.
        apply list_elem_of_fmap. exists a. auto.
      * rewrite <- Hk. apply Hsub, Hin.
Qed.

(** X7. The payout of a completed [select_winners], account by account:
    in a build that panics on overflow, with no key registered twice and no
    account passed twice, every account of a winner has gained exactly
    [prize_per_winner] lamports, every other account is untouched, and
    every winner has an account among those passed. *)
Theorem winners_are_paid_once env w w' :
  rumble.select_winners env w = (Ok tt, w') ->
  overflow_checks env = true ->
  NoDup (map Player.key (GameState.players (game_state w))) ->
  NoDup (map AccountInfo.key (winner_accounts w)) ->
  let g := game_state w in
  let winners := rumble.ranked_winners (GameState.players g) in
  let num_winners := rumble.num_winners_of (Z.of_nat (length (GameState.players g))) in
  let prize_per_winner := GameState.prize_pool g * 90 / 100 / num_winners in
  winner_accounts w'
  = map (credit_winners (map Player.key winners) prize_per_winner) (winner_accounts w) /\
  map Player.key winners ⊆ map AccountInfo.key (winner_accounts w).
Proof.
  intros H Hoc Hps Hacc. cbn zeta.
  apply select_winners_ok in H as (p90 & p10 & now & paid & H); cbn zeta in H.
  destruct H as (_ & _ & H90 & _ & _ & _ & _ & Hpay & _ & Hw' & _).
  apply u64_result_checked in H90; [subst p90 | left; exact Hoc].
  apply for_each_pay_as_map in Hpay; [ | exact Hoc | | exact Hacc].
  - simpl_records. rewrite Hw'. exact Hpay.
  - unfold rumble.ranked_winners. rewrite fmap_take.
    eapply sublist_NoDup; [ | apply sublist_take].
    rewrite (sort_by_Permutation rumble.by_score_desc). exact Hps.
Qed.

Lemma winners_are_paid_once_witness :
  winner_accounts (snd (rumble.select_winners env_ok two_winner_accounts))
  = [AccountInfo.mk 10 495; AccountInfo.mk 11 495].
Proof.
  rewrite (proj1 (winners_are_paid_once env_ok two_winner_accounts
                    (snd (rumble.select_winners env_ok two_winner_accounts))
                    ltac:(vm_compute; reflexivity) eq_refl
                    ltac:(compute_done)
                    ltac:(compute_done))).
  vm_compute. reflexivity.
Defined.

(** ** Why a settlement fails, and when it cannot *)

(** Where a failing [select_winners] stopped. *)
Lemma select_winners_err_inv env w e w' :
  rumble.select_winners env w = (Err e, w') ->
  let g := game_state w in
  e = Rumble NoDeposits /\ GameState.total_deposits g <= 0 \/
  0 < GameState.total_deposits g /\
  (e = Rumble GameAlreadyActive /\ GameState.active g = true \/
   GameState.active g = false /\
   (e = Panic /\ overflow_checks env = true \/
    e = Rumble DivisionByZero /\
      rumble.num_winners_of (Z.of_nat (length (GameState.players g))) = 0 \/
    e = Rumble WinnerAccountNotFound /\
      (exists winner, winner ∈ rumble.ranked_winners (GameState.players g) /\
                      Player.key winner ∉ map AccountInfo.key (winner_accounts w)) \/
    e = ProgramError /\
      ((exists p10, u64_result env (GameState.prize_pool g * 10) p10 /\
                    burn_ok env (p10 / 100) = false) \/
       clock env = None))).
Proof.
  unfold rumble.select_winners. intros H. cbn zeta.
  err_step H.
  err_step H.
  { match goal with Hc : (0 <? _) = false |- _ => apply Z.ltb_ge in Hc; auto end. }
  match goal with Hc : (0 <? _) = true |- _ => apply Z.ltb_lt in Hc; rename Hc into Hpos end.
  right. split; [exact Hpos | ].
  err_step H.
  { match goal with Hc : negb _ = false |- _ => apply negb_false_iff in Hc end. auto. }
  match goal with Hc : negb _ = true |- _ => apply negb_true_iff in Hc; rename Hc into Hact end.
  right. split; [exact Hact | ].
  err_step H. err_step H. simpl_records.
  err_step H; [auto | ].
  err_step H; [auto | ].
  err_step H.
  { match goal with Hd : checked_div _ ?n = None |- _ =>
      unfold checked_div in Hd; destruct (Z.eqb_spec n 0); [auto | discriminate] end. }
  err_step H.
  { apply for_each_pay_err_cause in H as [(-> & Hx) | (-> & Hoc)]; simpl_records; auto. }
  err_step H; [do 3 right; split; [reflexivity | left; eauto] | ].
  err_step H; [auto 7 | ].
  do 4 err_step H. err_prim H.
Qed.

(** X8. The errors of [select_winners] and their causes.  [NoDeposits]:
    [total_deposits] is 0, checked first.  [GameAlreadyActive]: there are
    deposits and the round is settled.  Every other failure happens in a
    round that is open and funded: [DivisionByZero] when the winner count
    is 0, [WinnerAccountNotFound] when some ranked winner has no account
    among those passed, a panic only in a build with overflow checks, an
    error of the runtime when the burn call fails or the clock cannot be
    read.  [InvalidDeposit], [Overflow] and [GameNotActive] are never
    returned. *)
Theorem select_winners_error_cause env w e w' :
  rumble.select_winners env w = (Err e, w') ->
  let g := game_state w in
  let open := 0 < GameState.total_deposits g /\ GameState.active g = false in
  match e with
  | Rumble NoDeposits => GameState.total_deposits g <= 0
  | Rumble GameAlreadyActive =>
      0 < GameState.total_deposits g /\ GameState.active g = true
  | Rumble DivisionByZero =>
      open /\ rumble.num_winners_of (Z.of_nat (length (GameState.players g))) = 0
  | Rumble WinnerAccountNotFound =>
      open /\
      exists winner, winner ∈ rumble.ranked_winners (GameState.players g) /\
                     Player.key winner ∉ map AccountInfo.key (winner_accounts w)
  | Panic => open /\ overflow_checks env = true
  | ProgramError =>
      open /\
      ((exists p10, u64_result env (GameState.prize_pool g * 10) p10 /\
                    burn_ok env (p10 / 100) = false) \/
       clock env = None)
  | Rumble InvalidDeposit | Rumble Overflow | Rumble GameNotActive => False
  end.
Proof.
  intros H. apply select_winners_err_inv in H. cbn zeta in *.
  destruct H as [[-> H] | (Hpos & [[-> H] | (Hact & [[-> H] | [[-> H] | [[-> H] | [-> H]]]])])];
    auto.
Qed.

Lemma select_winners_error_cause_witness :
  exists winner,
    winner ∈ rumble.ranked_winners (GameState.players (game_state short_of_an_account)) /\
    Player.key winner ∉ map AccountInfo.key (winner_accounts short_of_an_account).
Proof.
  apply (select_winners_error_cause env_ok short_of_an_account
           (Rumble WinnerAccountNotFound)
           (snd (rumble.select_winners env_ok short_of_an_account))).
  vm_compute. reflexivity.
Defined.

Lemma completed_ledger_exact g : completed g -> ledger_exact g.
Proof.
  induction 1 as [a w w' Hinit | env i w w' _ IH Hrun].
  - inversion Hinit; subst. intros _. reflexivity.
  - exact (exec_ok_ledger_exact env i w w' IH Hrun).
Qed.

(** X9. [DivisionByZero] cannot happen in a round built by completed
    instructions (with fewer than [2^53] players): there the pool is
    positive only if somebody is registered, and then the winner count is
    at least 1. *)
Theorem division_by_zero_is_unreachable env w e w' :
  completed (game_state w) ->
  Z.of_nat (length (GameState.players (game_state w))) < 2 ^ 53 ->
  rumble.select_winners env w = (Err e, w') ->
  e <> Rumble DivisionByZero.
Proof.
  intros Hc Hlen H ->. apply select_winners_err_inv in H. cbn zeta in H.
  destruct H as [[[=] _] | (Hpos & [[[=] _] | (Hact & [[[=] _] | [[_ Hz] | [[[=] _] | [[=] _]]]])])].
  apply completed_ledger_exact in Hc. rewrite (Hc Hact) in Hpos.
  destruct (GameState.players (game_state w)) as [|p ps] eqn:Hps; [cbn in Hpos; lia | ].
  rewrite F64Facts.num_winners_of_exact in Hz by (cbn [length] in *; lia).
  pose proof (ceil_tenth_spec (Z.of_nat (length (p :: ps)))) as Hs.
  unfold ceil_tenth in Hs. cbn [length] in *. lia.
Qed.

Lemma division_by_zero_is_unreachable_witness :
  fst (rumble.select_winners env_ok no_account) = Err (Rumble WinnerAccountNotFound) /\
  Rumble WinnerAccountNotFound <> Rumble DivisionByZero.
Proof.
  split; [vm_compute; reflexivity | ].
  apply (division_by_zero_is_unreachable env_ok no_account (Rumble WinnerAccountNotFound)
           (snd (rumble.select_winners env_ok no_account))).
  - exact one_deposit_completed.
  - vm_compute. reflexivity.
  - vm_compute. reflexivity.
Defined.

Lemma lamports_le_sum a accs :
  Forall (fun b => 0 <= AccountInfo.lamports b) accs ->
  a ∈ accs -> AccountInfo.lamports a <= sum_lamports accs.
Proof.
  induction 1 as [|b accs Hb Hall IH]; intros Hin.
  - apply elem_of_nil in Hin as [].
  - assert (0 <= sum_lamports accs).
    { clear -Hall. induction Hall; cbn; lia. }
    apply elem_of_cons in Hin as [-> | Hin]; cbn; [lia | ].
    specialize (IH Hin). lia.
Qed.

Lemma for_each_pay_succeeds env prize xs w :
  0 <= prize ->
  map Player.key xs ⊆ map AccountInfo.key (winner_accounts w) ->
  Forall (fun a => 0 <= AccountInfo.lamports a) (winner_accounts w) ->
  sum_lamports (winner_accounts w) + Z.of_nat (length xs) * prize <= U64_MAX ->
  exists w', for_each (rumble.pay_winner env prize) xs w = (Ok tt, w').
Proof.
  intros Hprize. revert w. induction xs as [|x xs IH]; intros w Hsub Hall Hsum; cbn [for_each].
  - eexists. reflexivity.
  - destruct (find (rumble.has_account_key (Player.key x)) (winner_accounts w))
      as [a|] eqn:Hf.
    2:{ apply find_has_account_key_None in Hf. exfalso. apply Hf, Hsub. left. }
    pose proof (find_Some_elem_of _ _ _ Hf) as [Hin _].
    pose proof (lamports_le_sum a _ Hall Hin) as Hle.
    cbn [length] in Hsum.
    assert (Hfit : AccountInfo.lamports a + prize <= U64_MAX) by nia.
    assert (Hx : rumble.pay_winner env prize x w
                 = (Ok tt, set_winner_accounts
                             (update_first (rumble.has_account_key (Player.key x))
                                (AccountInfo.set_lamports (AccountInfo.lamports a + prize))
                                (winner_accounts w)) w)).
    { unfold rumble.pay_winner, rumble.add_u64.
      rewrite bind_eq. cbn [get_accounts]. rewrite bind_eq, Hf. cbn [ok_or ret].
      rewrite bind_eq. apply Z.leb_le in Hfit. rewrite Hfit. reflexivity. }
    rewrite bind_eq, Hx. apply IH; simpl_records.
    + rewrite update_first_account_keys. intros k Hk. apply Hsub. right. exact Hk.
    + apply Forall_update_first; [ | exact Hall].
      intros b Hb _. cbn.
      pose proof (proj1 (Forall_forall _ _) Hall a Hin) as Ha. cbn in Ha. lia.
    + rewrite (sum_lamports_update _ _ _ _ Hf). nia.
Qed.

(** X10. A round that can be settled is settled: with deposits, the round
    open, fewer than [2^53] players, [prize_pool * 90] within [u64], an
    account for every ranked winner, room in [u64] for the lamports of all
    accounts plus the pool, a burn call that succeeds and a readable clock,
    [select_winners] returns [Ok]. *)
Theorem well_formed_round_settles env w now :
  let g := game_state w in
  let n := Z.of_nat (length (GameState.players g)) in
  0 < GameState.total_deposits g ->
  GameState.active g = false ->
  0 < n < 2 ^ 53 ->
  0 <= GameState.prize_pool g ->
  GameState.prize_pool g * 90 <= U64_MAX ->
  map Player.key (rumble.ranked_winners (GameState.players g))
    ⊆ map AccountInfo.key (winner_accounts w) ->
  Forall (fun a => 0 <= AccountInfo.lamports a) (winner_accounts w) ->
  sum_lamports (winner_accounts w) + GameState.prize_pool g <= U64_MAX ->
  burn_ok env (GameState.prize_pool g * 10 / 100) = true ->
  clock env = Some now ->
  exists w', rumble.select_winners env w = (Ok tt, w').
Proof.
  intros g n Hpos Hact Hn HP H90 Hsub Hall Hsum Hburn Hclock.
  pose proof (F64Facts.num_winners_of_exact n Hn) as Hnum. fold (ceil_tenth n) in Hnum.
  pose proof (ceil_tenth_spec n) as Hct.
  pose proof (ranked_winners_length (GameState.players g) Hn) as Hlen. fold n in Hlen.
  set (payout := GameState.prize_pool g * 90 / 100).
  assert (Hpay : 0 <= payout <= GameState.prize_pool g).
  { unfold payout. split; [apply Z.div_pos; lia | ].
    apply Z.div_le_upper_bound; lia. }
  destruct (even_share_residual payout (ceil_tenth n) ltac:(lia) ltac:(lia))
    as (Hq & Hmul & _).
  destruct (for_each_pay_succeeds env (payout / ceil_tenth n)
              (rumble.ranked_winners (GameState.players g))
              (set_game_state
                 (GameState.set_winners (rumble.ranked_winners (GameState.players g)) g) w)
              Hq) as [paid Hpaid].
  { simpl_records. exact Hsub. }
  { exact Hall. }
  { simpl_records. rewrite Hlen. lia. }
  unfold rumble.select_winners, rumble.mul_u64, rumble.burn, rumble.Clock_get, checked_div.
  rewrite bind_eq. cbn [get_gs]. fold g.
  apply Z.ltb_lt in Hpos. rewrite bind_eq, Hpos. cbn [require ret].
  rewrite bind_eq, Hact. cbn [negb require ret].
  rewrite modify_gs_bind, bind_eq. cbn [get_gs]. simpl_records. fold g n.
  assert (H10 : GameState.prize_pool g * 10 <= U64_MAX) by lia.
  apply Z.leb_le in H90, H10.
  rewrite bind_eq, H90. cbn [ret]. rewrite bind_eq, H10. cbn [ret].
  rewrite Hnum. destruct (Z.eqb_spec (ceil_tenth n) 0) as [|_]; [lia | ].
  rewrite bind_eq. cbn [ok_or ret]. fold payout.
  rewrite bind_eq, Hpaid, bind_eq, Hburn, bind_eq, Hclock.
  eexists. reflexivity.
Qed.

Lemma well_formed_round_settles_witness :
  exists w', rumble.select_winners env_ok one_deposit = (Ok tt, w').
Proof.
  apply (well_formed_round_settles env_ok one_deposit 1700000000).
  - vm_compute. reflexivity.
  - vm_compute. reflexivity.
  - vm_compute. split; reflexivity.
  - vm_compute. discriminate.
  - vm_compute. discriminate.
  - compute_done.
  - compute_done.
  - vm_compute. discriminate.
  - reflexivity.
  - reflexivity.
Defined.

(** X11. A pool with [prize_pool * 90] beyond [u64::MAX], in an open,
    funded round: a build with overflow checks panics at the product, the
    ranked winners already written to the game state; a settlement that
    completes was built without them and has announced a prize computed
    from the product reduced modulo [2^64]. *)
Theorem oversized_pool_panics_or_wraps env w :
  let g := game_state w in
  0 < GameState.total_deposits g ->
  GameState.active g = false ->
  U64_MAX < GameState.prize_pool g * 90 ->
  (overflow_checks env = true ->
   rumble.select_winners env w
   = (Err Panic,
      set_game_state
        (GameState.set_winners (rumble.ranked_winners (GameState.players g)) g) w)) /\
  (forall w', rumble.select_winners env w = (Ok tt, w') ->
     overflow_checks env = false /\
     exists buyback_amount now,
       events w' = events w ++
         [WinnersSelectedEvent (GameState.game_id g)
            (map Player.key (rumble.ranked_winners (GameState.players g)))
            ((GameState.prize_pool g * 90) mod (U64_MAX + 1) / 100
             / rumble.num_winners_of (Z.of_nat (length (GameState.players g))))
            buyback_amount now]).
Proof.
  intros g Hpos Hact Hbig. split.
  - intros Hoc. unfold rumble.select_winners, rumble.mul_u64.
    rewrite bind_eq. cbn [get_gs]. fold g.
    apply Z.ltb_lt in Hpos. rewrite bind_eq, Hpos. cbn [require ret].
    rewrite bind_eq, Hact. cbn [negb require ret].
    rewrite modify_gs_bind, bind_eq. cbn [get_gs]. simpl_records. fold g.
    rewrite bind_eq. destruct (Z.leb_spec (GameState.prize_pool g * 90) U64_MAX); [lia | ].
    rewrite Hoc. reflexivity.
  - intros w' H.
    apply select_winners_ok in H as (p90 & p10 & now & paid & H); cbn zeta in H.
    destruct H as (_ & _ & H90 & _ & _ & _ & _ & _ & _ & _ & _ & He). fold g in H90, He.
    destruct H90 as [[Hle _] | (_ & Hoc & ->)]; [lia | ].
    split; [exact Hoc | ]. eauto.
Qed.

Lemma oversized_pool_panics_or_wraps_witness :
  rumble.select_winners env_ok full_pool
  = (Err Panic,
     set_game_state
       (GameState.set_winners
          (rumble.ranked_winners (GameState.players (game_state full_pool)))
          (game_state full_pool)) full_pool).
Proof.
  apply (oversized_pool_panics_or_wraps env_ok full_pool).
  - vm_compute. reflexivity.
  - vm_compute. reflexivity.
  - vm_compute. reflexivity.
  - reflexivity.
Defined.

(** ** The life of a round *)

(** X12. A settled round is not settled twice.  Directly after a completed
    [select_winners] a second call fails with [NoDeposits] (the pool is 0
    and that check comes first) and changes nothing; after a deposit into
    the settled round it fails with [GameAlreadyActive], again changing
    nothing. *)
Theorem settled_round_is_not_settled_again env env' w w' :
  rumble.select_winners env w = (Ok tt, w') ->
  rumble.select_winners env' w' = (Err (Rumble NoDeposits), w') /\
  (forall player amount w'',
     rumble.deposit env' player amount w' = (Ok tt, w'') ->
     rumble.select_winners env' w'' = (Err (Rumble GameAlreadyActive), w'')).
Proof.
  intros H. apply select_winners_ok in H as (? & ? & ? & ? & H); cbn zeta in H.
  destruct H as (_ & _ & _ & _ & _ & _ & _ & _ & Hg & _).
  split.
  - unfold rumble.select_winners. rewrite bind_eq. cbn [get_gs]. rewrite Hg. reflexivity.
  - intros player amount w'' Hd.
    apply deposit_run in Hd as (now & _ & Hpos & _ & _ & ->). cbn zeta.
    rewrite Hg. simpl_records.
    unfold rumble.select_winners. rewrite bind_eq. cbn [get_gs]. simpl_records.
    rewrite bind_eq. destruct (Z.ltb_spec 0 (0 + amount)); [reflexivity | lia].
Qed.

Lemma settled_round_is_not_settled_again_witness :
  rumble.select_winners env_ok one_deposit_settled
  = (Err (Rumble NoDeposits), one_deposit_settled).
Proof.
  apply (settled_round_is_not_settled_again env_ok env_ok one_deposit one_deposit_settled).
  vm_compute. reflexivity.
Defined.

(** X13. [reset_game] is refused with [GameNotActive], nothing changed, on
    a round that is not settled; on a settled round, the clock readable, it
    succeeds, emits [GameResetEvent] and leaves exactly the game state that
    [initialize] produces for the same game id; and it succeeds in no other
    case. *)
Theorem reset_game_starts_a_fresh_round env w :
  (GameState.active (game_state w) = false ->
   rumble.reset_game env w = (Err (Rumble GameNotActive), w)) /\
  (GameState.active (game_state w) = true ->
   forall now, clock env = Some now ->
   rumble.reset_game env w
   = (Ok tt,
      push_event (GameResetEvent (GameState.game_id (game_state w)) now)
        (set_game_state
           (game_state (snd (rumble.initialize (GameState.game_id (game_state w)) w))) w))) /\
  (forall w', rumble.reset_game env w = (Ok tt, w') ->
     GameState.active (game_state w) = true /\ exists now, clock env = Some now).
Proof.
  split; [ | split].
  - intros Hact. unfold rumble.reset_game. rewrite bind_eq. cbn [get_gs]. rewrite Hact.
    reflexivity.
  - intros Hact now Hc. unfold rumble.reset_game, rumble.Clock_get.
    rewrite bind_eq. cbn [get_gs]. rewrite Hact, Hc. reflexivity.
  - intros w' H. unfold rumble.reset_game in H.
    do 10 ok_step H. split; [assumption | eauto].
Qed.

(** ** Events *)

Lemma events_modify_gs ev f : preserves (fun w => events w = ev) (modify_gs f).
Proof. intros w Hw; exact Hw. Qed.

Lemma events_put_accounts ev a : preserves (fun w => events w = ev) (put_accounts a).
Proof. intros w Hw; exact Hw. Qed.

Lemma events_burn ev env x : preserves (fun w => events w = ev) (rumble.burn env x).
Proof. unfold rumble.burn. destruct (burn_ok env x); intros w Hw; exact Hw. Qed.

Lemma events_pay_winner ev env prize x :
  preserves (fun w => events w = ev) (rumble.pay_winner env prize x).
Proof.
  unfold rumble.pay_winner.
  repeat (apply preserves_bind; [auto with preserve | intros ?]).
  apply events_put_accounts.
Qed.

#[global] Hint Resolve events_modify_gs events_put_accounts events_burn
  events_pay_winner : preserve.

Lemma silent_bind {A B} (c : M A) (k : A -> M B) :
  (forall ev, preserves (fun w => events w = ev) c) ->
  (forall a, silent_on_err (k a)) ->
  silent_on_err (c ≫= k).
Proof.
  intros Hc Hk w e w' H. pose proof (Hc (events w) w eq_refl) as Hq.
  apply bind_err_inv in H as [H | (a & w1 & H1 & H)].
  - rewrite H in Hq. exact Hq.
  - rewrite H1 in Hq. cbn in Hq. rewrite <- Hq. eapply Hk, H.
Qed.

Ltac silent_steps :=
  repeat match goal with
  | |- silent_on_err (emit _ ≫= _) => fail 1
  | |- silent_on_err (_ ≫= _) =>
      apply silent_bind; [ intros ?; try solve [preserve_steps] | intros ? ]
  end.

Lemma deposit_silent_on_err env player amount :
  silent_on_err (rumble.deposit env player amount).
Proof.
  unfold rumble.deposit. silent_steps.
  - destruct (find _ _); preserve_steps.
  - intros w e w' H. repeat err_step H. err_prim H.
Qed.

Lemma evaluate_silent_on_err env scores :
  silent_on_err (rumble.evaluate_trading_activity env scores).
Proof.
  unfold rumble.evaluate_trading_activity. silent_steps.
  - apply preserves_for_each. intros [k v]. unfold rumble.evaluate_one.
    apply preserves_bind; [auto with preserve | intros gs].
    destruct (find _ _); preserve_steps.
  - intros w e w' H. repeat err_step H. err_prim H.
Qed.

Lemma select_winners_silent_on_err env :
  silent_on_err (rumble.select_winners env).
Proof.
  unfold rumble.select_winners. silent_steps.
  intros w e w' H. repeat err_step H. err_prim H.
Qed.

Lemma reset_game_silent_on_err env :
  silent_on_err (rumble.reset_game env).
Proof.
  unfold rumble.reset_game. silent_steps.
  intros w e w' H. repeat err_step H. err_prim H.
Qed.

(** X14. Events follow the outcome.  An instruction that returns an error
    has emitted nothing.  A completed [initialize] emits nothing; every
    other completed instruction emits exactly one event, of its own kind,
    stamped with the clock and carrying the player and amount (deposit),
    the game id (evaluation, reset) or the game id and the keys of the
    ranked winners (settlement). *)
Theorem events_follow_the_outcome env i w r w' :
  exec env i w = (r, w') ->
  match r, i with
  | Err _, _ => events w' = events w
  | Ok _, Initialize _ => events w' = events w
  | Ok _, _ =>
      exists now ev, clock env = Some now /\
                     events w' = events w ++ [ev] /\
                     is_event_of i (game_state w) now ev
  end.
Proof.
  destruct r as [[]|e]; intros H.
  - destruct i as [a|player amount|scores| |]; cbn [exec] in H.
    + inversion H; subst. reflexivity.
    + apply deposit_run in H as (now & Hc & _ & _ & _ & ->).
      exists now. eexists. split; [exact Hc | ]. split; [reflexivity | ]. cbn. auto.
    + apply evaluate_ok in H as (now & Hc & ->).
      exists now. eexists. split; [exact Hc | ]. split; [reflexivity | ]. cbn. auto.
    + apply select_winners_ok in H as (p90 & p10 & now & paid & H); cbn zeta in H.
      destruct H as (_ & _ & _ & _ & _ & _ & Hc & _ & _ & _ & _ & He).
      exists now. eexists. split; [exact Hc | ]. split; [exact He | ]. cbn. auto.
    + unfold rumble.reset_game in H. do 10 ok_step H. apply ret_inv in H as [_ ->].
      eexists. eexists. split; [eassumption | ]. split; [reflexivity | ]. cbn. auto.
  - destruct i as [a|player amount|scores| |]; cbn [exec] in H.
    + inversion H.
    + eapply deposit_silent_on_err, H.
    + eapply evaluate_silent_on_err, H.
    + eapply select_winners_silent_on_err, H.
    + eapply reset_game_silent_on_err, H.
Qed.

Lemma events_follow_the_outcome_witness :
  events (snd (exec env_ok SelectWinners short_of_an_account))
  = events short_of_an_account.
Proof.
  apply (events_follow_the_outcome env_ok SelectWinners short_of_an_account
           (Err (Rumble WinnerAccountNotFound))
           (snd (exec env_ok SelectWinners short_of_an_account))).
  vm_compute. reflexivity.
Defined.

(** ** What an evaluation writes *)

(** X15. Whatever [evaluate_trading_activity] returns, it has written
    nothing but trading scores and activity times: the players are the same
    keys in the same order with the same deposits, and the two pool fields,
    [active], the winners, the game id, the winner accounts and the burn
    record are as before. *)
Theorem evaluation_touches_scores_only env scores w :
  let w' := snd (rumble.evaluate_trading_activity env scores w) in
  let g := game_state w in
  let g' := game_state w' in
  map Player.key (GameState.players g') = map Player.key (GameState.players g) /\
  map Player.deposit (GameState.players g') = map Player.deposit (GameState.players g) /\
  GameState.total_deposits g' = GameState.total_deposits g /\
  GameState.prize_pool g' = GameState.prize_pool g /\
  GameState.active g' = GameState.active g /\
  GameState.winners g' = GameState.winners g /\
  GameState.game_id g' = GameState.game_id g /\
  winner_accounts w' = winner_accounts w /\
  burned w' = burned w.
Proof.
  cbn zeta.
  set (I := fun w1 : World =>
    map Player.key (GameState.players (game_state w1))
      = map Player.key (GameState.players (game_state w)) /\
    map Player.deposit (GameState.players (game_state w1))
      = map Player.deposit (GameState.players (game_state w)) /\
    GameState.total_deposits (game_state w1) = GameState.total_deposits (game_state w) /\
    GameState.prize_pool (game_state w1) = GameState.prize_pool (game_state w) /\
    GameState.active (game_state w1) = GameState.active (game_state w) /\
    GameState.winners (game_state w1) = GameState.winners (game_state w) /\
    GameState.game_id (game_state w1) = GameState.game_id (game_state w) /\
    winner_accounts w1 = winner_accounts w /\
    burned w1 = burned w).
  assert (Hmod : forall k f,
            (forall p, Player.key (f p) = Player.key p) ->
            (forall p, Player.deposit (f p) = Player.deposit p) ->
            preserves I (modify_gs (fun g => GameState.set_players
              (update_first (rumble.has_key k) f (GameState.players g)) g))).
  { intros k f Hk Hd w1 (H1 & H2 & H3). unfold I, modify_gs. simpl_records.
    rewrite (update_first_view Player.key) by exact Hk.
    rewrite (update_first_view Player.deposit) by exact Hd.
    auto. }
  assert (Hp : preserves I (rumble.evaluate_trading_activity env scores)).
  { unfold rumble.evaluate_trading_activity.
    apply preserves_bind.
    - apply preserves_for_each. intros [k v]. unfold rumble.evaluate_one.
      apply preserves_bind; [auto with preserve | intros gs].
      destruct (find _ _); [ | auto with preserve].
      apply preserves_bind; [apply Hmod; reflexivity | intros _].
      apply preserves_bind; [auto with preserve | intros now].
      apply Hmod; reflexivity.
    - intros _. apply preserves_bind; [auto with preserve | intros gs].
      apply preserves_bind; [auto with preserve | intros now].
      apply preserves_bind; [ | auto with preserve].
      intros w1 H1. exact H1. }
  apply Hp. unfold I. repeat split; reflexivity.
Qed.

Lemma update_first_unique k f ps :
  NoDup (map Player.key ps) ->
  update_first (rumble.has_key k) f ps
  = map (fun p => if rumble.has_key k p then f p else p) ps.
Proof.
  induction ps as [|p ps IH]; cbn; [reflexivity | ].
  rewrite NoDup_cons. intros [Hp Hnd].
  destruct (rumble.has_key k p) eqn:Hk.
  - f_equal. symmetry. rewrite <- (map_id ps) at 2. apply map_ext_in.
    intros q Hq. destruct (rumble.has_key k q) eqn:Hkq; [ | reflexivity].
    exfalso. apply Hp. unfold rumble.has_key in *.
    apply Z.eqb_eq in Hk, Hkq. rewrite Hk, <- Hkq.
    apply list_elem_of_fmap. exists q. split; [reflexivity | ].
    apply list_elem_of_In, Hq.
  - rewrite (IH Hnd). reflexivity.
Qed.

Lemma last_score_snoc scores e k :
  last_score (scores ++ [e]) k
  = if is_entry_of k e then Some e.2 else last_score scores k.
Proof.
  unfold last_score. rewrite reverse_app. cbn.
  destruct (is_entry_of k e); reflexivity.
Qed.

Lemma rescored_key now scores p : Player.key (rescored now scores p) = Player.key p.
Proof. unfold rescored. destruct (last_score _ _); reflexivity. Qed.

Lemma rescored_deposit now scores p :
  Player.deposit (rescored now scores p) = Player.deposit p.
Proof. unfold rescored. destruct (last_score _ _); reflexivity. Qed.

Lemma fold_apply_score_rescored now scores ps :
  NoDup (map Player.key ps) ->
  fold_left (apply_score now) scores ps = map (rescored now scores) ps.
Proof.
  intros Hnd. induction scores as [|e scores IH] using rev_ind.
  - cbn. rewrite <- (map_id ps) at 1. apply map_ext. intros p. reflexivity.
  - rewrite fold_left_app. cbn [fold_left]. rewrite IH.
    unfold apply_score.
    rewrite update_first_twice by (intros x Hx; exact Hx).
    rewrite update_first_unique.
    2:{ rewrite map_map. erewrite map_ext; [exact Hnd | ].
        intros p. apply rescored_key. }
    rewrite map_map. apply map_ext. intros p.
    unfold rumble.has_key. rewrite rescored_key.
    assert (Hlast : rescored now (scores ++ [e]) p
                    = if Player.key p =? e.1
                      then Player.mk (Player.key p) (Player.deposit p) e.2 now
                      else rescored now scores p).
    { unfold rescored. rewrite last_score_snoc. unfold is_entry_of.
      rewrite (Z.eqb_sym e.1). destruct (Player.key p =? e.1); reflexivity. }
    rewrite Hlast. destruct (Player.key p =? e.1); [ | reflexivity].
    unfold Player.set_last_active, Player.set_trading_score. cbn.
    rewrite rescored_key, rescored_deposit. reflexivity.
Qed.

(** X16. With no key registered twice, a completed evaluation gives every
    player whose key occurs in the batch the score of the last entry for
    that key and the current time as [last_active], and leaves every other
    player as it was. *)
Theorem evaluation_takes_the_last_score env scores w w' :
  NoDup (map Player.key (GameState.players (game_state w))) ->
  rumble.evaluate_trading_activity env scores w = (Ok tt, w') ->
  exists now,
    clock env = Some now /\
    GameState.players (game_state w')
    = map (rescored now scores) (GameState.players (game_state w)).
Proof.
  intros Hnd H. apply evaluate_ok in H as (now & Hc & ->).
  exists now. split; [exact Hc | ]. simpl_records. cbn.
  apply fold_apply_score_rescored, Hnd.
Qed.

Lemma evaluation_takes_the_last_score_witness :
  let scores := [(1, 150); (9, 200); (1, 175)] in
  exists now,
    clock env_ok = Some now /\
    GameState.players (game_state (snd (rumble.evaluate_trading_activity env_ok scores
                                          one_deposit)))
    = map (rescored now scores) (GameState.players (game_state one_deposit)).
Proof.
  cbn zeta.
  apply (evaluation_takes_the_last_score env_ok [(1, 150); (9, 200); (1, 175)] one_deposit).
  - compute_done.
  - vm_compute. reflexivity.
Defined.

(** X17. [evaluate_trading_activity] fails on the clock and on nothing
    else: with a readable clock it returns [Ok] for every batch and every
    game state, and when it fails the clock could not be read and the error
    is the runtime's. *)
Theorem evaluation_fails_only_on_the_clock env scores w :
  (forall now, clock env = Some now ->
     exists w', rumble.evaluate_trading_activity env scores w = (Ok tt, w')) /\
  (forall e w', rumble.evaluate_trading_activity env scores w = (Err e, w') ->
     e = ProgramError /\ clock env = None).
Proof.
  split.
  - intros now Hc. unfold rumble.evaluate_trading_activity, rumble.Clock_get.
    rewrite bind_eq, (for_each_evaluate_run env now scores w Hc), Hc.
    eexists. reflexivity.
  - intros e w' H. destruct (clock env) as [now|] eqn:Hc.
    + unfold rumble.evaluate_trading_activity, rumble.Clock_get in H.
      rewrite bind_eq, (for_each_evaluate_run env now scores w Hc), Hc in H.
      discriminate H.
    + split; [ | reflexivity].
      unfold rumble.evaluate_trading_activity in H.
      err_step H.
      * revert w H. induction scores as [|[k v] scores IH]; intros w H; cbn [for_each] in H.
        -- err_prim H.
        -- err_step H; [ | eapply IH; eassumption].
           unfold rumble.evaluate_one in H. err_step H.
           destruct (find _ _); [ | err_prim H].
           err_step H. err_step H; [reflexivity | err_prim H].
      * err_step H. err_step H; [reflexivity | ]. repeat err_step H. err_prim H.
Qed.

(** ** The best score *)

Lemma filter_head_split {A} (P : A -> Prop) `{!forall a, Decision (P a)} l x rest :
  filter P l = x :: rest ->
  exists before after, l = before ++ x :: after /\ Forall (fun a => ~ P a) before.
Proof.
  induction l as [|a l IH]; [discriminate | ].
  rewrite filter_cons. destruct (decide (P a)) as [Ha|Ha].
  - intros [= -> _]. exists [], l. split; [reflexivity | constructor].
  - intros Hf. destruct (IH Hf) as (before & after & -> & Hb).
    exists (a :: before), after. split; [reflexivity | constructor; assumption].
Qed.

(** X18. With at least one player (and fewer than [2^53]) there is a
    first winner; no player has a higher trading score, and every player
    registered before the first winner has a strictly lower one: among the
    players with the best score the earliest registered wins. *)
Theorem best_score_wins players :
  0 < Z.of_nat (length players) < 2 ^ 53 ->
  exists top others before after,
    rumble.ranked_winners players = top :: others /\
    (forall p, p ∈ players -> Player.trading_score p <= Player.trading_score top) /\
    players = before ++ top :: after /\
    (forall p, p ∈ before -> Player.trading_score p < Player.trading_score top).
Proof.
  intros Hn.
  pose proof (sort_by_Permutation rumble.by_score_desc players) as Hperm.
  pose proof (sort_by_score_sorted players) as Hsorted.
  pose proof (F64Facts.num_winners_of_exact _ Hn) as Hnum.
  pose proof (ceil_tenth_spec (Z.of_nat (length players))) as Hct. unfold ceil_tenth in Hct.
  unfold rumble.ranked_winners. rewrite Hnum.
  destruct (sort_by rumble.by_score_desc players) as [|top tl] eqn:Hs.
  { apply Permutation_nil_l in Hperm. subst players. cbn in Hn. lia. }
  assert (Hmax : forall p, p ∈ players ->
                   Player.trading_score p <= Player.trading_score top).
  { intros p Hp. rewrite <- Hperm in Hp. apply elem_of_cons in Hp as [-> | Hp]; [lia | ].
    apply StronglySorted_inv in Hsorted as [_ Htl].
    exact (proj1 (Forall_forall _ _) Htl p Hp). }
  pose proof (sort_by_score_stable players (Player.trading_score top)) as Hst.
  rewrite Hs, filter_cons_True in Hst by reflexivity. symmetry in Hst.
  apply filter_head_split in Hst as (before & after & Hsplit & Hb).
  destruct (Z.to_nat ((Z.of_nat (length players) + 9) / 10)) as [|k] eqn:Hk; [lia | ].
  exists top, (take k tl), before, after.
  split; [reflexivity | ]. split; [exact Hmax | ]. split; [exact Hsplit | ].
  intros p Hp. pose proof (proj1 (Forall_forall _ _) Hb p Hp) as Hne. cbn in Hne.
  assert (p ∈ players) by (rewrite Hsplit; apply elem_of_app; left; exact Hp).
  specialize (Hmax p ltac:(assumption)). lia.
Qed.

Lemma best_score_wins_witness :
  exists top others before after,
    rumble.ranked_winners eleven_players = top :: others /\
    (forall p, p ∈ eleven_players -> Player.trading_score p <= Player.trading_score top) /\
    eleven_players = before ++ top :: after /\
    (forall p, p ∈ before -> Player.trading_score p < Player.trading_score top).
Proof.
  apply (best_score_wins eleven_players). vm_compute. split; reflexivity.
Defined.

(** * Further properties of the backend *)

(** ** Deposits into the tables *)

Lemma is_player_true k g p :
  GameService.is_player k g p = true <-> PlayerRow.key p = k /\ PlayerRow.game p = g.
Proof. unfold GameService.is_player. apply bool_decide_eq_true. Qed.

Lemma is_player_false k g p :
  GameService.is_player k g p = false <-> ~ (PlayerRow.key p = k /\ PlayerRow.game p = g).
Proof. unfold GameService.is_player. apply bool_decide_eq_false. Qed.

Lemma find_is_player k g rows p :
  find (GameService.is_player k g) rows = Some p ->
  PlayerRow.key p = k /\ PlayerRow.game p = g.
Proof. intros H. apply find_Some_elem_of in H as [_ H]. apply is_player_true, H. Qed.

Lemma save_player_find p db :
  find (GameService.is_player (PlayerRow.key p) (PlayerRow.game p))
    (GameService.players (GameService.save_player p db)) = Some p.
Proof.
  unfold GameService.save_player. cbn.
  destruct (find _ (GameService.players db)) as [q|] eqn:Hf.
  - rewrite find_update_first_same.
    + rewrite Hf. reflexivity.
    + intros x _. apply is_player_true. auto.
  - rewrite (find_app_r _ _ _ Hf). cbn.
    rewrite (proj2 (is_player_true _ _ p)) by auto. reflexivity.
Qed.

Lemma save_player_find_other p db k g :
  (k, g) <> (PlayerRow.key p, PlayerRow.game p) ->
  find (GameService.is_player k g) (GameService.players (GameService.save_player p db))
  = find (GameService.is_player k g) (GameService.players db).
Proof.
  intros Hne. unfold GameService.save_player. cbn.
  destruct (find (GameService.is_player (PlayerRow.key p) (PlayerRow.game p)) _)
    as [q|] eqn:Hf.
  - apply find_update_first_other. intros x Hx. apply is_player_true in Hx as [Hk Hg].
    split; apply is_player_false; intros [? ?]; apply Hne; congruence.
  - destruct (find (GameService.is_player k g) (GameService.players db)) as [r|] eqn:Hr.
    + apply find_app_l, Hr.
    + rewrite (find_app_r _ _ _ Hr). cbn.
      rewrite (proj2 (is_player_false k g p)); [reflexivity | ].
      intros [? ?]. apply Hne. congruence.
Qed.

(** X19. A resolved backend [deposit] found the game not settled, set
    [totalDeposits] to the binary64 sum of its former value and the amount
    and [prizePool] to the same number, left the row of the player and game
    holding the binary64 sum of its former deposit and the amount with the
    former score (the amount itself and score 0 for a new row), left the
    row found for every other player or game unchanged, did not touch the
    winners table, and emitted ['deposit.made']. *)
Theorem backend_deposit_records io playerKey amount gameId db db' :
  keyed db ->
  GameService.deposit io playerKey amount gameId db = (GameService.Resolved tt, db') ->
  let before := find (GameService.is_player playerKey gameId) (GameService.players db) in
  exists game,
    GameService.games db !! gameId = Some game /\
    GameRow.active game = false /\
    let total := Number.add (GameRow.totalDeposits game) amount in
    GameService.games db'
    = <[gameId := GameRow.mk gameId total total false]> (GameService.games db) /\
    find (GameService.is_player playerKey gameId) (GameService.players db')
    = Some (PlayerRow.mk playerKey
              (match before with
               | Some p => Number.add (PlayerRow.deposit p) amount
               | None => amount
               end)
              (from_option PlayerRow.tradingScore 0 before) gameId) /\
    (forall k g, (k, g) <> (playerKey, gameId) ->
       find (GameService.is_player k g) (GameService.players db')
       = find (GameService.is_player k g) (GameService.players db)) /\
    GameService.winners db' = GameService.winners db /\
    GameService.emitted db' = GameService.emitted db ++ ["deposit.made"].
Proof.
  intros Hkeyed. unfold GameService.deposit.
  destruct (GameService.games db !! gameId) as [game|] eqn:Hgame; [ | discriminate].
  destruct (GameRow.active game) eqn:Hact; [discriminate | ].
  destruct (GameService.player_save_ok io); [ | discriminate].
  destruct (GameService.game_save_ok io); [ | discriminate].
  cbn [negb]. intros [= <-]. cbn zeta.
  pose proof (Hkeyed _ _ Hgame) as Hid.
  exists game. split; [reflexivity | ]. split; [exact Hact | ].
  set (player := match find _ _ with Some p => PlayerRow.mk _ _ _ _ | None => _ end).
  assert (Hplayer : player
    = PlayerRow.mk playerKey
        (match find (GameService.is_player playerKey gameId) (GameService.players db) with
         | Some p => Number.add (PlayerRow.deposit p) amount
         | None => amount
         end)
        (from_option PlayerRow.tradingScore 0
           (find (GameService.is_player playerKey gameId) (GameService.players db)))
        gameId).
  { unfold player. destruct (find _ _) as [p|] eqn:Hf; cbn; [ | reflexivity].
    apply find_is_player in Hf as [-> ->]. reflexivity. }
  rewrite Hplayer. clear player Hplayer.
  split; [cbn; rewrite Hid; reflexivity | ].
  split; [exact (save_player_find _ db) | ].
  split; [ | split; reflexivity].
  intros k g Hne. apply save_player_find_other. exact Hne.
Qed.

Lemma backend_deposit_records_witness :
  let before := backend_round [PlayerRow.mk "a" (Number.of_int 10) 0 "g"] 10 in
  find (GameService.is_player "a" "g")
    (GameService.players (snd (GameService.deposit io_ok "a" (Number.of_int 5) "g" before)))
  = Some (PlayerRow.mk "a" (Number.of_int 15) 0 "g").
Proof.
  cbn zeta.
  destruct (backend_deposit_records io_ok "a" (Number.of_int 5) "g"
              (backend_round [PlayerRow.mk "a" (Number.of_int 10) 0 "g"] 10)
              (snd (GameService.deposit io_ok "a" (Number.of_int 5) "g"
                      (backend_round [PlayerRow.mk "a" (Number.of_int 10) 0 "g"] 10))))
    as (game & _ & _ & _ & Hrow & _).
  - intros k g Hg. unfold backend_round in Hg. cbn [GameService.games] in Hg.
    apply lookup_singleton_Some in Hg as [<- <-]. reflexivity.
  - vm_compute. reflexivity.
  - rewrite Hrow. vm_compute. reflexivity.
Defined.

(** The sums are those of binary64: a deposit of 1 on top of [2^53] is
    resolved and changes neither the player row nor the game row. *)
Lemma backend_deposit_rounds :
  let before := backend_round [PlayerRow.mk "a" (Number.of_int two_53) 0 "g"] two_53 in
  let '(r, db) := GameService.deposit io_ok "a" (Number.of_int 1) "g" before in
  r = GameService.Resolved tt /\
  GameService.games db = GameService.games before /\
  GameService.players db = GameService.players before.
Proof. vm_compute. repeat split; reflexivity. Qed.

(** X20. The two saves of the backend [deposit] are not one transaction:
    when the player row is saved and the save of the game row rejects, the
    call is rejected, no event is emitted and the game row is unchanged,
    while the player's row holds the deposit raised by the amount (the new
    row, for a new player). *)
Theorem backend_rejected_deposit_keeps_player_row io playerKey amount gameId db game :
  GameService.games db !! gameId = Some game ->
  GameRow.active game = false ->
  GameService.player_save_ok io = true ->
  GameService.game_save_ok io = false ->
  let before := find (GameService.is_player playerKey gameId) (GameService.players db) in
  exists db',
    GameService.deposit io playerKey amount gameId db
    = (GameService.Rejected GameService.RepositoryError, db') /\
    GameService.games db' = GameService.games db /\
    GameService.emitted db' = GameService.emitted db /\
    GameService.winners db' = GameService.winners db /\
    find (GameService.is_player playerKey gameId) (GameService.players db')
    = Some (PlayerRow.mk playerKey
              (match before with
               | Some p => Number.add (PlayerRow.deposit p) amount
               | None => amount
               end)
              (from_option PlayerRow.tradingScore 0 before) gameId) /\
    (forall k g, (k, g) <> (playerKey, gameId) ->
       find (GameService.is_player k g) (GameService.players db')
       = find (GameService.is_player k g) (GameService.players db)).
Proof.
  intros Hgame Hact Hp Hg. cbn zeta. unfold GameService.deposit.
  rewrite Hgame, Hact, Hp, Hg. cbn [negb].
  eexists. split; [reflexivity | ]. split; [reflexivity | ]. split; [reflexivity | ].
  split; [reflexivity | ].
  set (player := match find _ _ with Some p => PlayerRow.mk _ _ _ _ | None => _ end).
  assert (Hplayer : player
    = PlayerRow.mk playerKey
        (match find (GameService.is_player playerKey gameId) (GameService.players db) with
         | Some p => Number.add (PlayerRow.deposit p) amount
         | None => amount
         end)
        (from_option PlayerRow.tradingScore 0
           (find (GameService.is_player playerKey gameId) (GameService.players db)))
        gameId).
  { unfold player. destruct (find _ _) as [p|] eqn:Hf; cbn; [ | reflexivity].
    apply find_is_player in Hf as [-> ->]. reflexivity. }
  rewrite Hplayer. clear player Hplayer.
  split; [exact (save_player_find _ db) | ].
  intros k g Hne. apply save_player_find_other. exact Hne.
Qed.

Lemma backend_rejected_deposit_keeps_player_row_witness :
  let io := {| GameService.player_save_ok := true; GameService.game_save_ok := false;
               GameService.winner_save_ok := fun _ => true |} in
  let before := backend_round [PlayerRow.mk "a" (Number.of_int 10) 0 "g"] 10 in
  exists db',
    GameService.deposit io "a" (Number.of_int 5) "g" before
    = (GameService.Rejected GameService.RepositoryError, db') /\
    GameService.games db' = GameService.games before /\
    GameService.players db' = [PlayerRow.mk "a" (Number.of_int 15) 0 "g"].
Proof.
  cbn zeta.
  destruct (backend_rejected_deposit_keeps_player_row
              {| GameService.player_save_ok := true; GameService.game_save_ok := false;
                 GameService.winner_save_ok := fun _ => true |}
              "a" (Number.of_int 5) "g"
              (backend_round [PlayerRow.mk "a" (Number.of_int 10) 0 "g"] 10)
              (GameRow.mk "g" (Number.of_int 10) (Number.of_int 10) false))
    as (db' & Hrun & Hgames & _).
  - vm_compute. reflexivity.
  - reflexivity.
  - reflexivity.
  - reflexivity.
  - exists db'. split; [exact Hrun | ]. split; [exact Hgames | ].
    vm_compute in Hrun. injection Hrun as <-. vm_compute. reflexivity.
Defined.

(** ** Settlement in the tables *)

Lemma selectWinners_marks_active io gameId db ws db' :
  keyed db ->
  GameService.selectWinners io gameId db = (GameService.Resolved ws, db') ->
  exists total,
    GameService.games db' !! gameId
    = Some (GameRow.mk gameId total (Number.of_int 0) true).
Proof.
  intros Hkeyed. unfold GameService.selectWinners.
  destruct (GameService.games db !! gameId) as [game|] eqn:Hgame; [ | discriminate].
  destruct (GameRow.active game); [discriminate | ].
  destruct (GameService.save_winners _ _ _ _ _ _ _) as [[ws1|r] db1]; [ | discriminate].
  destruct (GameService.game_save_ok io); [ | discriminate].
  cbn [negb]. intros [= <- <-]. cbn.
  rewrite (Hkeyed _ _ Hgame), lookup_insert_eq. eauto.
Qed.

Lemma filter_out_then_in {A} (P : A -> Prop) `{!forall a, Decision (P a)} (l : list A) :
  filter P (filter (fun a => ~ P a) l) = [].
Proof.
  induction l as [|a l IH]; [reflexivity | ].
  rewrite (filter_cons (fun a => ~ P a)). destruct (decide (~ P a)) as [Hn|Hn]; [ | exact IH].
  rewrite filter_cons. destruct (decide (P a)); [contradiction | exact IH].
Qed.

(** X21. A resolved backend [selectWinners] found the game not settled
    and returns one winner row per top player, in ranking order, each with
    the prize [Math.floor(Math.floor(prizePool * 90 / 100) / numWinners)]
    as binary64 arithmetic gives it; for 1 to [2^53 - 1] players these are
    [ceil(n / 10)] rows.  The rows are appended to the winners table,
    [Math.floor(prizePool * 10 / 100)] is handed to the buyback, the game
    row becomes active with [prizePool] 0 and [totalDeposits] as it was,
    the player rows are untouched and ['winners.selected'] is emitted.
    There is no check for deposits or players. *)
Theorem backend_select_winners_records io gameId db ws db' :
  keyed db ->
  GameService.selectWinners io gameId db = (GameService.Resolved ws, db') ->
  exists game,
    GameService.games db !! gameId = Some game /\
    GameRow.active game = false /\
    let rows := filter (fun p => PlayerRow.game p = gameId) (GameService.players db) in
    let numWinners := GameService.numWinners_of (length rows) in
    let topPlayers :=
      GameService.slice_0 numWinners (sort_by GameService.by_tradingScore_desc rows) in
    let hundredths := fun k =>
      Number.floor
        (Number.div (Number.mul (GameRow.prizePool game) (Number.of_int k))
           (Number.of_int 100)) in
    let prizePerWinner := Number.floor (Number.div (hundredths 90) numWinners) in
    ws = map (fun p => WinnerRow.mk (PlayerRow.key p) prizePerWinner gameId) topPlayers /\
    (0 < Z.of_nat (length rows) < 2 ^ 53 ->
     Z.of_nat (length ws) = ceil_tenth (Z.of_nat (length rows))) /\
    GameService.winners db' = GameService.winners db ++ ws /\
    GameService.games db'
    = <[gameId := GameRow.mk gameId (GameRow.totalDeposits game) (Number.of_int 0) true]>
        (GameService.games db) /\
    GameService.players db' = GameService.players db /\
    GameService.burnt db' = GameService.burnt db ++ [hundredths 10] /\
    GameService.emitted db' = GameService.emitted db ++ ["winners.selected"].
Proof.
  intros Hkeyed. unfold GameService.selectWinners.
  destruct (GameService.games db !! gameId) as [game|] eqn:Hgame; [ | discriminate].
  destruct (GameRow.active game) eqn:Hact; [discriminate | ].
  destruct (GameService.save_winners _ _ _ _ _ _ _) as [[ws1|r] db1] eqn:Hsave;
    [ | discriminate].
  destruct (GameService.game_save_ok io); [ | discriminate].
  cbn [negb]. intros [= <- <-].
  apply save_winners_resolved in Hsave as [-> ->]. cbn zeta.
  exists game. split; [reflexivity | ]. split; [exact Hact | ].
  split; [reflexivity | ].
  split.
  { intros Hn. cbn [app]. unfold GameService.slice_0, GameService.numWinners_of.
    rewrite length_map, length_take, sort_by_length.
    change (F64.to_usize
              (Number.ceil
                 (Number.mul
                    (Number.of_int
                       (Z.of_nat
                          (length (filter (fun p => PlayerRow.game p = gameId)
                                     (GameService.players db))))) F64.lit_0_10)))
      with (rumble.num_winners_of
              (Z.of_nat (length (filter (fun p => PlayerRow.game p = gameId)
                                   (GameService.players db))))).
    rewrite (F64Facts.num_winners_of_exact _ Hn). fold (ceil_tenth (Z.of_nat (length
      (filter (fun p => PlayerRow.game p = gameId) (GameService.players db))))).
    pose proof (ceil_tenth_spec (Z.of_nat (length
      (filter (fun p => PlayerRow.game p = gameId) (GameService.players db))))). lia. }
  cbn. rewrite (Hkeyed _ _ Hgame). auto.
Qed.

Lemma backend_select_winners_records_witness :
  let after := snd (GameService.selectWinners io_ok "g" (backend_round eleven_rows 1100)) in
  GameService.burnt after = [Number.of_int 110] /\
  GameService.games after !! "g"
  = Some (GameRow.mk "g" (Number.of_int 1100) (Number.of_int 0) true).
Proof.
  cbn zeta.
  destruct (backend_select_winners_records io_ok "g" (backend_round eleven_rows 1100)
              [WinnerRow.mk "k" (Number.of_int 495) "g";
               WinnerRow.mk "j" (Number.of_int 495) "g"]
              (snd (GameService.selectWinners io_ok "g" (backend_round eleven_rows 1100))))
    as (game & Hg & _ & _ & _ & _ & Hgames & _ & Hburnt & _).
  - intros k g Hg. unfold backend_round in Hg. cbn [GameService.games] in Hg.
    apply lookup_singleton_Some in Hg as [<- <-]. reflexivity.
  - vm_compute. reflexivity.
  - unfold backend_round in Hg. cbn [GameService.games] in Hg.
    apply lookup_singleton_Some in Hg as [_ <-].
    rewrite Hburnt, Hgames, lookup_insert_eq. split; [ | reflexivity].
    vm_compute. reflexivity.
Defined.

(** The shares are those of binary64: of a pool of 1000000000000001 the
    winners' share is 900000000000001, one more than the exact ninety
    hundredths rounded down, because [prizePool * 90] is rounded before it
    is divided. *)
Lemma backend_share_rounds :
  Number.floor
    (Number.div (Number.mul (Number.of_int odd_pool) (Number.of_int 90))
       (Number.of_int 100))
  = Number.of_int 900000000000001 /\
  odd_pool * 90 / 100 = 900000000000000.
Proof. vm_compute. split; reflexivity. Qed.

(** X22. A backend [selectWinners] rejected by the repository leaves the
    game row, the player rows and the events as they were, while the winner
    rows saved before the rejection stay, each with the prize of a resolved
    call: the table has grown by a prefix of the winner rows, a proper
    prefix when a winner save rejected (no buyback then), all of them when
    the final save of the game row did (the buyback has then been made). *)
Theorem backend_rejected_settlement_keeps_saved_rows io gameId db db' :
  GameService.selectWinners io gameId db
  = (GameService.Rejected GameService.RepositoryError, db') ->
  exists game,
    GameService.games db !! gameId = Some game /\
    GameRow.active game = false /\
    GameService.games db' = GameService.games db /\
    GameService.players db' = GameService.players db /\
    GameService.emitted db' = GameService.emitted db /\
    let rows := filter (fun p => PlayerRow.game p = gameId) (GameService.players db) in
    let numWinners := GameService.numWinners_of (length rows) in
    let topPlayers :=
      GameService.slice_0 numWinners (sort_by GameService.by_tradingScore_desc rows) in
    let hundredths := fun k =>
      Number.floor
        (Number.div (Number.mul (GameRow.prizePool game) (Number.of_int k))
           (Number.of_int 100)) in
    let prizePerWinner := Number.floor (Number.div (hundredths 90) numWinners) in
    exists n,
      (n <= length topPlayers)%nat /\
      GameService.winners db'
      = GameService.winners db
        ++ map (fun p => WinnerRow.mk (PlayerRow.key p) prizePerWinner gameId)
             (take n topPlayers) /\
      ((n < length topPlayers)%nat ->
       GameService.winner_save_ok io n = false /\
       GameService.burnt db' = GameService.burnt db) /\
      (n = length topPlayers ->
       GameService.game_save_ok io = false /\
       GameService.burnt db' = GameService.burnt db ++ [hundredths 10]).
Proof.
  unfold GameService.selectWinners.
  destruct (GameService.games db !! gameId) as [game|] eqn:Hgame; [ | discriminate].
  destruct (GameRow.active game) eqn:Hact; [discriminate | ].
  destruct (GameService.save_winners _ _ _ _ _ _ _) as [[ws1|r] db1] eqn:Hsave.
  - destruct (GameService.game_save_ok io) eqn:Hok; [discriminate | ].
    cbn [negb]. intros [= <-].
    apply save_winners_resolved in Hsave as [_ ->]. cbn zeta.
    exists game. split; [reflexivity | ]. split; [exact Hact | ].
    split; [reflexivity | ]. split; [reflexivity | ]. split; [reflexivity | ].
    eexists. split; [reflexivity | ].
    split; [cbn; rewrite firstn_all; reflexivity | ].
    split; [lia | ]. intros _. split; reflexivity.
  - intros [= -> <-].
    apply save_winners_rejected in Hsave as (_ & n & Hn & Hfail & ->). cbn zeta.
    exists game. split; [reflexivity | ]. split; [exact Hact | ].
    split; [reflexivity | ]. split; [reflexivity | ]. split; [reflexivity | ].
    exists n. split; [lia | ]. split; [reflexivity | ].
    split; [intros _; split; [exact Hfail | reflexivity] | lia].
Qed.

Lemma backend_rejected_settlement_keeps_saved_rows_witness :
  let after := snd (GameService.selectWinners io_second_winner_fails "g"
                      (backend_round eleven_rows 1100)) in
  GameService.games after = GameService.games (backend_round eleven_rows 1100) /\
  GameService.winners after = [WinnerRow.mk "k" (Number.of_int 495) "g"].
Proof.
  cbn zeta.
  destruct (backend_rejected_settlement_keeps_saved_rows io_second_winner_fails "g"
              (backend_round eleven_rows 1100)
              (snd (GameService.selectWinners io_second_winner_fails "g"
                      (backend_round eleven_rows 1100))))
    as (game & _ & _ & Hgames & _).
  - vm_compute. reflexivity.
  - split; [exact Hgames | vm_compute; reflexivity].
Defined.

(** X23. After a resolved backend [selectWinners] the game takes no
    deposit and no second settlement, both rejected with nothing written,
    until [resetGame]; that, when its deletes and its save succeed,
    resolves and leaves the game row zeroed and open with no player row and
    no winner row of the game. *)
Theorem backend_settled_game_is_closed io gameId db ws db' :
  keyed db ->
  GameService.selectWinners io gameId db = (GameService.Resolved ws, db') ->
  (forall io' playerKey amount,
     GameService.deposit io' playerKey amount gameId db'
     = (GameService.Rejected GameService.NotActiveOrMissing, db')) /\
  (forall io',
     GameService.selectWinners io' gameId db'
     = (GameService.Rejected GameService.NotActiveOrMissing, db')) /\
  (forall io' del,
     GameService.game_save_ok io' = true ->
     GameService.winner_delete_ok del = true ->
     GameService.player_delete_ok del = true ->
     exists db'',
       GameService.resetGame io' del gameId db' = (GameService.Resolved tt, db'') /\
       GameService.games db'' !! gameId
       = Some (GameRow.mk gameId (Number.of_int 0) (Number.of_int 0) false) /\
       filter (fun p => PlayerRow.game p = gameId) (GameService.players db'') = [] /\
       filter (fun w => WinnerRow.game w = gameId) (GameService.winners db'') = []).
Proof.
  intros Hkeyed H.
  pose proof (selectWinners_marks_active _ _ _ _ _ Hkeyed H) as (total & Hgame).
  split; [ | split].
  - intros io' playerKey amount. unfold GameService.deposit. rewrite Hgame. reflexivity.
  - intros io'. unfold GameService.selectWinners. rewrite Hgame. reflexivity.
  - intros io' del Hsave Hdw Hdp. unfold GameService.resetGame.
    rewrite Hgame, Hsave, Hdw, Hdp. cbn [negb GameRow.active GameRow.gameId].
    eexists. split; [reflexivity | ]. cbn.
    rewrite lookup_insert_eq. split; [reflexivity | ].
    split; apply filter_out_then_in.
Qed.

Lemma backend_settled_game_is_closed_witness :
  GameService.deposit io_ok "a" (Number.of_int 5) "g"
    (snd (GameService.selectWinners io_ok "g" (backend_round eleven_rows 1100)))
  = (GameService.Rejected GameService.NotActiveOrMissing,
     snd (GameService.selectWinners io_ok "g" (backend_round eleven_rows 1100))).
Proof.
  apply (backend_settled_game_is_closed io_ok "g" (backend_round eleven_rows 1100)
           [WinnerRow.mk "k" (Number.of_int 495) "g";
            WinnerRow.mk "j" (Number.of_int 495) "g"]).
  - intros k g Hg. unfold backend_round in Hg. cbn [GameService.games] in Hg.
    apply lookup_singleton_Some in Hg as [<- <-]. reflexivity.
  - vm_compute. reflexivity.
Defined.

Lemma insert_by_map {A B} (f : A -> B) cmpA cmpB x l :
  (forall a b, cmpB (f a) (f b) = cmpA a b) ->
  map f (insert_by cmpA x l) = insert_by cmpB (f x) (map f l).
Proof.
  intros Hc. induction l as [|y l IH]; cbn; [reflexivity | ].
  rewrite Hc. destruct (cmpA x y); cbn; [reflexivity | reflexivity | rewrite IH; reflexivity].
Qed.

Lemma sort_by_map {A B} (f : A -> B) cmpA cmpB l :
  (forall a b, cmpB (f a) (f b) = cmpA a b) ->
  map f (sort_by cmpA l) = sort_by cmpB (map f l).
Proof.
  intros Hc. induction l as [|x l IH]; [reflexivity | ].
  change (map f (insert_by cmpA x (sort_by cmpA l))
          = insert_by cmpB (f x) (sort_by cmpB (map f l))).
  rewrite <- IH. apply insert_by_map, Hc.
Qed.

(** X24. The backend ranks as the program does: for player rows read as
    program players with the same scores, the backend's top players are the
    program's ranked winners, in the same order. *)
Theorem backend_ranks_like_the_program (f : PlayerRow.t -> Player.t) rows :
  (forall r, Player.trading_score (f r) = PlayerRow.tradingScore r) ->
  let numWinners := rumble.num_winners_of (Z.of_nat (length rows)) in
  map f (take (Z.to_nat numWinners) (sort_by GameService.by_tradingScore_desc rows))
  = rumble.ranked_winners (map f rows).
Proof.
  intros Hf. cbn zeta. unfold rumble.ranked_winners.
  rewrite length_map, fmap_take. f_equal.
  apply sort_by_map. intros a b.
  unfold rumble.by_score_desc, GameService.by_tradingScore_desc.
  rewrite !Hf. apply Z.compare_sub.
Qed.

Lemma backend_ranks_like_the_program_witness :
  let f := fun r => Player.mk 0 100 (PlayerRow.tradingScore r) 0 in
  map f (take (Z.to_nat (rumble.num_winners_of (Z.of_nat (length eleven_rows))))
           (sort_by GameService.by_tradingScore_desc eleven_rows))
  = rumble.ranked_winners (map f eleven_rows).
Proof.
  cbn zeta.
  apply (backend_ranks_like_the_program
           (fun r => Player.mk 0 100 (PlayerRow.tradingScore r) 0)
           eleven_rows).
  intros r. reflexivity.
Defined.

(** ** Scores in the tables *)

Lemma save_scores_frame io gameId scores db :
  let db' := snd (GameService.save_scores io gameId scores db) in
  GameService.games db' = GameService.games db /\
  GameService.winners db' = GameService.winners db /\
  GameService.burnt db' = GameService.burnt db /\
  GameService.emitted db' = GameService.emitted db /\
  map PlayerRow.key (GameService.players db') = map PlayerRow.key (GameService.players db) /\
  map PlayerRow.deposit (GameService.players db')
  = map PlayerRow.deposit (GameService.players db) /\
  map PlayerRow.game (GameService.players db') = map PlayerRow.game (GameService.players db).
Proof.
  cbn zeta. revert db. induction scores as [|[k v] scores IH]; intros db;
    cbn [GameService.save_scores].
  - repeat split; reflexivity.
  - destruct (find _ _) as [player|] eqn:Hf; [ | apply IH].
    destruct (GameService.player_save_ok io); [ | repeat split; reflexivity].
    specialize (IH (GameService.save_player
      (PlayerRow.mk (PlayerRow.key player) (PlayerRow.deposit player) v
         (PlayerRow.game player)) db)).
    destruct IH as (H1 & H2 & H3 & H4 & H5 & H6 & H7).
    rewrite H1, H2, H3, H4, H5, H6, H7.
    unfold GameService.save_player.
    cbn [GameService.games GameService.players GameService.winners GameService.burnt
         GameService.emitted PlayerRow.key PlayerRow.game].
    pose proof (find_is_player _ _ _ _ Hf) as [Hk Hg]. rewrite Hk, Hg, Hf.
    assert (Hsame : forall v',
              update_first (GameService.is_player k gameId)
                (fun _ => PlayerRow.mk k (PlayerRow.deposit player) v' gameId)
                (GameService.players db)
              = update_first (GameService.is_player k gameId)
                  (fun x => PlayerRow.mk (PlayerRow.key x) (PlayerRow.deposit x) v'
                              (PlayerRow.game x)) (GameService.players db)).
    { intros v'. clear -Hf. induction (GameService.players db) as [|x rows IH]; cbn in *;
        [reflexivity | ].
      destruct (GameService.is_player k gameId x) eqn:Hx;
        [ | rewrite (IH Hf); reflexivity].
      injection Hf as ->. apply is_player_true in Hx as [-> ->]. reflexivity. }
    rewrite Hsame.
    rewrite (update_first_view PlayerRow.key), (update_first_view PlayerRow.deposit),
      (update_first_view PlayerRow.game) by reflexivity.
    repeat split; reflexivity.
Qed.

(** X25. Whatever the backend [evaluateTradingActivities] returns, it has
    written nothing but trading scores: the games, the winners and the
    buyback record are as before and the player rows are the same keys,
    deposits and games in the same order; for an unknown game it answers
    ['Game not found.'] and writes nothing at all. *)
Theorem backend_evaluation_touches_scores_only io aiService gameId db :
  let db' := snd (GameService.evaluateTradingActivities io aiService gameId db) in
  GameService.games db' = GameService.games db /\
  GameService.winners db' = GameService.winners db /\
  GameService.burnt db' = GameService.burnt db /\
  map PlayerRow.key (GameService.players db') = map PlayerRow.key (GameService.players db) /\
  map PlayerRow.deposit (GameService.players db')
  = map PlayerRow.deposit (GameService.players db) /\
  map PlayerRow.game (GameService.players db') = map PlayerRow.game (GameService.players db) /\
  (GameService.games db !! gameId = None ->
   GameService.evaluateTradingActivities io aiService gameId db
   = (GameService.GameNotFound, db)).
Proof.
  cbn zeta. unfold GameService.evaluateTradingActivities.
  destruct (GameService.games db !! gameId) as [game|]; [ | repeat split; reflexivity].
  destruct (aiService _) as [scores|]; [ | repeat split; try reflexivity; discriminate].
  pose proof (save_scores_frame io gameId scores db) as H. cbn zeta in H.
  destruct (GameService.save_scores io gameId scores db) as [[] db1]; cbn in *;
    destruct H as (H1 & H2 & H3 & H4 & H5 & H6 & H7);
    repeat split; try assumption; discriminate.
Qed.

(** ** The pool of an open game *)

Lemma open_pools_agree_same db db' :
  GameService.games db' = GameService.games db -> open_pools_agree db -> open_pools_agree db'.
Proof. intros Hg H k game. rewrite Hg. apply H. Qed.

Lemma open_pools_agree_saved name g db0 db :
  GameService.games db0 = GameService.games db ->
  (GameRow.active g = false -> GameRow.prizePool g = GameRow.totalDeposits g) ->
  open_pools_agree db ->
  open_pools_agree (GameService.emit name (GameService.save_game g db0)).
Proof.
  intros H0 Hg H k game.
  cbn [GameService.emit GameService.save_game GameService.games]. rewrite H0.
  destruct (decide (GameRow.gameId g = k)) as [<-|Hne].
  - rewrite lookup_insert_eq. intros [= <-]. exact Hg.
  - rewrite lookup_insert_ne by exact Hne. apply H.
Qed.

Lemma save_winners_games io i prize gameId top acc db :
  GameService.games (snd (GameService.save_winners io i prize gameId top acc db))
  = GameService.games db.
Proof.
  revert i acc db. induction top as [|p top IH]; intros i acc db;
    cbn [GameService.save_winners]; [reflexivity | ].
  destruct (GameService.winner_save_ok io i); [ | reflexivity].
  rewrite IH. reflexivity.
Qed.

(** X26. In the backend the prize pool of an open game is its total of
    deposits: if every game row that is not settled shows the same number
    in [prizePool] and in [totalDeposits], it still does after [deposit],
    [selectWinners], [evaluateTradingActivities] and [resetGame], however
    each of them ends and whatever the amounts are. *)
Theorem backend_open_pool_is_the_total db :
  open_pools_agree db ->
  (forall io playerKey amount gameId,
     open_pools_agree (snd (GameService.deposit io playerKey amount gameId db))) /\
  (forall io gameId,
     open_pools_agree (snd (GameService.selectWinners io gameId db))) /\
  (forall io aiService gameId,
     open_pools_agree (snd (GameService.evaluateTradingActivities io aiService gameId db))) /\
  (forall io del gameId,
     open_pools_agree (snd (GameService.resetGame io del gameId db))).
Proof.
  intros Hpools. split; [ | split; [ | split]].
  - intros io playerKey amount gameId. unfold GameService.deposit.
    destruct (GameService.games db !! gameId) as [game|] eqn:Hgame; [ | exact Hpools].
    destruct (GameRow.active game) eqn:Hact; [exact Hpools | ].
    destruct (GameService.player_save_ok io); [ | exact Hpools].
    destruct (GameService.game_save_ok io); cbn [negb snd].
    + apply (open_pools_agree_saved _ _ _ db); [reflexivity | reflexivity | exact Hpools].
    + apply (open_pools_agree_same db); [reflexivity | exact Hpools].
  - intros io gameId. unfold GameService.selectWinners.
    destruct (GameService.games db !! gameId) as [game|] eqn:Hgame; [ | exact Hpools].
    destruct (GameRow.active game) eqn:Hact; [exact Hpools | ].
    match goal with
    | |- context [GameService.save_winners ?io ?i ?prize ?g ?top ?acc ?d] =>
        pose proof (save_winners_games io i prize g top acc d) as Hg;
        destruct (GameService.save_winners io i prize g top acc d) as [[ws1|r] db1]
    end; cbn [snd] in Hg.
    + destruct (GameService.game_save_ok io); cbn [negb snd].
      * apply (open_pools_agree_saved _ _ _ db); [exact Hg | discriminate | exact Hpools].
      * apply (open_pools_agree_same db); [exact Hg | exact Hpools].
    + cbn [snd]. apply (open_pools_agree_same db); [exact Hg | exact Hpools].
  - intros io aiService gameId. unfold GameService.evaluateTradingActivities.
    destruct (GameService.games db !! gameId) as [game|]; [ | exact Hpools].
    destruct (aiService _) as [scores|]; [ | exact Hpools].
    pose proof (save_scores_frame io gameId scores db) as H. cbn zeta in H.
    destruct H as (Hg & _).
    destruct (GameService.save_scores io gameId scores db) as [[] db1]; cbn [snd] in *;
      apply (open_pools_agree_same db); try exact Hpools; exact Hg.
  - intros io del gameId. unfold GameService.resetGame.
    destruct (GameService.games db !! gameId) as [game|] eqn:Hgame; [ | exact Hpools].
    destruct (GameRow.active game); cbn [negb]; [ | exact Hpools].
    destruct (GameService.winner_delete_ok del); cbn [negb]; [ | exact Hpools].
    destruct (GameService.player_delete_ok del); cbn [negb snd];
      [ | apply (open_pools_agree_same db); [reflexivity | exact Hpools]].
    destruct (GameService.game_save_ok io); cbn [negb snd].
    + apply (open_pools_agree_saved _ _ _ db); [reflexivity | reflexivity | exact Hpools].
    + apply (open_pools_agree_same db); [reflexivity | exact Hpools].
Qed.

Lemma backend_open_pool_is_the_total_witness :
  open_pools_agree two_games /\
  open_pools_agree (snd (GameService.deposit io_ok "b" (Number.of_int 5) "g" two_games)).
Proof.
  assert (Hb : open_pools_agree two_games).
  { intros k g Hg _. unfold two_games in Hg. cbn [GameService.games] in Hg.
    apply lookup_insert_Some in Hg as [[<- <-] | [_ Hg]]; [reflexivity | ].
    apply lookup_singleton_Some in Hg as [<- <-]. reflexivity. }
  split; [exact Hb | ].
  exact (proj1 (backend_open_pool_is_the_total two_games Hb) io_ok "b" (Number.of_int 5) "g").
Defined.

